(** * TDOA / DOA estimation: a shallow embedding of [tdoa.py] and [doa.py]

    The two Python modules are pure numeric code built on numpy and scipy.
    They are embedded here as Rocq functions with these conventions.  The
    functions of [main.py] and [simulation.py] that load, process and
    create the room impulse responses follow them, with the file system,
    [soundfile] and [pyroomacoustics] as their environment.

    - A float (Python [float], [numpy.float64]) is idealised as a real number
      of the Standard Library ([R]); rounding, infinities and nan are outside
      the model.  Where numpy would yield nan or Python would raise, the model
      raises (see [exn]).
    - A one-dimensional array is a [list]; [np.asarray(sig).flatten()] is the
      identity on it.
    - A Python exception is a value of [exn]; a function that can raise
      returns a [result].
    - numpy and scipy routines ([argmax], [arange], [clip], [arccos],
      [degrees], [fft], [ifft], [fftshift], [correlate], [correlation_lags])
      are modelled from their documented behaviour; [fft] is the discrete
      Fourier transform it computes.
    - Sample rates and distances are meant positive, as the callers pass
      them; the theorems say so where it matters. *)

From Stdlib Require Import Reals Lra Lia ZArith Bool Ascii String List.
From Stdlib Require DecimalString DecimalNat.
Import ListNotations.

Open Scope string_scope.
Open Scope list_scope.
Open Scope R_scope.

(** ** Exceptions and results *)

Inductive exn : Type :=
| ValueError (msg : string)
| IndexError
| ZeroDivisionError
| DomainError.   (* numpy: nan with a RuntimeWarning; R has no nan *)

Inductive result (A : Type) : Type :=
| Ok (a : A)
| Raise (e : exn).

Arguments Ok {A} a.
Arguments Raise {A} e.

Definition bind {A B : Type} (m : result A) (k : A -> result B) : result B :=
  match m with
  | Ok a => k a
  | Raise e => Raise e
  end.

Notation "x <- m ;; k" := (bind m (fun x => k))
  (at level 61, m at next level, right associativity).

(** ** doa.py *)

Module Doa.

(** [C = 343], the speed of sound in m/s. *)
Definition C : R := 343.

(** [np.clip(x, lo, hi)] is [minimum(maximum(x, lo), hi)]. *)
Definition clip (x lo hi : R) : R := Rmin (Rmax x lo) hi.

(** [np.arccos]: defined on [[-1, 1]]. *)
Definition arccos (x : R) : result R :=
  if Rle_dec (-1) x then
    if Rle_dec x 1 then Ok (acos x) else Raise DomainError
  else Raise DomainError.

(** [np.degrees]. *)
Definition degrees (x : R) : R := x * (180 / PI).

(** [estimate_doa_from_tdoa(tdoa, d=0.1, c=C)].  The [if not (-1.0 <= val
    <= 1.0): pass] of the source has no effect.  A distance of zero makes
    the division raise on Python floats (numpy scalars would give inf or
    nan, which the model has no value for). *)
Definition estimate_doa_from_tdoa (tdoa d c : R) : result R :=
  if Req_dec_T d 0 then Raise ZeroDivisionError
  else
    let val := tdoa * c / d in
    let val := clip val (-1) 1 in
    theta_rad <- arccos val ;;
    Ok (degrees theta_rad).

(** The function called with its default sound speed. *)
Definition estimate_doa (tdoa d : R) : result R := estimate_doa_from_tdoa tdoa d C.

End Doa.

(** ** numpy and scipy routines used by tdoa.py *)

Module Np.

(** Sum of [f 0 .. f (n-1)]. *)
Fixpoint Rsum (n : nat) (f : nat -> R) : R :=
  match n with
  | O => 0
  | S k => Rsum k f + f k
  end.

(** [np.arange(a, b)] on integers. *)
Definition arange (a b : Z) : list Z :=
  map (fun i => (a + Z.of_nat i)%Z) (seq 0 (Z.to_nat (b - a))).

(** [np.argmax]: the first index holding the maximum; an empty array raises. *)
Fixpoint argmax_from (best : R) (besti i : nat) (l : list R) : nat :=
  match l with
  | [] => besti
  | x :: t =>
      if Rlt_dec best x then argmax_from x i (S i) t
      else argmax_from best besti (S i) t
  end.

Definition argmax (l : list R) : result nat :=
  match l with
  | [] => Raise (ValueError "attempt to get argmax of an empty sequence")
  | x :: t => Ok (argmax_from x 0 1 t)
  end.

(** [a[i]] for [i >= 0]. *)
Definition getitem {A : Type} (a : list A) (i : nat) : result A :=
  match nth_error a i with
  | Some x => Ok x
  | None => Raise IndexError
  end.

(** Complex numbers. *)
Record complex : Type := mkC { re : R; im : R }.

Definition Cmul (a b : complex) : complex :=
  mkC (re a * re b - im a * im b) (re a * im b + im a * re b).

(** [np.conj]. *)
Definition Cconj (a : complex) : complex := mkC (re a) (- im a).

(** [np.abs] of a complex number. *)
Definition Cabs (a : complex) : R := sqrt (re a * re a + im a * im a).

(** A complex number divided by a real one. *)
Definition Cdiv_real (a : complex) (r : R) : complex := mkC (re a / r) (im a / r).

(** The angle [2 pi j k / n]. *)
Definition angle (n j k : nat) : R := 2 * PI * INR j * INR k / INR n.

(** Coefficient [k] of the [n]-point transform of [x], cropped or padded with
    zeros to length [n]: [sum_j x_j exp(-2 pi i j k / n)]. *)
Definition dft_coeff (x : list R) (n k : nat) : complex :=
  mkC (Rsum n (fun j => nth j x 0 * cos (angle n j k)))
      (- Rsum n (fun j => nth j x 0 * sin (angle n j k))).

(** An integer as an f-string prints it. *)
Definition format_int (n : Z) : string :=
  DecimalString.NilZero.string_of_int (Z.to_int n).

(** The message of the [ValueError] that numpy raises for a transform
    length [n < 1]. *)
Definition fft_error_message (n : Z) : string :=
  ("Invalid number of FFT data points (" ++ format_int n ++ ") specified.")%string.

(** [np.fft.fft(x, n=n)]; numpy raises for [n < 1]. *)
Definition fft (x : list R) (n : Z) : result (list complex) :=
  if (n <? 1)%Z then Raise (ValueError (fft_error_message n))
  else Ok (map (dft_coeff x (Z.to_nat n)) (seq 0 (Z.to_nat n))).

(** Sample [m] of the inverse transform:
    [(1/n) sum_k X_k exp(2 pi i k m / n)]. *)
Definition idft_coeff (X : list complex) (n m : nat) : complex :=
  mkC (Rsum n (fun k => re (nth k X (mkC 0 0)) * cos (angle n k m)
                        - im (nth k X (mkC 0 0)) * sin (angle n k m)) / INR n)
      (Rsum n (fun k => re (nth k X (mkC 0 0)) * sin (angle n k m)
                        + im (nth k X (mkC 0 0)) * cos (angle n k m)) / INR n).

(** [np.fft.ifft(X)]. *)
Definition ifft (X : list complex) : result (list complex) :=
  match X with
  | [] => Raise (ValueError (fft_error_message 0))
  | _ => Ok (map (idft_coeff X (length X)) (seq 0 (length X)))
  end.

(** [np.fft.fftshift(x)] is [np.roll(x, n // 2)]: the last [n // 2] entries
    move to the front. *)
Definition fftshift {A : Type} (x : list A) : list A :=
  let n := length x in
  let shift := (n / 2)%nat in
  skipn (n - shift) x ++ firstn (n - shift) x.

(** Element-wise operation on two arrays of the same length. *)
Fixpoint map2 {A B D : Type} (f : A -> B -> D) (a : list A) (b : list B) : list D :=
  match a, b with
  | x :: a', y :: b' => f x y :: map2 f a' b'
  | _, _ => []
  end.

(** Sample [i] of [x], zero outside the array. *)
Definition sample (x : list R) (i : Z) : R :=
  if (i <? 0)%Z then 0 else nth (Z.to_nat i) x 0.

(** The cross-correlation of [x] and [y] at lag [k]:
    [sum_l x[l + k] * y[l]]. *)
Definition corr_lag (x y : list R) (k : Z) : R :=
  Rsum (length y) (fun l => sample x (Z.of_nat l + k) * nth l y 0).

(** [scipy.signal.correlation_lags(len1, len2, mode='full')]. *)
Definition correlation_lags (len1 len2 : nat) : list Z :=
  arange (- Z.of_nat len2 + 1) (Z.of_nat len1).

(** [scipy.signal.correlate(x, y, mode='full')] on real arrays: entry [i] is
    the correlation at lag [i - (len(y) - 1)].  On an empty input scipy
    raises a [ValueError] of its own; here an empty input gives an empty
    output and the caller raises the [ValueError] of [argmax], so the class
    of the exception is kept and its text is not. *)
Definition correlate (x y : list R) : list R :=
  match x, y with
  | [], _ | _, [] => []
  | _, _ => map (corr_lag x y) (correlation_lags (length x) (length y))
  end.

(** [str.lower] on ASCII text: [A-Z] go to [a-z], every other character is
    kept.  (On other characters Python's [lower] never yields one of the
    letters of [phat] or [scot].) *)
Definition lower_ascii (c : ascii) : ascii :=
  let n := nat_of_ascii c in
  if ((65 <=? n) && (n <=? 90))%nat then ascii_of_nat (n + 32) else c.

Fixpoint lower (s : string) : string :=
  match s with
  | EmptyString => EmptyString
  | String c t => String (lower_ascii c) (lower t)
  end.

End Np.

(** ** tdoa.py *)

Module Tdoa.
Import Np.

(** [estimate_tdoa_cc(sig1, sig2, fs)].  The sample rate is meant positive:
    for [fs = 0] numpy yields inf or nan, which the model has no value
    for. *)
Definition estimate_tdoa_cc (sig1 sig2 : list R) (fs : R) : result R :=
  let corr := correlate sig1 sig2 in
  let lags_samples := correlation_lags (length sig1) (length sig2) in
  let lags_seconds := map (fun l => IZR l / fs) lags_samples in
  i <- argmax corr ;;
  getitem lags_seconds i.

(** The stabilising constant [1e-10]. *)
Definition epsilon : R := / 10 ^ 10.

(** The message of the [ValueError] raised for an unknown method. *)
Definition gcc_error_message : string :=
  "Método GCC no reconocido. Use 'phat' o 'scot'.".

(** The [phat] branch: [R / (np.abs(R) + 1e-10)]. *)
Definition weight_phat (R : list complex) : list complex :=
  let R_abs := map Cabs R in
  map2 (fun r a => Cdiv_real r (a + epsilon)) R R_abs.

(** The [scot] branch: [R / (np.sqrt(P1 * P2) + 1e-10)] with
    [P = np.abs(SIG)**2]. *)
Definition weight_scot (SIG1 SIG2 R : list complex) : list complex :=
  let P1 := map (fun s => Cabs s ^ 2) SIG1 in
  let P2 := map (fun s => Cabs s ^ 2) SIG2 in
  let den := map2 (fun p1 p2 => sqrt (p1 * p2)) P1 P2 in
  map2 (fun r dn => Cdiv_real r (dn + epsilon)) R den.

(** The [if method.lower() == ... elif ... else raise] statement. *)
Definition gcc_weighting (method : string) (SIG1 SIG2 R : list complex)
  : result (list complex) :=
  if String.eqb (lower method) "phat" then Ok (weight_phat R)
  else if String.eqb (lower method) "scot" then Ok (weight_scot SIG1 SIG2 R)
  else Raise (ValueError gcc_error_message).

(** [estimate_tdoa_gcc(sig1, sig2, fs, method='phat')].  The array
    [lags_samples] that the source builds and never reads is left out. *)
Definition estimate_tdoa_gcc (sig1 sig2 : list R) (fs : R) (method : string)
  : result R :=
  let n := (Z.of_nat (length sig1) + Z.of_nat (length sig2) - 1)%Z in
  SIG1 <- fft sig1 n ;;
  SIG2 <- fft sig2 n ;;
  let R := map2 Cmul SIG1 (map Cconj SIG2) in
  R <- gcc_weighting method SIG1 SIG2 R ;;
  spectrum <- ifft R ;;
  let cc := fftshift (map re spectrum) in
  let lags_vector := map (fun i => IZR (i - n / 2) / fs) (arange 0 n) in
  tdoa_index <- argmax cc ;;
  getitem lags_vector tdoa_index.

End Tdoa.

(** ** Vocabulary of the specification *)

Module Spec.

(** [i] is the first index of [l] that holds the maximum of [l]. *)
Definition first_max (l : list R) (i : nat) : Prop :=
  (i < length l)%nat /\
  (forall j, (j < length l)%nat -> nth j l 0 <= nth i l 0) /\
  (forall j, (j < i)%nat -> nth j l 0 < nth i l 0).

(** A signal with at least one sample that is not zero. *)
Definition nonzero (s : list R) : Prop := Exists (fun x => x <> 0) s.

(** A copy of [s] delayed by [k] samples: [k] zeros, then [s]. *)
Definition delay (k : nat) (s : list R) : list R := repeat 0 k ++ s.

(** A delayed copy cut to the length of the signal. *)
Definition delay_cut (k : nat) (s : list R) : list R :=
  firstn (length s) (delay k s).

(** Degrees to radians. *)
Definition radians (x : R) : R := x * (PI / 180).

(** The far-field model: the TDOA of a source at angle [theta] (degrees) to
    the axis of a pair of microphones [d] apart, at sound speed [c]. *)
Definition tdoa_of_angle (theta d c : R) : R := d * cos (radians theta) / c.

(** The sum of [f 0 .. f (n-1)], folded over the indices. *)
Definition sum_over (n : nat) (f : nat -> R) : R :=
  fold_right Rplus 0 (map f (seq 0 n)).

(** Sample [i] of a signal, zero outside the signal. *)
Definition at_index (s : list R) (i : Z) : R :=
  if ((0 <=? i) && (i <? Z.of_nat (length s)))%Z then nth (Z.to_nat i) s 0
  else 0.

(** The linear cross-correlation at lag [k], the second signal slid by [k]
    samples relative to the first: [sum_m x[m] * y[m - k]]. *)
Definition cross_correlation (x y : list R) (k : Z) : R :=
  sum_over (length x) (fun m => nth m x 0 * at_index y (Z.of_nat m - k)).

(** Coefficient [k] of the transform at length [n] of a signal padded with
    zeros: [sum_j x[j] (cos(2 pi j k / n) - i sin(2 pi j k / n))]. *)
Definition transform (x : list R) (n k : nat) : Np.complex :=
  Np.mkC
    (sum_over n (fun j => nth j x 0 * cos (2 * PI * INR j * INR k / INR n)))
    (sum_over n (fun j => - (nth j x 0 * sin (2 * PI * INR j * INR k / INR n)))).

(** The cross-spectrum value [S1 * conj(S2)]. *)
Definition cross_spectrum (S1 S2 : Np.complex) : Np.complex :=
  Np.mkC (Np.re S1 * Np.re S2 + Np.im S1 * Np.im S2)
         (Np.im S1 * Np.re S2 - Np.re S1 * Np.im S2).

(** The magnitude [|z|] and the power [|z|^2] of a complex value. *)
Definition magnitude (z : Np.complex) : R := sqrt ((Np.re z)² + (Np.im z)²).

Definition power_of (z : Np.complex) : R := (Np.re z)² + (Np.im z)².

(** The stabilising constant of both weightings. *)
Definition stabiliser : R := 1 / 10000000000.

(** [phat]: [R / (|R| + 1e-10)] with [R] the cross-spectrum value. *)
Definition phat (S1 S2 : Np.complex) : Np.complex :=
  let w := magnitude (cross_spectrum S1 S2) + stabiliser in
  Np.mkC (Np.re (cross_spectrum S1 S2) / w) (Np.im (cross_spectrum S1 S2) / w).

(** [scot]: [R / (sqrt(|S1|^2 * |S2|^2) + 1e-10)]. *)
Definition scot (S1 S2 : Np.complex) : Np.complex :=
  let w := sqrt (power_of S1 * power_of S2) + stabiliser in
  Np.mkC (Np.re (cross_spectrum S1 S2) / w) (Np.im (cross_spectrum S1 S2) / w).

(** The real part of sample [m] of the inverse transform of [W] at length
    [n]: [(1/n) sum_k Re(W[k] (cos(2 pi k m / n) + i sin(2 pi k m / n)))]. *)
Definition inverse_real (W : list Np.complex) (n m : nat) : R :=
  sum_over n (fun k =>
    Np.re (nth k W (Np.mkC 0 0)) * cos (2 * PI * INR k * INR m / INR n)
    - Np.im (nth k W (Np.mkC 0 0)) * sin (2 * PI * INR k * INR m / INR n))
  / INR n.

(** The lag of the circular lag axis of [n] entries, from [-(n/2)] to
    [n - 1 - n/2], that equals [t] modulo [n]. *)
Definition circular_lag (n : nat) (t : Z) : Z :=
  ((t + Z.of_nat (n / 2)) mod Z.of_nat n - Z.of_nat (n / 2))%Z.

(** [needle] occurs in [hay]. *)
Fixpoint contains (needle hay : string) : bool :=
  prefix needle hay ||
  match hay with
  | EmptyString => false
  | String _ t => contains needle t
  end.

End Spec.

(** ** Vocabulary of the proofs: roots of unity and power spectra *)

Module Roots.
Import Np.

(** The angle [2 pi t k / n] for an integer [t]. *)
Definition zangle (n : nat) (t : Z) (k : nat) : R :=
  2 * PI * IZR t * INR k / INR n.

(** [sum_k cos(2 pi t k / n)] over [k < n]. *)
Definition Csum (n : nat) (t : Z) : R := Rsum n (fun k => cos (zangle n t k)).

(** The squared magnitude of coefficient [k] of the transform of [s]. *)
Definition power (s : list R) (n k : nat) : R :=
  re (dft_coeff s n k) * re (dft_coeff s n k)
  + im (dft_coeff s n k) * im (dft_coeff s n k).

(** The weight left of a real cross-spectrum value [p] by either method. *)
Definition whiten (p : R) : R := p / (p + Tdoa.epsilon).

(** An array of whitened powers, as both methods give on identical
    signals. *)
Definition whitened (s : list R) (n : nat) (W : list complex) : Prop :=
  length W = n /\
  forall k, (k < n)%nat ->
    re (nth k W (mkC 0 0)) = whiten (power s n k) /\ im (nth k W (mkC 0 0)) = 0.

(** The indicator of [b = c]. *)
Definition ind (b : nat) (c : Z) : R := if (Z.of_nat b =? c)%Z then 1 else 0.

(** An array of whitened powers turned by the phase of a lag [t], as both
    methods give on two delayed copies of a signal. *)
Definition whitened_shift (s : list R) (n : nat) (t : Z) (W : list complex)
  : Prop :=
  length W = n /\
  forall k, (k < n)%nat ->
    re (nth k W (mkC 0 0)) = whiten (power s n k) * cos (zangle n t k) /\
    im (nth k W (mkC 0 0)) = - (whiten (power s n k) * sin (zangle n t k)).

(** The whitened circular autocorrelation of [s] at lag [m], at transform
    length [n]. *)
Definition whitened_autocorr (s : list R) (n : nat) (m : Z) : R :=
  Rsum n (fun k => whiten (power s n k) * cos (zangle n m k)) / INR n.

End Roots.

(** ** Vocabulary of the further properties *)

Module More.

(** [l] has a single entry that holds its maximum. *)
Definition unique_max (l : list R) : Prop :=
  exists i, (i < length l)%nat /\
            forall j, (j < length l)%nat -> j <> i -> nth j l 0 < nth i l 0.

(** A signal with every sample multiplied by the gain [a]. *)
Definition gain (a : R) (s : list R) : list R := map (Rmult a) s.

(** The re-centred correlation [cc] that [estimate_tdoa_gcc] searches, for
    non-empty signals; empty when the method is unknown. *)
Definition gcc_correlation (sig1 sig2 : list R) (method : string) : list R :=
  let n := (length sig1 + length sig2 - 1)%nat in
  let SIG1 := map (Np.dft_coeff sig1 n) (seq 0 n) in
  let SIG2 := map (Np.dft_coeff sig2 n) (seq 0 n) in
  match Tdoa.gcc_weighting method SIG1 SIG2
          (Np.map2 Np.Cmul SIG1 (map Np.Cconj SIG2)) with
  | Ok W => Np.fftshift (map Np.re (map (Np.idft_coeff W n) (seq 0 n)))
  | Raise _ => []
  end.

(** [W'] holds the conjugates of the entries of [W]. *)
Definition conjugate_of (W W' : list Np.complex) : Prop :=
  length W' = length W /\
  forall k, (k < length W)%nat ->
    Np.re (nth k W' (Np.mkC 0 0)) = Np.re (nth k W (Np.mkC 0 0)) /\
    Np.im (nth k W' (Np.mkC 0 0)) = - Np.im (nth k W (Np.mkC 0 0)).

End More.

(** ** os.path and string formatting *)

Module OsPath.

(** [s.rfind(c)]: the index of the last [c] in [s], or [-1]. *)
Fixpoint rfind_from (c : ascii) (s : string) (i last : Z) : Z :=
  match s with
  | EmptyString => last
  | String ch t => rfind_from c t (i + 1) (if Ascii.eqb ch c then i else last)
  end.

Definition rfind (c : ascii) (s : string) : Z := rfind_from c s 0 (-1).

(** No character of [s] differs from the dot. *)
Fixpoint all_dots (s : string) : bool :=
  match s with
  | EmptyString => true
  | String ch t => Ascii.eqb ch "." && all_dots t
  end.

(** [os.path.splitext] of posixpath: the extension starts at the last dot
    of the last component, unless that component holds nothing but dots
    before it. *)
Definition splitext (p : string) : string * string :=
  let sepIndex := rfind "/" p in
  let dotIndex := rfind "." p in
  if (sepIndex <? dotIndex)%Z then
    let filenameIndex := (sepIndex + 1)%Z in
    if all_dots (substring (Z.to_nat filenameIndex)
                           (Z.to_nat (dotIndex - filenameIndex)) p)
    then (p, EmptyString)
    else (substring 0 (Z.to_nat dotIndex) p,
          substring (Z.to_nat dotIndex) (String.length p - Z.to_nat dotIndex) p)
  else (p, EmptyString).

(** [str(idx)] for an index [idx >= 0], as an f-string prints it. *)
Definition str (idx : nat) : string :=
  DecimalString.NilEmpty.string_of_uint (Nat.to_uint idx).

End OsPath.

(** ** main.py

    [soundfile] and the file system are the environment: a path holds no
    file, a file that [sf.read] reads, or one on which it raises.  What the
    functions print is not modelled, but for the values that
    [process_configuration] reports for each pair. *)

Module Main.
Import Np Tdoa OsPath.

(** What [sf.read] gives: a one-dimensional array for a mono file, frames
    of one channel or more otherwise. *)
Inductive audio : Type :=
| Mono (samples : list R)
| Multi (frames : list (R * list R)).

Inductive file : Type :=
| Wav (data : audio) (samplerate : Z)
| Unreadable.

Definition filesystem : Type := string -> option file.

(** [f"{base_name_no_ext}_micidx_{idx}.wav"]. *)
Definition rir_filename (base_name_no_ext : string) (idx : nat) : string :=
  (base_name_no_ext ++ "_micidx_" ++ str idx ++ ".wav")%string.

(** One turn of the loop of [load_rirs] on the state [(rirs, fs_rir)]. *)
Definition load_step (fsys : filesystem) (base_name_no_ext : string)
  (state : list audio * Z) (idx : nat) : list audio * Z :=
  let '(rirs, fs_rir) := state in
  match fsys (rir_filename base_name_no_ext idx) with
  | Some (Wav rir_signal current_fs) =>
      (rirs ++ [rir_signal], if (fs_rir =? -1)%Z then current_fs else fs_rir)
  | Some Unreadable => (rirs, fs_rir)
  | None => (rirs, fs_rir)
  end.

(** [load_rirs(base_filepath_template, num_mics)]. *)
Definition load_rirs (fsys : filesystem) (base_filepath_template : string)
  (num_mics : nat) : list audio * Z :=
  let base_name_no_ext := fst (splitext base_filepath_template) in
  let '(rirs, fs_rir) :=
    fold_left (load_step fsys base_name_no_ext) (seq 0 num_mics) ([], (-1)%Z) in
  match rirs with
  | [] => ([], (-1)%Z)
  | _ => (rirs, fs_rir)
  end.

(** [sig[:, 0]] when [sig.ndim > 1], [sig] otherwise. *)
Definition first_channel (a : audio) : list R :=
  match a with
  | Mono samples => samples
  | Multi frames => map fst frames
  end.

(** The values printed for a pair of microphones. *)
Record report : Type := mkReport {
  pair_index : nat;
  tdoa_cc : R; tdoa_phat : R; tdoa_scot : R;
  doa_cc : R; doa_phat : R; doa_scot : R
}.

(** The body of the loop of [process_configuration] for the pair
    [(i, i + 1)]. *)
Definition process_pair (rirs : list audio) (fs : Z) (mic_distance : R)
  (i : nat) : result report :=
  sig1 <- getitem rirs i ;;
  let sig1 := first_channel sig1 in
  sig2 <- getitem rirs (i + 1) ;;
  let sig2 := first_channel sig2 in
  tdoa_cc_val <- estimate_tdoa_cc sig1 sig2 (IZR fs) ;;
  tdoa_phat_val <- estimate_tdoa_gcc sig1 sig2 (IZR fs) "phat" ;;
  tdoa_scot_val <- estimate_tdoa_gcc sig1 sig2 (IZR fs) "scot" ;;
  doa_cc_val <- Doa.estimate_doa tdoa_cc_val mic_distance ;;
  doa_phat_val <- Doa.estimate_doa tdoa_phat_val mic_distance ;;
  doa_scot_val <- Doa.estimate_doa tdoa_scot_val mic_distance ;;
  Ok (mkReport i tdoa_cc_val tdoa_phat_val tdoa_scot_val
               doa_cc_val doa_phat_val doa_scot_val).

(** The loop: the reports printed, and the exception that stopped it if
    one did. *)
Fixpoint process_pairs (rirs : list audio) (fs : Z) (mic_distance : R)
  (indices : list nat) : list report * option exn :=
  match indices with
  | [] => ([], None)
  | i :: rest =>
      match process_pair rirs fs mic_distance i with
      | Raise e => ([], Some e)
      | Ok r =>
          let '(reports, e) := process_pairs rirs fs mic_distance rest in
          (r :: reports, e)
      end
  end.

(** [process_configuration(base_filepath_template, num_mics_in_config,
    mic_distance)].  The distance is meant non-zero. *)
Definition process_configuration (fsys : filesystem)
  (base_filepath_template : string) (num_mics_in_config : nat)
  (mic_distance : R) : list report * option exn :=
  let '(rirs, fs) := load_rirs fsys base_filepath_template num_mics_in_config in
  if (match rirs with [] => true | _ => false end) || (fs =? -1)%Z
  then ([], None)
  else if (length rirs <? 2)%nat then ([], None)
  else process_pairs rirs fs mic_distance (seq 0 (length rirs - 1)).

End Main.

(** ** simulation.py

    The room simulation of [pyroomacoustics] and the writing of
    [soundfile] are the environment.  A [simulator] stands for the lines
    from [pra.inverse_sabine] to [room.compute_rir()]: it gives [room.rir],
    or nothing when one of them raises.  Every exception is caught by the
    function, which then returns its count; which exception it was only
    changes what is printed.  A write that raises is taken to leave no
    file behind. *)

Module Simulation.
Import Np OsPath Main.

(** [margin = 0.01]. *)
Definition margin : R := 1 / 100.

(** [margin <= pos[i] < room_dim[i] - margin]; the right-hand side is
    only evaluated when the left comparison holds. *)
Definition inside (pos room_dim : list R) (i : nat) : result bool :=
  p <- getitem pos i ;;
  if Rle_dec margin p then
    r <- getitem room_dim i ;;
    Ok (if Rlt_dec p (r - margin) then true else false)
  else Ok false.

(** The loop over the axes, left at the first coordinate that fails. *)
Fixpoint all_inside (pos room_dim : list R) (axes : list nat) : result bool :=
  match axes with
  | [] => Ok true
  | i :: rest =>
      ok <- inside pos room_dim i ;;
      if ok then all_inside pos room_dim rest else Ok false
  end.

(** [np.array(a) - np.array(b)] with numpy's broadcasting of
    one-dimensional arrays. *)
Definition subtract (a b : list R) : result (list R) :=
  if (length a =? length b)%nat then Ok (map2 Rminus a b)
  else match a, b with
       | [x], _ => Ok (map (fun y => x - y) b)
       | _, [y] => Ok (map (fun x => x - y) a)
       | _, _ => Raise (ValueError "operands could not be broadcast together")
       end.

(** [np.linalg.norm] of a one-dimensional array. *)
Definition norm (v : list R) : R :=
  sqrt (fold_right (fun x acc => x * x + acc) 0 v).

(** The loop over [enumerate(mic_positions)]: the microphones kept, each
    with its original index. *)
Fixpoint validate_mics (source_pos room_dim : list R)
  (mics : list (nat * list R)) : result (list (nat * list R)) :=
  match mics with
  | [] => Ok []
  | (idx, mic_coord) :: rest =>
      valid_for_dim <- all_inside mic_coord room_dim [0; 1; 2]%nat ;;
      if valid_for_dim then
        diff <- subtract source_pos mic_coord ;;
        if Rlt_dec (norm diff) (1 / 10) then
          validate_mics source_pos room_dim rest
        else
          kept <- validate_mics source_pos room_dim rest ;;
          Ok ((idx, mic_coord) :: kept)
      else validate_mics source_pos room_dim rest
  end.

(** [room.rir] for a target RT60, a room, a source, microphones and a
    sample rate, when the simulation does not raise. *)
Definition simulator : Type :=
  R -> list R -> list R -> list (list R) -> Z -> option (list (list (list R))).

(** [soundfile] as the writer sees it: whether writing to a path works, and
    what the file then holds for a reader. *)
Record soundfile : Type := mkSoundfile {
  write_ok : string -> bool;
  stored : list R -> Z -> file
}.

(** [sf.write(name, signal, fs)]: nothing when it raises. *)
Definition sf_write (sf : soundfile) (fsys : filesystem) (name : string)
  (signal : list R) (fs : Z) : option filesystem :=
  if write_ok sf name
  then Some (fun n => if String.eqb n name then Some (stored sf signal fs)
                      else fsys n)
  else None.

(** [f"{path_parts[0]}_micidx_{original_mic_idx}{path_parts[1]}"]. *)
Definition output_filename_mic (base_output_filename : string)
  (original_mic_idx : nat) : string :=
  let path_parts := splitext base_output_filename in
  (fst path_parts ++ "_micidx_" ++ str original_mic_idx ++ snd path_parts)%string.

(** The loop that saves the responses; [todo] pairs the index of a
    microphone in the simulation with its original index. *)
Fixpoint write_rirs (sf : soundfile) (base_output_filename : string) (fs : Z)
  (room_rir : list (list (list R))) (todo : list (nat * nat))
  (files_created_count : nat) (fsys : filesystem) : nat * filesystem :=
  match todo with
  | [] => (files_created_count, fsys)
  | (pyroom_mic_idx, original_mic_idx) :: rest =>
      match nth_error room_rir pyroom_mic_idx with
      | None => (files_created_count, fsys)
      | Some per_source =>
          match nth_error per_source 0 with
          | None => (files_created_count, fsys)
          | Some rir_signal =>
              match sf_write sf fsys
                      (output_filename_mic base_output_filename original_mic_idx)
                      rir_signal fs with
              | None => (files_created_count, fsys)
              | Some fsys' =>
                  write_rirs sf base_output_filename fs room_rir rest
                             (files_created_count + 1) fsys'
              end
          end
      end
  end.

(** [create_rir_example(base_output_filename, rt60_tgt, room_dim,
    source_pos, mic_positions, fs)]: the count returned and the file
    system left. *)
Definition create_rir_example (sim : simulator) (sf : soundfile)
  (fsys : filesystem) (base_output_filename : string) (rt60_tgt : R)
  (room_dim source_pos : list R) (mic_positions : list (list R)) (fs : Z)
  : nat * filesystem :=
  match all_inside source_pos room_dim [0; 1; 2]%nat with
  | Raise _ => (0%nat, fsys)
  | Ok false => (0%nat, fsys)
  | Ok true =>
      match validate_mics source_pos room_dim
              (combine (seq 0 (length mic_positions)) mic_positions) with
      | Raise _ => (0%nat, fsys)
      | Ok [] => (0%nat, fsys)
      | Ok kept =>
          match sim rt60_tgt room_dim source_pos (map snd kept) fs with
          | None => (0%nat, fsys)
          | Some room_rir =>
              write_rirs sf base_output_filename fs room_rir
                         (combine (seq 0 (length kept)) (map fst kept)) 0 fsys
          end
      end
  end.

End Simulation.

(** ** Vocabulary of the properties of main.py and simulation.py *)

Module Files.
Import Np OsPath Main Simulation.

(** What the file of microphone [idx] contributes to a load: its signal
    and sample rate when it is there and readable. *)
Definition loaded (fsys : filesystem) (base_name_no_ext : string) (idx : nat)
  : list (audio * Z) :=
  match fsys (rir_filename base_name_no_ext idx) with
  | Some (Wav a r) => [(a, r)]
  | _ => []
  end.

(** The readable files of the microphones [0 .. n-1], in that order. *)
Definition readable_files (fsys : filesystem) (template : string) (n : nat)
  : list (audio * Z) :=
  flat_map (loaded fsys (fst (splitext template))) (seq 0 n).

(** Number of frames of a signal. *)
Definition frames_of (a : audio) : nat := length (first_channel a).

(** A DOA between 0 and 180 degrees. *)
Definition angle_ok (a : R) : Prop := 0 <= a <= 180.

(** The angles of a report are in range. *)
Definition angles_ok_of (r : report) : Prop :=
  angle_ok (doa_cc r) /\ angle_ok (doa_phat r) /\ angle_ok (doa_scot r).

(** A report of a pair that saw the same signal twice. *)
Definition coincident (r : Main.report) : Prop :=
  Main.tdoa_cc r = 0 /\ Main.tdoa_phat r = 0 /\ Main.tdoa_scot r = 0 /\
  Main.doa_cc r = 90 /\ Main.doa_phat r = 90 /\ Main.doa_scot r = 90.

(** [room.rir[j][0]], when it is there. *)
Definition rir_at (room_rir : list (list (list R))) (j : nat) : option (list R) :=
  match nth_error room_rir j with
  | Some per_source => nth_error per_source 0
  | None => None
  end.

(** A position with its three coordinates at least [margin] inside the
    room ([margin] itself allowed on the low side only). *)
Definition in_roomb (pos room_dim : list R) : bool :=
  forallb (fun i => if Rle_dec margin (nth i pos 0)
                    then if Rlt_dec (nth i pos 0) (nth i room_dim 0 - margin)
                         then true else false
                    else false)
          [0; 1; 2]%nat.

(** A microphone that the simulation keeps: inside the room and at least
    0.1 m from the source. *)
Definition valid_micb (source_pos room_dim mic : list R) : bool :=
  in_roomb mic room_dim &&
  (if Rlt_dec (norm (map2 Rminus source_pos mic)) (1 / 10) then false else true).

(** The original indices of the microphones kept. *)
Definition valid_indices (source_pos room_dim : list R)
  (mic_positions : list (list R)) : list nat :=
  map fst (filter (fun im => valid_micb source_pos room_dim (snd im))
                  (combine (seq 0 (length mic_positions)) mic_positions)).

(** The positions of the microphones kept, as handed to the simulation. *)
Definition valid_positions (source_pos room_dim : list R)
  (mic_positions : list (list R)) : list (list R) :=
  map snd (filter (fun im => valid_micb source_pos room_dim (snd im))
                  (combine (seq 0 (length mic_positions)) mic_positions)).

(** A list of indices that grows strictly, from [lo] on. *)
Fixpoint increasing_from (lo : nat) (l : list nat) : Prop :=
  match l with
  | [] => True
  | x :: t => (lo <= x)%nat /\ increasing_from (S x) t
  end.

(** The file that the loader finds for microphone [idx], a mono file of no
    sample when there is none. *)
Definition file_at (fsys : filesystem) (base_name_no_ext : string) (idx : nat)
  : audio * Z :=
  match fsys (rir_filename base_name_no_ext idx) with
  | Some (Wav a r) => (a, r)
  | _ => (Mono [], 0%Z)
  end.

End Files.

(** ** File systems used as examples *)

Module Example.
Import Main.

(** Two readable files with different sample rates. *)
Definition two_rates : filesystem :=
  fun name =>
    if String.eqb name "d/r_micidx_0.wav" then Some (Wav (Mono [1; 2]) 44100)
    else if String.eqb name "d/r_micidx_1.wav" then Some (Wav (Mono [2; 1]) 48000)
    else None.

(** No file at all. *)
Definition empty : filesystem := fun _ => None.

(** Two files that hold the same signal. *)
Definition same_signal : filesystem :=
  fun name =>
    if String.eqb name "d/r_micidx_0.wav" then Some (Wav (Mono [1; 2]) 44100)
    else if String.eqb name "d/r_micidx_1.wav" then Some (Wav (Mono [1; 2]) 44100)
    else None.

(** A simulation that answers every microphone with the same response. *)
Definition unit_room : Simulation.simulator :=
  fun _ _ _ mics _ => Some (map (fun _ => [[1; 0]]) mics).

(** A writer that always works and stores what it is given. *)
Definition exact_writer : Simulation.soundfile :=
  Simulation.mkSoundfile (fun _ => true) (fun signal fs => Wav (Mono signal) fs).

End Example.

(** * Properties of doa.py *)

Section DoaFacts.
Import Doa.

Lemma clip_range x : -1 <= clip x (-1) 1 <= 1.
Proof.
  unfold clip, Rmin, Rmax.
  destruct (Rle_dec x (-1)); destruct (Rle_dec _ 1); lra.
Qed.

Lemma clip_above x : 1 < x -> clip x (-1) 1 = 1.
Proof.
  intros H. unfold clip, Rmin, Rmax.
  destruct (Rle_dec x (-1)); destruct (Rle_dec _ 1); lra.
Qed.

Lemma clip_below x : x < -1 -> clip x (-1) 1 = -1.
Proof.
  intros H. unfold clip, Rmin, Rmax.
  destruct (Rle_dec x (-1)); destruct (Rle_dec _ 1); lra.
Qed.

Lemma clip_inside x : -1 <= x <= 1 -> clip x (-1) 1 = x.
Proof.
  intros H. unfold clip, Rmin, Rmax.
  destruct (Rle_dec x (-1)); destruct (Rle_dec _ 1); lra.
Qed.

Lemma arccos_defined x : -1 <= x <= 1 -> arccos x = Ok (acos x).
Proof.
  intros [H1 H2]. unfold arccos.
  destruct (Rle_dec (-1) x); [destruct (Rle_dec x 1)|]; try reflexivity; lra.
Qed.

Lemma degrees_PI : degrees PI = 180.
Proof. unfold degrees. field. apply PI_neq0. Qed.

Lemma degrees_half_PI : degrees (PI / 2) = 90.
Proof. unfold degrees. field. apply PI_neq0. Qed.

Lemma acos_minus_1 : acos (-1) = PI.
Proof.
  rewrite <- cos_PI. apply acos_cos. pose proof PI_RGT_0. lra.
Qed.

(** What the function computes when the distance is not zero. *)
Lemma estimate_doa_from_tdoa_eq tdoa d c :
  d <> 0 ->
  estimate_doa_from_tdoa tdoa d c
  = Ok (degrees (acos (clip (tdoa * c / d) (-1) 1))).
Proof.
  intros Hd. unfold estimate_doa_from_tdoa.
  destruct (Req_dec_T d 0) as [E|_]; [contradiction|].
  cbv zeta. rewrite arccos_defined by apply clip_range. reflexivity.
Qed.

End DoaFacts.

Section DoaClaims.
Import Doa Spec.

(** C6: with a positive distance and a positive sound speed, a ratio
    [tdoa * c / d] above 1 is clamped to 1 and the function returns exactly 0
    degrees; a ratio below -1 is clamped to -1 and it returns exactly 180
    degrees.  With the default sound speed the ratio is [tdoa * 343 / d]. *)
Theorem doa_clamped_boundaries (tdoa d c : R) :
  0 < d -> 0 < c ->
  (1 < tdoa * c / d -> estimate_doa_from_tdoa tdoa d c = Ok 0) /\
  (tdoa * c / d < -1 -> estimate_doa_from_tdoa tdoa d c = Ok 180) /\
  (1 < tdoa * 343 / d -> estimate_doa tdoa d = Ok 0) /\
  (tdoa * 343 / d < -1 -> estimate_doa tdoa d = Ok 180).
Proof.
  intros Hd Hc.
  assert (Hhi : forall c', 1 < tdoa * c' / d ->
                           estimate_doa_from_tdoa tdoa d c' = Ok 0).
  { intros c' H. rewrite estimate_doa_from_tdoa_eq by lra.
    rewrite clip_above by exact H. rewrite acos_1.
    unfold degrees. f_equal. lra. }
  assert (Hlo : forall c', tdoa * c' / d < -1 ->
                           estimate_doa_from_tdoa tdoa d c' = Ok 180).
  { intros c' H. rewrite estimate_doa_from_tdoa_eq by lra.
    rewrite clip_below by exact H. rewrite acos_minus_1, degrees_PI.
    reflexivity. }
  repeat split; intros H.
  - apply Hhi, H.
  - apply Hlo, H.
  - apply Hhi, H.
  - apply Hlo, H.
Qed.

Lemma doa_clamped_boundaries_witness :
  0 < 1 /\ 0 < 343 /\
  ((1 < 1 * 343 / 1 -> estimate_doa_from_tdoa 1 1 343 = Ok 0) /\
   (1 * 343 / 1 < -1 -> estimate_doa_from_tdoa 1 1 343 = Ok 180) /\
   (1 < 1 * 343 / 1 -> estimate_doa 1 1 = Ok 0) /\
   (1 * 343 / 1 < -1 -> estimate_doa 1 1 = Ok 180)).
Proof.
  split; [lra | split; [lra | apply (doa_clamped_boundaries 1 1 343); lra]].
Defined.

(** C7: with a positive distance and a positive sound speed the function
    always returns an angle: the argument handed to arccos is the clamped
    ratio, which lies in [-1, 1], and the angle lies in [0, 180]. *)
Theorem doa_total_and_bounded (tdoa d c : R) :
  0 < d -> 0 < c ->
  exists theta,
    estimate_doa_from_tdoa tdoa d c = Ok theta /\
    0 <= theta <= 180 /\
    -1 <= clip (tdoa * c / d) (-1) 1 <= 1 /\
    arccos (clip (tdoa * c / d) (-1) 1) = Ok (acos (clip (tdoa * c / d) (-1) 1)) /\
    theta = degrees (acos (clip (tdoa * c / d) (-1) 1)).
Proof.
  intros Hd Hc.
  exists (degrees (acos (clip (tdoa * c / d) (-1) 1))).
  split; [apply estimate_doa_from_tdoa_eq; lra|].
  split.
  - pose proof (acos_bound (clip (tdoa * c / d) (-1) 1)) as [Ha Hb].
    pose proof PI_RGT_0 as Hpi. unfold degrees. split.
    + apply Rmult_le_pos; [exact Ha|].
      apply Rlt_le, Rdiv_lt_0_compat; lra.
    + replace 180 with (PI * (180 / PI)) at 2 by (field; lra).
      apply Rmult_le_compat_r; [|exact Hb].
      apply Rlt_le, Rdiv_lt_0_compat; lra.
  - split; [apply clip_range|].
    split; [apply arccos_defined, clip_range | reflexivity].
Qed.

Lemma doa_total_and_bounded_witness :
  0 < 1 /\ 0 < 343 /\
  exists theta,
    estimate_doa_from_tdoa 5 1 343 = Ok theta /\
    0 <= theta <= 180 /\
    -1 <= clip (5 * 343 / 1) (-1) 1 <= 1 /\
    arccos (clip (5 * 343 / 1) (-1) 1) = Ok (acos (clip (5 * 343 / 1) (-1) 1)) /\
    theta = degrees (acos (clip (5 * 343 / 1) (-1) 1)).
Proof.
  split; [lra | split; [lra | apply (doa_total_and_bounded 5 1 343); lra]].
Defined.

(** C8: for every positive distance, a TDOA of zero gives exactly 90
    degrees, whatever the positive sound speed and so with the default one. *)
Theorem doa_zero_tdoa_broadside (d c : R) :
  0 < d -> 0 < c ->
  estimate_doa_from_tdoa 0 d c = Ok 90 /\ estimate_doa 0 d = Ok 90.
Proof.
  intros Hd Hc.
  assert (H : forall c', estimate_doa_from_tdoa 0 d c' = Ok 90).
  { intros c'. rewrite estimate_doa_from_tdoa_eq by lra.
    replace (0 * c' / d) with 0 by (field; lra).
    rewrite clip_inside by lra. rewrite acos_0, degrees_half_PI. reflexivity. }
  split; apply H.
Qed.

Lemma doa_zero_tdoa_broadside_witness :
  0 < 1 / 10 /\ 0 < 343 /\
  estimate_doa_from_tdoa 0 (1 / 10) 343 = Ok 90 /\ estimate_doa 0 (1 / 10) = Ok 90.
Proof.
  split; [lra | split; [lra | apply (doa_zero_tdoa_broadside (1 / 10) 343); lra]].
Defined.

(** C9: for an angle [theta] in [0, 180] degrees, a positive distance and a
    positive sound speed, the TDOA of the far-field model fed back through
    the function gives [theta] again; over the reals the recovery is exact,
    so it is within every tolerance. *)
Theorem doa_round_trip (theta d c : R) :
  0 <= theta <= 180 -> 0 < d -> 0 < c ->
  estimate_doa_from_tdoa (tdoa_of_angle theta d c) d c = Ok theta /\
  forall tol, 0 <= tol ->
    exists theta', estimate_doa_from_tdoa (tdoa_of_angle theta d c) d c = Ok theta' /\
                   Rabs (theta' - theta) <= tol.
Proof.
  intros Ht Hd Hc.
  assert (E : estimate_doa_from_tdoa (tdoa_of_angle theta d c) d c = Ok theta).
  { rewrite estimate_doa_from_tdoa_eq by lra.
    unfold tdoa_of_angle.
    replace (d * cos (radians theta) / c * c / d) with (cos (radians theta))
      by (field; lra).
    rewrite clip_inside by apply COS_bound.
    pose proof PI_RGT_0 as Hpi.
    rewrite acos_cos.
    - unfold degrees, radians. f_equal. field. lra.
    - unfold radians. split.
      + apply Rmult_le_pos; [lra|]. apply Rlt_le, Rdiv_lt_0_compat; lra.
      + replace PI with (180 * (PI / 180)) at 2 by (field; lra).
        apply Rmult_le_compat_r; [|lra].
        apply Rlt_le, Rdiv_lt_0_compat; lra. }
  split; [exact E|].
  intros tol Htol. exists theta. split; [exact E|].
  replace (theta - theta) with 0 by lra. rewrite Rabs_R0. exact Htol.
Qed.

Lemma doa_round_trip_witness :
  0 <= 60 <= 180 /\ 0 < 1 / 10 /\ 0 < 343 /\
  estimate_doa_from_tdoa (tdoa_of_angle 60 (1 / 10) 343) (1 / 10) 343 = Ok 60 /\
  forall tol, 0 <= tol ->
    exists theta', estimate_doa_from_tdoa (tdoa_of_angle 60 (1 / 10) 343) (1 / 10) 343 = Ok theta' /\
                   Rabs (theta' - 60) <= tol.
Proof.
  split; [lra | split; [lra | split; [lra |
    apply (doa_round_trip 60 (1 / 10) 343); lra]]].
Defined.

End DoaClaims.

(** * Properties of the array routines *)

Section ArrayFacts.
Import Np Spec.

Lemma arange_length a b : length (arange a b) = Z.to_nat (b - a).
Proof. unfold arange. rewrite length_map, length_seq. reflexivity. Qed.

Lemma arange_nth a b i d :
  (i < Z.to_nat (b - a))%nat -> nth i (arange a b) d = (a + Z.of_nat i)%Z.
Proof.
  intros H. unfold arange.
  rewrite nth_indep with (d' := (a + Z.of_nat 0)%Z)
    by (rewrite length_map, length_seq; exact H).
  rewrite (map_nth (fun i => (a + Z.of_nat i)%Z)).
  rewrite seq_nth by exact H. reflexivity.
Qed.

Lemma first_max_unique l i j : first_max l i -> first_max l j -> i = j.
Proof.
  intros (Hi & Hmi & Hfi) (Hj & Hmj & Hfj).
  destruct (Nat.lt_trichotomy i j) as [H|[H|H]]; [|exact H|].
  - specialize (Hfj i H). specialize (Hmi j Hj). lra.
  - specialize (Hfi j H). specialize (Hmj i Hi). lra.
Qed.

(** The scan of [argmax] keeps the first maximum of what it has read. *)
Lemma argmax_from_first_max l : forall p bi best i,
  first_max p bi -> best = nth bi p 0 -> i = length p ->
  first_max (p ++ l) (argmax_from best bi i l).
Proof.
  induction l as [|x t IH]; intros p bi best i Hp -> ->.
  - simpl. rewrite app_nil_r. exact Hp.
  - simpl. destruct Hp as (Hbi & Hmax & Hfirst).
    replace (p ++ x :: t) with ((p ++ [x]) ++ t)
      by (rewrite <- app_assoc; reflexivity).
    assert (Hlast : nth (length p) (p ++ [x]) 0 = x)
      by (rewrite app_nth2, Nat.sub_diag by lia; reflexivity).
    assert (Hlen : length (p ++ [x]) = S (length p))
      by (rewrite length_app; simpl; lia).
    destruct (Rlt_dec (nth bi p 0) x) as [Hlt|Hge].
    + apply IH; [|symmetry; exact Hlast|symmetry; exact Hlen].
      repeat split.
      * lia.
      * intros j Hj. rewrite Hlast.
        destruct (Nat.eq_dec j (length p)) as [->|Hne].
        -- rewrite Hlast. lra.
        -- rewrite app_nth1 by lia. specialize (Hmax j ltac:(lia)). lra.
      * intros j Hj. rewrite Hlast.
        rewrite app_nth1 by lia. specialize (Hmax j ltac:(lia)). lra.
    + apply IH; [|symmetry; apply app_nth1; exact Hbi|symmetry; exact Hlen].
      repeat split.
      * lia.
      * intros j Hj.
        rewrite (app_nth1 p [x]) with (n := bi) by exact Hbi.
        destruct (Nat.eq_dec j (length p)) as [->|Hne].
        -- rewrite Hlast. lra.
        -- rewrite app_nth1 by lia. apply Hmax. lia.
      * intros j Hj.
        rewrite !app_nth1 by lia. apply Hfirst, Hj.
Qed.

Lemma argmax_first_max l i : argmax l = Ok i -> first_max l i.
Proof.
  destruct l as [|x t]; simpl; [discriminate|].
  intros H. injection H as <-.
  change (x :: t) with ([x] ++ t).
  apply argmax_from_first_max; try reflexivity.
  repeat split; simpl; try lia.
  intros j Hj. destruct j as [|j]; [lra | lia].
Qed.

Lemma argmax_defined l : l <> [] -> exists i, argmax l = Ok i /\ first_max l i.
Proof.
  intros Hl. destruct l as [|x t]; [contradiction|].
  eexists. split; [reflexivity|]. apply argmax_first_max. reflexivity.
Qed.

Lemma first_max_argmax l i : first_max l i -> argmax l = Ok i.
Proof.
  intros H. destruct (argmax_defined l) as (j & Hj & Hfm).
  - intros ->. destruct H as (H & _). simpl in H. lia.
  - rewrite Hj. f_equal. eapply first_max_unique; eassumption.
Qed.

Lemma getitem_nth {A : Type} (a : list A) (i : nat) (d : A) :
  (i < length a)%nat -> getitem a i = Ok (nth i a d).
Proof.
  intros H. unfold getitem.
  rewrite (nth_error_nth' a d H). reflexivity.
Qed.

Lemma correlation_lags_length len1 len2 :
  (0 < len2)%nat ->
  length (correlation_lags len1 len2) = (len1 + len2 - 1)%nat.
Proof. intros H. unfold correlation_lags. rewrite arange_length. lia. Qed.

Lemma correlation_lags_nth len1 len2 i :
  (i < len1 + len2 - 1)%nat ->
  nth i (correlation_lags len1 len2) 0%Z
  = (Z.of_nat i - (Z.of_nat len2 - 1))%Z.
Proof.
  intros H. unfold correlation_lags. rewrite arange_nth by lia. lia.
Qed.

Lemma correlate_eq x y :
  x <> [] -> y <> [] ->
  correlate x y = map (corr_lag x y) (correlation_lags (length x) (length y)).
Proof. destruct x, y; intros; try contradiction; reflexivity. Qed.

Lemma length_pos_of_ne {A : Type} (l : list A) : l <> [] -> (0 < length l)%nat.
Proof. destruct l; [contradiction | simpl; lia]. Qed.

Lemma correlate_length x y :
  x <> [] -> y <> [] -> length (correlate x y) = (length x + length y - 1)%nat.
Proof.
  intros Hx Hy. rewrite correlate_eq by assumption.
  rewrite length_map. apply correlation_lags_length, length_pos_of_ne, Hy.
Qed.

Lemma correlate_nth x y i :
  x <> [] -> y <> [] -> (i < length x + length y - 1)%nat ->
  nth i (correlate x y) 0
  = corr_lag x y (Z.of_nat i - (Z.of_nat (length y) - 1)).
Proof.
  intros Hx Hy Hi. rewrite correlate_eq by assumption.
  pose proof (length_pos_of_ne _ Hy) as Hly.
  rewrite nth_indep with (d' := corr_lag x y 0%Z)
    by (rewrite length_map, correlation_lags_length by lia; exact Hi).
  rewrite (map_nth (corr_lag x y)).
  rewrite correlation_lags_nth by exact Hi. reflexivity.
Qed.

End ArrayFacts.

(** * Finite sums *)

Section SumFacts.
Import Np Spec.

Lemma Rsum_ext n f g :
  (forall i, (i < n)%nat -> f i = g i) -> Rsum n f = Rsum n g.
Proof.
  induction n as [|n IH]; intros H; simpl; [reflexivity|].
  rewrite IH by (intros; apply H; lia). rewrite H by lia. reflexivity.
Qed.

Lemma Rsum_zero n f : (forall i, (i < n)%nat -> f i = 0) -> Rsum n f = 0.
Proof.
  induction n as [|n IH]; intros H; simpl; [reflexivity|].
  rewrite IH by (intros; apply H; lia). rewrite H by lia. lra.
Qed.

Lemma Rsum_le n f g :
  (forall i, (i < n)%nat -> f i <= g i) -> Rsum n f <= Rsum n g.
Proof.
  induction n as [|n IH]; intros H; simpl; [lra|].
  specialize (IH ltac:(intros; apply H; lia)). specialize (H n ltac:(lia)). lra.
Qed.

Lemma Rsum_nonneg n f : (forall i, (i < n)%nat -> 0 <= f i) -> 0 <= Rsum n f.
Proof.
  induction n as [|n IH]; intros H; simpl; [lra|].
  specialize (IH ltac:(intros; apply H; lia)). specialize (H n ltac:(lia)). lra.
Qed.

Lemma Rsum_lt n f g :
  (forall i, (i < n)%nat -> f i <= g i) ->
  (exists i, (i < n)%nat /\ f i < g i) ->
  Rsum n f < Rsum n g.
Proof.
  induction n as [|n IH]; intros H (i & Hi & Hlt); simpl; [lia|].
  pose proof (Rsum_le n f g ltac:(intros; apply H; lia)) as Hle.
  pose proof (H n ltac:(lia)) as Hn.
  destruct (Nat.eq_dec i n) as [->|Hne]; [lra|].
  assert (Rsum n f < Rsum n g).
  { apply IH; [intros; apply H; lia|]. exists i. split; [lia | exact Hlt]. }
  lra.
Qed.

Lemma Rsum_nonneg_zero n f :
  (forall i, (i < n)%nat -> 0 <= f i) -> Rsum n f <= 0 ->
  forall i, (i < n)%nat -> f i = 0.
Proof.
  induction n as [|n IH]; intros H Hs i Hi; [lia|].
  simpl in Hs.
  pose proof (Rsum_nonneg n f ltac:(intros; apply H; lia)) as Hp.
  pose proof (H n ltac:(lia)) as Hn.
  destruct (Nat.eq_dec i n) as [->|Hne]; [lra|].
  apply IH; [intros; apply H; lia | lra | lia].
Qed.

Lemma Rsum_plus n f g : Rsum n (fun i => f i + g i) = Rsum n f + Rsum n g.
Proof. induction n as [|n IH]; simpl; [lra | rewrite IH; lra]. Qed.

Lemma Rsum_minus n f g : Rsum n (fun i => f i - g i) = Rsum n f - Rsum n g.
Proof. induction n as [|n IH]; simpl; [lra | rewrite IH; lra]. Qed.

Lemma Rsum_scal n c f : Rsum n (fun i => c * f i) = c * Rsum n f.
Proof. induction n as [|n IH]; simpl; [lra | rewrite IH; lra]. Qed.

Lemma Rsum_const n c : Rsum n (fun _ => c) = INR n * c.
Proof.
  induction n as [|n IH]; [simpl; lra|].
  rewrite S_INR. simpl. rewrite IH. lra.
Qed.

Lemma Rsum_app n m f :
  Rsum (n + m) f = Rsum n f + Rsum m (fun j => f (n + j)%nat).
Proof.
  induction m as [|m IH].
  - rewrite Nat.add_0_r. simpl. lra.
  - rewrite Nat.add_succ_r. simpl. rewrite IH. lra.
Qed.

(** A sum over a window that starts [m] places later. *)
Lemma Rsum_shift_up n m f :
  Rsum n (fun l => f (l + m)%nat) = Rsum (m + n) f - Rsum m f.
Proof.
  rewrite Rsum_app.
  rewrite (Rsum_ext n (fun l => f (l + m)%nat) (fun j => f (m + j)%nat))
    by (intros; f_equal; lia).
  lra.
Qed.

(** A sum whose first [m] terms are zero and whose later ones are [f]
    shifted. *)
Lemma Rsum_shift_down n m f :
  Rsum n (fun l => if (l <? m)%nat then 0 else f (l - m)%nat) = Rsum (n - m) f.
Proof.
  induction n as [|n IH]; [reflexivity|].
  change (Rsum (S n) ?g) with (Rsum n g + g n). rewrite IH.
  destruct (Nat.ltb_spec n m) as [H|H].
  - replace (S n - m)%nat with 0%nat by lia.
    replace (n - m)%nat with 0%nat by lia. simpl. lra.
  - replace (S n - m)%nat with (S (n - m)) by lia. reflexivity.
Qed.

Lemma Rsum_exchange n m (f : nat -> nat -> R) :
  Rsum n (fun i => Rsum m (fun j => f i j))
  = Rsum m (fun j => Rsum n (fun i => f i j)).
Proof.
  induction n as [|n IH]; simpl.
  - symmetry. apply Rsum_zero. reflexivity.
  - rewrite IH, <- Rsum_plus. reflexivity.
Qed.

Lemma Rsum_opp n f : Rsum n (fun i => - f i) = - Rsum n f.
Proof. induction n as [|n IH]; simpl; [lra | rewrite IH; lra]. Qed.

Lemma fold_right_Rplus_app l1 l2 :
  fold_right Rplus 0 (l1 ++ l2) = fold_right Rplus 0 l1 + fold_right Rplus 0 l2.
Proof. induction l1 as [|x l1 IH]; simpl; [lra | rewrite IH; lra]. Qed.

(** The two ways of writing a finite sum agree. *)
Lemma Rsum_sum_over n f : Rsum n f = sum_over n f.
Proof.
  unfold sum_over. induction n as [|n IH]; [reflexivity|].
  rewrite seq_S, map_app, fold_right_Rplus_app. simpl. rewrite <- IH. lra.
Qed.

End SumFacts.

(** * The autocorrelation of a signal *)

Section Autocorrelation.
Import Np Spec Roots.

Lemma sample_of_nat s (l : nat) : sample s (Z.of_nat l) = nth l s 0.
Proof.
  unfold sample. destruct (Z.ltb_spec (Z.of_nat l) 0); [lia|].
  rewrite Nat2Z.id. reflexivity.
Qed.

Lemma sample_neg s i : (i < 0)%Z -> sample s i = 0.
Proof. intros H. unfold sample. destruct (Z.ltb_spec i 0); [reflexivity | lia]. Qed.

Lemma sample_overflow s i : (Z.of_nat (length s) <= i)%Z -> sample s i = 0.
Proof.
  intros H. unfold sample. destruct (Z.ltb_spec i 0); [reflexivity|].
  apply nth_overflow. lia.
Qed.

Lemma sample_delay a s i : sample (delay a s) i = sample s (i - Z.of_nat a).
Proof.
  unfold delay. destruct (Z.ltb_spec i 0) as [Hn|Hp].
  - rewrite !sample_neg by lia. reflexivity.
  - unfold sample at 1. destruct (Z.ltb_spec i 0); [lia|].
    destruct (Z.ltb_spec i (Z.of_nat a)) as [Hlt|Hge].
    + rewrite app_nth1 by (rewrite repeat_length; lia).
      rewrite sample_neg by lia.
      apply nth_repeat.
    + rewrite app_nth2 by (rewrite repeat_length; lia).
      rewrite repeat_length. unfold sample.
      destruct (Z.ltb_spec (i - Z.of_nat a) 0); [lia|].
      f_equal. lia.
Qed.

Lemma delay_length a s : length (delay a s) = (a + length s)%nat.
Proof. unfold delay. rewrite length_app, repeat_length. reflexivity. Qed.

Lemma delay_nth_low a s l : (l < a)%nat -> nth l (delay a s) 0 = 0.
Proof.
  intros H. unfold delay. rewrite app_nth1 by (rewrite repeat_length; lia).
  apply nth_repeat.
Qed.

Lemma delay_nth_high a s l : nth (a + l) (delay a s) 0 = nth l s 0.
Proof.
  unfold delay. rewrite app_nth2 by (rewrite repeat_length; lia).
  rewrite repeat_length. f_equal. lia.
Qed.

(** The correlation of two delayed copies is the autocorrelation at the
    shifted lag. *)
Lemma corr_lag_delay a b s k :
  corr_lag (delay a s) (delay b s) k
  = corr_lag s s (k + Z.of_nat b - Z.of_nat a).
Proof.
  unfold corr_lag. rewrite delay_length, Rsum_app.
  rewrite Rsum_zero
    by (intros i Hi; rewrite delay_nth_low by exact Hi; lra).
  rewrite Rplus_0_l. apply Rsum_ext. intros l Hl.
  rewrite delay_nth_high, sample_delay. f_equal. f_equal. lia.
Qed.

(** The energy of a signal. *)
Lemma corr_lag_zero s : corr_lag s s 0 = Rsum (length s) (fun l => nth l s 0 * nth l s 0).
Proof.
  unfold corr_lag. apply Rsum_ext. intros l Hl.
  rewrite Z.add_0_r, sample_of_nat. reflexivity.
Qed.

(** A window of the zero-extended signal holds no more energy than the
    signal. *)
Lemma window_energy s k :
  Rsum (length s) (fun l => sample s (Z.of_nat l + k) * sample s (Z.of_nat l + k))
  <= Rsum (length s) (fun l => nth l s 0 * nth l s 0).
Proof.
  set (G := fun j => nth j s 0 * nth j s 0).
  assert (HG : forall j, 0 <= G j) by (intros j; unfold G; nra).
  destruct (Z.ltb_spec k 0) as [Hneg|Hpos].
  - rewrite (Rsum_ext _ _ (fun l => if (l <? Z.to_nat (- k))%nat then 0
                                     else G (l - Z.to_nat (- k))%nat)).
    + rewrite Rsum_shift_down.
      replace (length s) with ((length s - Z.to_nat (- k)) +
                               (length s - (length s - Z.to_nat (- k))))%nat at 2 by lia.
      rewrite Rsum_app.
      pose proof (Rsum_nonneg (length s - (length s - Z.to_nat (- k)))
                    (fun j => G (length s - Z.to_nat (- k) + j)%nat)
                    ltac:(intros; apply HG)).
      fold G. lra.
    + intros l Hl. destruct (Nat.ltb_spec l (Z.to_nat (- k))) as [H|H].
      * rewrite sample_neg by lia. lra.
      * replace (Z.of_nat l + k)%Z with (Z.of_nat (l - Z.to_nat (- k))) by lia.
        rewrite sample_of_nat. reflexivity.
  - rewrite (Rsum_ext _ _ (fun l => G (l + Z.to_nat k)%nat)).
    + rewrite Rsum_shift_up, Nat.add_comm, Rsum_app.
      rewrite (Rsum_zero (Z.to_nat k)
                 (fun j => G (length s + j)%nat)).
      * pose proof (Rsum_nonneg (Z.to_nat k) G ltac:(intros; apply HG)).
        fold G. lra.
      * intros j Hj. unfold G. rewrite nth_overflow by lia. lra.
    + intros l Hl.
      replace (Z.of_nat l + k)%Z with (Z.of_nat (l + Z.to_nat k)) by lia.
      rewrite sample_of_nat. reflexivity.
Qed.

(** Twice the gap between the energy and the autocorrelation at lag [k]
    bounds the squared differences of the signal and its shift. *)
Lemma autocorr_gap s k :
  Rsum (length s)
       (fun l => (nth l s 0 - sample s (Z.of_nat l + k)) *
                 (nth l s 0 - sample s (Z.of_nat l + k)))
  <= 2 * (corr_lag s s 0 - corr_lag s s k).
Proof.
  pose proof (window_energy s k) as Hw.
  rewrite corr_lag_zero. unfold corr_lag.
  rewrite (Rsum_ext _
    (fun l => (nth l s 0 - sample s (Z.of_nat l + k)) *
              (nth l s 0 - sample s (Z.of_nat l + k)))
    (fun l => (nth l s 0 * nth l s 0
               + sample s (Z.of_nat l + k) * sample s (Z.of_nat l + k))
              - 2 * (sample s (Z.of_nat l + k) * nth l s 0)))
    by (intros; ring).
  rewrite Rsum_minus, Rsum_plus, Rsum_scal. lra.
Qed.

Lemma autocorr_le s k : corr_lag s s k <= corr_lag s s 0.
Proof.
  pose proof (autocorr_gap s k) as Hg.
  pose proof (Rsum_nonneg (length s)
    (fun l => (nth l s 0 - sample s (Z.of_nat l + k)) *
              (nth l s 0 - sample s (Z.of_nat l + k)))
    ltac:(intros; cbv beta; apply Rle_0_sqr)).
  lra.
Qed.

Lemma nonzero_nth s : nonzero s -> exists l, (l < length s)%nat /\ nth l s 0 <> 0.
Proof.
  intros H. apply Exists_exists in H. destruct H as (x & Hin & Hx).
  destruct (In_nth s x 0 Hin) as (l & Hl & E).
  exists l. split; [exact Hl | rewrite E; exact Hx].
Qed.

(** A signal that equals its shift by a lag other than zero is zero. *)
Lemma shift_invariant_zero s k :
  k <> 0%Z ->
  (forall l, (l < length s)%nat -> nth l s 0 = sample s (Z.of_nat l + k)) ->
  forall l, (l < length s)%nat -> nth l s 0 = 0.
Proof.
  intros Hk Heq.
  destruct (Z.ltb_spec k 0) as [Hneg|Hpos].
  - intros l. induction l as [l IH] using lt_wf_ind. intros Hl.
    rewrite Heq by exact Hl.
    destruct (Z.ltb_spec (Z.of_nat l + k) 0) as [H|H].
    + apply sample_neg, H.
    + replace (Z.of_nat l + k)%Z with (Z.of_nat (Z.to_nat (Z.of_nat l + k))) by lia.
      rewrite sample_of_nat. apply IH; lia.
  - assert (Hd : forall m l, (length s - l <= m)%nat -> (l < length s)%nat ->
                             nth l s 0 = 0).
    { induction m as [|m IH]; intros l Hm Hl; [lia|].
      rewrite Heq by exact Hl.
      replace (Z.of_nat l + k)%Z with (Z.of_nat (l + Z.to_nat k)) by lia.
      rewrite sample_of_nat.
      destruct (Nat.lt_ge_cases (l + Z.to_nat k) (length s)) as [H|H].
      - apply IH; lia.
      - apply nth_overflow, H. }
    intros l Hl. apply (Hd (length s) l); lia.
Qed.

(** The autocorrelation of a signal that is not zero has its only maximum
    at lag zero. *)
Lemma autocorr_lt s k :
  nonzero s -> k <> 0%Z -> corr_lag s s k < corr_lag s s 0.
Proof.
  intros Hnz Hk.
  destruct (Rlt_le_dec (corr_lag s s k) (corr_lag s s 0)) as [H|H]; [exact H|].
  exfalso.
  pose proof (autocorr_gap s k) as Hg.
  assert (Hz : forall l, (l < length s)%nat ->
               (nth l s 0 - sample s (Z.of_nat l + k)) *
               (nth l s 0 - sample s (Z.of_nat l + k)) = 0).
  { apply Rsum_nonneg_zero; [intros; cbv beta; apply Rle_0_sqr | lra]. }
  destruct (nonzero_nth s Hnz) as (l & Hl & Hne).
  apply Hne. apply (shift_invariant_zero s k Hk); [|exact Hl].
  intros j Hj. specialize (Hz j Hj). nra.
Qed.

(** A sum against an indicator picks one sample. *)
Lemma Rsum_pick s n c :
  (length s <= n)%nat ->
  Rsum n (fun b => nth b s 0 * ind b c) = sample s c.
Proof.
  intros Hlen.
  assert (G : forall k, Rsum k (fun b => nth b s 0 * ind b c)
              = if ((0 <=? c) && (c <? Z.of_nat k))%Z then sample s c else 0).
  { induction k as [|k IH].
    - simpl. destruct (0 <=? c)%Z eqn:E1; destruct (c <? 0)%Z eqn:E2;
        simpl; try reflexivity; lia.
    - change (Rsum (S k) ?g) with (Rsum k g + g k). rewrite IH. unfold ind.
      destruct (Z.leb_spec 0 c) as [H0|H0];
        destruct (Z.ltb_spec c (Z.of_nat k)) as [H1|H1];
        destruct (Z.ltb_spec c (Z.of_nat (S k))) as [H2|H2];
        destruct (Z.eqb_spec (Z.of_nat k) c) as [H3|H3];
        simpl; try lia; try lra.
      rewrite <- H3, sample_of_nat. lra. }
  rewrite G.
  destruct (Z.leb_spec 0 c) as [H0|H0];
    destruct (Z.ltb_spec c (Z.of_nat n)) as [H1|H1]; simpl; try reflexivity.
  - symmetry. apply sample_overflow. lia.
  - symmetry. apply sample_neg. lia.
  - symmetry. apply sample_neg. lia.
Qed.

(** The correlation of the exchanged signals is the correlation at the
    opposite lag. *)
Lemma corr_lag_exchange x y k : corr_lag y x k = corr_lag x y (- k).
Proof.
  unfold corr_lag.
  rewrite (Rsum_ext (length x) _
    (fun l => Rsum (length y)
       (fun b => nth l x 0 * (nth b y 0 * ind b (Z.of_nat l + k)))))
    by (intros l _; rewrite Rsum_scal, Rsum_pick by lia; ring).
  rewrite Rsum_exchange. apply Rsum_ext. intros b _.
  rewrite <- (Rsum_pick x (length x) (Z.of_nat b + - k)) by lia.
  rewrite Rmult_comm, <- Rsum_scal. apply Rsum_ext. intros l _.
  unfold ind.
  destruct (Z.eqb_spec (Z.of_nat b) (Z.of_nat l + k));
    destruct (Z.eqb_spec (Z.of_nat l) (Z.of_nat b + - k)); try lia; ring.
Qed.

Lemma sample_at_index s i : sample s i = at_index s i.
Proof.
  unfold sample, at_index.
  destruct (Z.ltb_spec i 0) as [Hn|Hp];
    destruct (Z.leb_spec 0 i) as [H0|H0]; try lia; simpl; [reflexivity|].
  destruct (Z.ltb_spec i (Z.of_nat (length s))) as [Hl|Hl]; [reflexivity|].
  apply nth_overflow. lia.
Qed.

(** The correlation that [correlate] holds at lag [k] is the linear
    cross-correlation with the second signal slid by [k] samples. *)
Lemma corr_lag_cross_correlation x y k :
  corr_lag x y k = cross_correlation x y k.
Proof.
  rewrite (corr_lag_exchange y x k).
  unfold corr_lag, cross_correlation. rewrite <- Rsum_sum_over.
  apply Rsum_ext. intros l _. rewrite sample_at_index.
  replace (Z.of_nat l + - k)%Z with (Z.of_nat l - k)%Z by lia. ring.
Qed.

End Autocorrelation.

Section CrossCorrelationClaims.
Import Np Tdoa Spec.

(** What [estimate_tdoa_cc] returns, through the first maximum. *)
Lemma estimate_tdoa_cc_first_max sig1 sig2 fs i :
  sig1 <> [] -> sig2 <> [] ->
  first_max (correlate sig1 sig2) i ->
  estimate_tdoa_cc sig1 sig2 fs
  = Ok (IZR (Z.of_nat i - (Z.of_nat (length sig2) - 1)) / fs).
Proof.
  intros H1 H2 Hfm. unfold estimate_tdoa_cc.
  rewrite (first_max_argmax _ _ Hfm). simpl.
  pose proof Hfm as (Hi & _). rewrite correlate_length in Hi by assumption.
  pose proof (length_pos_of_ne _ H2) as Hl2.
  rewrite getitem_nth with (d := IZR 0 / fs)
    by (rewrite length_map, correlation_lags_length by lia; exact Hi).
  rewrite (map_nth (fun l => IZR l / fs)).
  rewrite correlation_lags_nth by exact Hi. reflexivity.
Qed.

(** The correlation of two delayed copies of a signal that is not zero has
    its first maximum where the lag is the difference of the delays. *)
Lemma first_max_delayed a b s :
  nonzero s ->
  first_max (correlate (delay a s) (delay b s)) (a + length s - 1).
Proof.
  intros Hnz.
  destruct (nonzero_nth s Hnz) as (l0 & Hl0 & _).
  assert (Ha : delay a s <> []).
  { intros E. pose proof (delay_length a s) as HL. rewrite E in HL. simpl in HL. lia. }
  assert (Hb : delay b s <> []).
  { intros E. pose proof (delay_length b s) as HL. rewrite E in HL. simpl in HL. lia. }
  assert (Hval : forall j, (j < length (correlate (delay a s) (delay b s)))%nat ->
            nth j (correlate (delay a s) (delay b s)) 0
            = corr_lag s s (Z.of_nat j - Z.of_nat (a + length s - 1))).
  { intros j Hj. rewrite correlate_length in Hj by assumption.
    rewrite correlate_nth by assumption.
    rewrite corr_lag_delay, !delay_length. f_equal. lia. }
  assert (Hlen : (a + length s - 1
                  < length (correlate (delay a s) (delay b s)))%nat).
  { rewrite correlate_length, !delay_length by assumption. lia. }
  repeat split.
  - exact Hlen.
  - intros j Hj. rewrite !Hval by assumption.
    rewrite Z.sub_diag. apply autocorr_le.
  - intros j Hj. rewrite !Hval by lia.
    rewrite Z.sub_diag. apply autocorr_lt; [exact Hnz | lia].
Qed.

(** With an array of zeros as second signal every correlation value is
    zero. *)
Lemma corr_lag_zeros x y k :
  (forall l, nth l y 0 = 0) -> corr_lag x y k = 0.
Proof.
  intros Hy. unfold corr_lag. apply Rsum_zero.
  intros l _. rewrite Hy. lra.
Qed.

Lemma first_max_flat l :
  l <> [] -> (forall j, nth j l 0 = 0) -> first_max l 0.
Proof.
  intros Hl Hz. repeat split.
  - apply length_pos_of_ne, Hl.
  - intros j _. rewrite !Hz. lra.
  - intros j Hj. lia.
Qed.

(** On silence the first index is selected: the lag [-(len2 - 1)]. *)
Lemma estimate_tdoa_cc_zeros sig1 sig2 fs :
  sig1 <> [] -> sig2 <> [] -> (forall l, nth l sig2 0 = 0) ->
  estimate_tdoa_cc sig1 sig2 fs
  = Ok (IZR (- (Z.of_nat (length sig2) - 1)) / fs).
Proof.
  intros H1 H2 Hz.
  rewrite (estimate_tdoa_cc_first_max sig1 sig2 fs 0 H1 H2).
  - reflexivity.
  - apply first_max_flat.
    + intros E. pose proof (correlate_length _ _ H1 H2) as HL.
      pose proof (length_pos_of_ne _ H1). pose proof (length_pos_of_ne _ H2).
      rewrite E in HL. simpl in HL. lia.
    + intros j.
      destruct (Nat.lt_ge_cases j (length sig1 + length sig2 - 1)) as [Hj|Hj].
      * rewrite correlate_nth by assumption. apply corr_lag_zeros, Hz.
      * apply nth_overflow. rewrite correlate_length by assumption. exact Hj.
Qed.

Lemma nth_zeros2 l : nth l [0; 0] 0 = 0.
Proof. destruct l as [|[|[|l]]]; reflexivity. Qed.

Lemma nth_zeros1 l : nth l [0] 0 = 0.
Proof. destruct l as [|[|l]]; reflexivity. Qed.

(** C2: for non-empty signals and a positive sample rate, the correlation
    has [len1 + len2 - 1] entries, entry [i] is the linear cross-correlation
    [sum_m sig1[m] * sig2[m - k]] at the integer lag [k = i - (len2 - 1)],
    the lags run from [-(len2 - 1)] to [len1 - 1], and the function returns
    the lag at the first maximum of the correlation divided by the sample
    rate. *)
Theorem estimate_tdoa_cc_spec (sig1 sig2 : list R) (fs : R) :
  sig1 <> [] -> sig2 <> [] -> 0 < fs ->
  let corr := correlate sig1 sig2 in
  let lags := correlation_lags (length sig1) (length sig2) in
  length corr = (length sig1 + length sig2 - 1)%nat /\
  length lags = length corr /\
  (forall i, (i < length corr)%nat ->
     nth i lags 0%Z = (Z.of_nat i - (Z.of_nat (length sig2) - 1))%Z /\
     nth i corr 0 = cross_correlation sig1 sig2 (nth i lags 0%Z)) /\
  nth 0 lags 0%Z = (- (Z.of_nat (length sig2) - 1))%Z /\
  nth (length corr - 1) lags 0%Z = (Z.of_nat (length sig1) - 1)%Z /\
  exists i, first_max corr i /\
            estimate_tdoa_cc sig1 sig2 fs = Ok (IZR (nth i lags 0%Z) / fs).
Proof.
  intros H1 H2 Hfs corr lags. subst corr lags.
  pose proof (length_pos_of_ne _ H1) as Hl1.
  pose proof (length_pos_of_ne _ H2) as Hl2.
  rewrite correlate_length by assumption.
  rewrite correlation_lags_length by lia.
  split; [reflexivity|]. split; [reflexivity|].
  split.
  { intros i Hi. rewrite correlation_lags_nth by exact Hi.
    split; [reflexivity|].
    rewrite correlate_nth by assumption. apply corr_lag_cross_correlation. }
  split; [rewrite correlation_lags_nth by lia; simpl; lia|].
  split; [rewrite correlation_lags_nth by lia; lia|].
  destruct (argmax_defined (correlate sig1 sig2)) as (i & Hi & Hfm).
  { intros E. pose proof (correlate_length _ _ H1 H2) as HL.
    rewrite E in HL. simpl in HL. lia. }
  exists i. split; [exact Hfm|].
  pose proof Hfm as (Hlt & _). rewrite correlate_length in Hlt by assumption.
  rewrite correlation_lags_nth by exact Hlt.
  apply estimate_tdoa_cc_first_max; assumption.
Qed.

(** The correlation of [[1; 2]] and [[3]]: the values [3] and [6] at the
    lags [0] and [1]. *)
Lemma correlate_example :
  correlate [1; 2] [3] = [3; 6] /\ correlation_lags 2 1 = [0; 1]%Z.
Proof.
  split; [|reflexivity].
  unfold correlate, correlation_lags, arange, corr_lag, sample. simpl.
  f_equal; [ring | f_equal; ring].
Qed.

Lemma estimate_tdoa_cc_spec_witness :
  [1; 2] <> [] /\ [3] <> [] /\ 0 < 8000 /\
  correlate [1; 2] [3] = [3; 6] /\
  correlation_lags 2 1 = [0; 1]%Z /\
  cross_correlation [1; 2] [3] 0 = 3 /\
  cross_correlation [1; 2] [3] 1 = 6 /\
  first_max (correlate [1; 2] [3]) 1 /\
  estimate_tdoa_cc [1; 2] [3] 8000 = Ok (1 / 8000).
Proof.
  assert (H1 : [1; 2] <> []) by discriminate.
  assert (H2 : [3] <> []) by discriminate.
  assert (H3 : 0 < 8000) by lra.
  destruct correlate_example as (Hc & Hl).
  destruct (estimate_tdoa_cc_spec [1; 2] [3] 8000 H1 H2 H3)
    as (_ & _ & Hval & _ & _ & i & Hfm & E).
  assert (Hfm1 : first_max [3; 6] 1).
  { repeat split; simpl.
    - lia.
    - intros j Hj. destruct j as [|[|j]]; simpl; try lra; lia.
    - intros j Hj. destruct j as [|j]; simpl; [lra | lia]. }
  pose proof (Hval 0%nat ltac:(rewrite Hc; simpl; lia)) as (_ & V0).
  pose proof (Hval 1%nat ltac:(rewrite Hc; simpl; lia)) as (_ & V1).
  change (length [1; 2]) with 2%nat in *.
  change (length [3]) with 1%nat in *.
  rewrite Hc, Hl in *. simpl nth in V0, V1.
  assert (Hi : i = 1%nat) by (eapply first_max_unique; eassumption).
  subst i. simpl nth in E.
  split; [exact H1 | split; [exact H2 | split; [exact H3 |]]].
  split; [reflexivity | split; [reflexivity |]].
  split; [symmetry; exact V0 | split; [symmetry; exact V1 |]].
  split; [exact Hfm1 | exact E].
Defined.

(** Two delayed copies of a signal that is not zero: the function returns
    the difference of the delays over the sample rate. *)
Lemma estimate_tdoa_cc_delayed_pair a b s fs :
  nonzero s ->
  estimate_tdoa_cc (delay a s) (delay b s) fs
  = Ok (IZR (Z.of_nat a - Z.of_nat b) / fs).
Proof.
  intros Hnz.
  destruct (nonzero_nth s Hnz) as (l0 & Hl0 & _).
  assert (Hd : forall c, delay c s <> []).
  { intros c E. pose proof (delay_length c s) as HL.
    rewrite E in HL. simpl in HL. lia. }
  rewrite (estimate_tdoa_cc_first_max _ _ fs _ (Hd a) (Hd b)
             (first_max_delayed a b s Hnz)).
  f_equal. f_equal. f_equal. rewrite delay_length. lia.
Qed.

(** C4, as amended: for a signal with a sample that is not zero and a delay
    of [k] samples (the copy is [k] zeros followed by the signal), with the
    delayed copy as first signal and the signal as second the function
    returns [k / fs]; with the two exchanged it returns [- k / fs]. *)
Theorem cc_recovers_delay (s : list R) (k : nat) (fs : R) :
  nonzero s -> 0 < fs ->
  estimate_tdoa_cc (delay k s) s fs = Ok (INR k / fs) /\
  estimate_tdoa_cc s (delay k s) fs = Ok (- INR k / fs).
Proof.
  intros Hnz Hfs. split.
  - pose proof (estimate_tdoa_cc_delayed_pair k 0 s fs Hnz) as H.
    change (delay 0 s) with s in H. rewrite H.
    f_equal. f_equal. rewrite INR_IZR_INZ. f_equal. simpl. lia.
  - pose proof (estimate_tdoa_cc_delayed_pair 0 k s fs Hnz) as H.
    change (delay 0 s) with s in H. rewrite H.
    f_equal. f_equal. rewrite INR_IZR_INZ, <- opp_IZR. f_equal.
Qed.

Lemma cc_recovers_delay_witness :
  nonzero [1; 10] /\ 0 < 1 /\
  estimate_tdoa_cc (delay 1 [1; 10]) [1; 10] 1 = Ok (INR 1 / 1) /\
  estimate_tdoa_cc [1; 10] (delay 1 [1; 10]) 1 = Ok (- INR 1 / 1).
Proof.
  assert (H1 : nonzero [1; 10]) by (apply Exists_cons_hd; lra).
  assert (H2 : 0 < 1) by lra.
  split; [exact H1 | split; [exact H2 |]].
  apply (cc_recovers_delay [1; 10] 1 1 H1 H2).
Defined.

(** C4 fails as stated: for the signal [[0]] and its copy delayed by one
    sample the expected value is [1 / fs], and the function returns [0] with
    the delayed copy first and [-1] with the delayed copy second. *)
Lemma cc_silence_misses_delay :
  estimate_tdoa_cc (delay 1 [0]) [0] 1 = Ok 0 /\
  estimate_tdoa_cc [0] (delay 1 [0]) 1 = Ok (-1) /\
  Ok 0 <> Ok (INR 1 / 1) /\ Ok (-1) <> Ok (INR 1 / 1).
Proof.
  split; [|split; [|split]].
  - rewrite estimate_tdoa_cc_zeros; try discriminate; [|apply nth_zeros1].
    f_equal. simpl. lra.
  - rewrite estimate_tdoa_cc_zeros; try discriminate; [|apply nth_zeros2].
    f_equal. simpl. lra.
  - intros H. injection H as H. simpl in H. lra.
  - intros H. injection H as H. simpl in H. lra.
Qed.

(** The delayed copy has to keep every sample of the signal: with the copy
    cut to the length of the signal the peak can move, here to lag 0 for a
    delay of one sample. *)
Lemma cc_cut_copy_misses_delay :
  estimate_tdoa_cc (delay_cut 1 [1; 10]) [1; 10] 1 = Ok 0.
Proof.
  change (delay_cut 1 [1; 10]) with [0; 1].
  rewrite (estimate_tdoa_cc_first_max _ _ 1 1%nat); try discriminate.
  - f_equal. simpl. lra.
  - unfold first_max, correlate, correlation_lags, arange, corr_lag, sample.
    simpl. repeat split.
    + lia.
    + intros j Hj. destruct j as [|[|[|j]]]; simpl; try lra; lia.
    + intros j Hj. destruct j as [|j]; simpl; [lra | lia].
Qed.

(** The identical-signal case of the cross-correlation method. *)
Lemma estimate_tdoa_cc_identical s fs :
  nonzero s -> 0 < fs -> estimate_tdoa_cc s s fs = Ok 0.
Proof.
  intros Hnz Hfs.
  pose proof (estimate_tdoa_cc_delayed_pair 0 0 s fs Hnz) as H.
  change (delay 0 s) with s in H. rewrite H. f_equal. simpl. lra.
Qed.

End CrossCorrelationClaims.

(** * The generalised cross-correlation *)

Section GccFacts.
Import Np Tdoa Spec.

Lemma map2_length {A B D : Type} (f : A -> B -> D) a b :
  length (map2 f a b) = Nat.min (length a) (length b).
Proof.
  revert b. induction a as [|x a IH]; intros [|y b]; simpl; try reflexivity.
  rewrite IH. reflexivity.
Qed.

Lemma map2_nth {A B D : Type} (f : A -> B -> D) a b i da db dd :
  (i < length a)%nat -> (i < length b)%nat ->
  nth i (map2 f a b) dd = f (nth i a da) (nth i b db).
Proof.
  revert b i. induction a as [|x a IH]; intros [|y b] i Ha Hb; simpl in *; try lia.
  destruct i as [|i]; [reflexivity|]. apply IH; lia.
Qed.

Lemma map_seq_nth {A : Type} (f : nat -> A) n i d :
  (i < n)%nat -> nth i (map f (seq 0 n)) d = f i.
Proof.
  intros H. rewrite nth_indep with (d' := f 0%nat)
    by (rewrite length_map, length_seq; exact H).
  rewrite (map_nth f). rewrite seq_nth by exact H. reflexivity.
Qed.

Lemma fftshift_length {A : Type} (x : list A) : length (fftshift x) = length x.
Proof.
  unfold fftshift. rewrite length_app, length_skipn, length_firstn.
  pose proof (Nat.Div0.div_le_upper_bound (length x) 2 (length x)). lia.
Qed.

(** Entry [i] of the re-centred array is entry [(i - n/2) mod n] of the
    array. *)
Lemma fftshift_nth {A : Type} (x : list A) i d :
  (i < length x)%nat ->
  nth i (fftshift x) d
  = nth ((i + (length x - length x / 2)) mod length x) x d.
Proof.
  intros Hi. unfold fftshift.
  set (n := length x) in *. set (s := (n / 2)%nat).
  assert (Hs : (s <= n)%nat)
    by (apply Nat.Div0.div_le_upper_bound; lia).
  destruct (Nat.lt_ge_cases i s) as [Hlt|Hge].
  - rewrite app_nth1 by (rewrite length_skipn; fold n; lia).
    rewrite nth_skipn. rewrite Nat.mod_small by lia. f_equal. lia.
  - rewrite app_nth2 by (rewrite length_skipn; fold n; lia).
    rewrite length_skipn. fold n.
    rewrite nth_firstn.
    destruct (Nat.ltb_spec (i - (n - (n - s))) (n - s)) as [H|H]; [|lia].
    f_equal.
    replace (i + (n - s))%nat with ((i - s) + 1 * n)%nat by lia.
    rewrite Nat.Div0.mod_add. rewrite Nat.mod_small by lia. lia.
Qed.

Lemma fftshift_centre {A : Type} (x : list A) d :
  x <> [] -> nth (length x / 2) (fftshift x) d = nth 0 x d.
Proof.
  intros Hx. pose proof (length_pos_of_ne _ Hx) as Hl.
  rewrite fftshift_nth by (apply Nat.div_lt; lia).
  f_equal.
  assert (Hs : (length x / 2 <= length x)%nat)
    by (apply Nat.Div0.div_le_upper_bound; lia).
  replace (length x / 2 + (length x - length x / 2))%nat with (length x) by lia.
  apply Nat.Div0.mod_same.
Qed.

Lemma fft_defined x (n : nat) :
  (0 < n)%nat -> fft x (Z.of_nat n) = Ok (map (dft_coeff x n) (seq 0 n)).
Proof.
  intros H. unfold fft. destruct (Z.ltb_spec (Z.of_nat n) 1); [lia|].
  rewrite Nat2Z.id. reflexivity.
Qed.

Lemma fft_undefined x n : (n < 1)%Z -> exists msg, fft x n = Raise (ValueError msg).
Proof.
  intros H. unfold fft. destruct (Z.ltb_spec n 1); [|lia].
  eexists. reflexivity.
Qed.

Lemma ifft_defined X :
  X <> [] -> ifft X = Ok (map (idft_coeff X (length X)) (seq 0 (length X))).
Proof. destruct X; [contradiction | reflexivity]. Qed.

Lemma weight_phat_length R : length (weight_phat R) = length R.
Proof.
  unfold weight_phat. rewrite map2_length, length_map. apply Nat.min_id.
Qed.

Lemma weight_scot_length S1 S2 R :
  length S1 = length R -> length S2 = length R ->
  length (weight_scot S1 S2 R) = length R.
Proof.
  intros H1 H2. unfold weight_scot.
  rewrite !map2_length, !length_map, H1, H2. rewrite !Nat.min_id. reflexivity.
Qed.

(** The cross-spectrum [SIG1 * conj(SIG2)] at transform length [n]. *)
Lemma cross_spectrum_length x y n :
  length (map2 Cmul (map (dft_coeff x n) (seq 0 n))
                    (map Cconj (map (dft_coeff y n) (seq 0 n)))) = n.
Proof.
  rewrite map2_length, !length_map, length_seq. apply Nat.min_id.
Qed.

Lemma gcc_weighting_length method S1 S2 R W :
  length S1 = length R -> length S2 = length R ->
  gcc_weighting method S1 S2 R = Ok W -> length W = length R.
Proof.
  intros H1 H2. unfold gcc_weighting.
  destruct (String.eqb (lower method) "phat").
  - intros E. injection E as <-. apply weight_phat_length.
  - destruct (String.eqb (lower method) "scot"); [|discriminate].
    intros E. injection E as <-. apply weight_scot_length; assumption.
Qed.

(** The function on non-empty signals, after the two forward transforms. *)
Lemma estimate_tdoa_gcc_eq sig1 sig2 fs method :
  sig1 <> [] -> sig2 <> [] ->
  let n := (length sig1 + length sig2 - 1)%nat in
  let SIG1 := map (dft_coeff sig1 n) (seq 0 n) in
  let SIG2 := map (dft_coeff sig2 n) (seq 0 n) in
  estimate_tdoa_gcc sig1 sig2 fs method
  = (W <- gcc_weighting method SIG1 SIG2 (map2 Cmul SIG1 (map Cconj SIG2)) ;;
     spectrum <- ifft W ;;
     tdoa_index <- argmax (fftshift (map re spectrum)) ;;
     getitem (map (fun i => IZR (i - Z.of_nat n / 2) / fs) (arange 0 (Z.of_nat n)))
             tdoa_index).
Proof.
  intros H1 H2 n SIG1 SIG2.
  pose proof (length_pos_of_ne _ H1). pose proof (length_pos_of_ne _ H2).
  unfold estimate_tdoa_gcc.
  replace (Z.of_nat (length sig1) + Z.of_nat (length sig2) - 1)%Z
    with (Z.of_nat n) by (unfold n; lia).
  rewrite !fft_defined by (unfold n; lia).
  reflexivity.
Qed.

(** What the function returns once the weighted cross-spectrum is known. *)
Lemma estimate_tdoa_gcc_first_max sig1 sig2 fs method W i :
  sig1 <> [] -> sig2 <> [] ->
  let n := (length sig1 + length sig2 - 1)%nat in
  let SIG1 := map (dft_coeff sig1 n) (seq 0 n) in
  let SIG2 := map (dft_coeff sig2 n) (seq 0 n) in
  gcc_weighting method SIG1 SIG2 (map2 Cmul SIG1 (map Cconj SIG2)) = Ok W ->
  first_max (fftshift (map re (map (idft_coeff W n) (seq 0 n)))) i ->
  estimate_tdoa_gcc sig1 sig2 fs method
  = Ok (IZR (Z.of_nat i - Z.of_nat (n / 2)) / fs).
Proof.
  intros H1 H2 n SIG1 SIG2 HW Hfm.
  pose proof (length_pos_of_ne _ H1). pose proof (length_pos_of_ne _ H2).
  rewrite estimate_tdoa_gcc_eq by assumption. fold n SIG1 SIG2.
  rewrite HW. simpl bind.
  assert (HlW : length W = n).
  { assert (HR : length (map2 Cmul SIG1 (map Cconj SIG2)) = n)
      by apply cross_spectrum_length.
    transitivity (length (map2 Cmul SIG1 (map Cconj SIG2))); [|exact HR].
    apply (gcc_weighting_length method SIG1 SIG2); [| |exact HW];
      rewrite HR; unfold SIG1, SIG2; rewrite length_map, length_seq; reflexivity. }
  rewrite ifft_defined by (intros ->; simpl in HlW; lia).
  rewrite HlW. simpl bind.
  rewrite (first_max_argmax _ _ Hfm). simpl bind.
  destruct Hfm as (Hi & _).
  rewrite fftshift_length, !length_map, length_seq in Hi.
  rewrite getitem_nth with (d := IZR (0 - Z.of_nat n / 2) / fs)
    by (rewrite length_map, arange_length; lia).
  rewrite (map_nth (fun i => IZR (i - Z.of_nat n / 2) / fs)).
  rewrite arange_nth by lia.
  f_equal. f_equal. f_equal.
  rewrite (Nat2Z.inj_div n 2). lia.
Qed.

(** The transform that [fft] holds at index [k], written out. *)
Lemma dft_coeff_transform x n k : dft_coeff x n k = transform x n k.
Proof.
  unfold dft_coeff, transform. f_equal.
  - apply Rsum_sum_over.
  - rewrite <- Rsum_opp. apply Rsum_sum_over.
Qed.

Lemma Cmul_conj_cross_spectrum S1 S2 : Cmul S1 (Cconj S2) = cross_spectrum S1 S2.
Proof. unfold Cmul, Cconj, cross_spectrum. cbn [re im]. f_equal; ring. Qed.

Lemma Cabs_magnitude z : Cabs z = magnitude z.
Proof. reflexivity. Qed.

Lemma Cabs_sqr_power_of z : Cabs z ^ 2 = power_of z.
Proof.
  unfold Cabs, power_of, Rsqr. apply pow2_sqrt.
  pose proof (Rle_0_sqr (re z)). pose proof (Rle_0_sqr (im z)).
  unfold Rsqr in *. lra.
Qed.

Lemma epsilon_stabiliser : epsilon = stabiliser.
Proof.
  unfold epsilon, stabiliser.
  replace (10 ^ 10) with 10000000000 by (simpl; ring).
  unfold Rdiv. ring.
Qed.

(** Entry [k] of the [phat] branch on a cross-spectrum. *)
Lemma weight_phat_nth S1 S2 n k :
  length S1 = n -> length S2 = n -> (k < n)%nat ->
  nth k (weight_phat (map2 Cmul S1 (map Cconj S2))) (mkC 0 0)
  = phat (nth k S1 (mkC 0 0)) (nth k S2 (mkC 0 0)).
Proof.
  intros H1 H2 Hk.
  assert (HR : length (map2 Cmul S1 (map Cconj S2)) = n)
    by (rewrite map2_length, length_map, H1, H2; apply Nat.min_id).
  assert (HRk : nth k (map2 Cmul S1 (map Cconj S2)) (mkC 0 0)
                = cross_spectrum (nth k S1 (mkC 0 0)) (nth k S2 (mkC 0 0))).
  { rewrite map2_nth with (da := mkC 0 0) (db := Cconj (mkC 0 0))
      by (rewrite ?length_map; lia).
    rewrite (map_nth Cconj). apply Cmul_conj_cross_spectrum. }
  unfold weight_phat.
  rewrite map2_nth with (da := mkC 0 0) (db := Cabs (mkC 0 0))
    by (rewrite ?length_map; lia).
  rewrite (map_nth Cabs), HRk, Cabs_magnitude, epsilon_stabiliser.
  reflexivity.
Qed.

(** Entry [k] of the [scot] branch on a cross-spectrum. *)
Lemma weight_scot_nth S1 S2 n k :
  length S1 = n -> length S2 = n -> (k < n)%nat ->
  nth k (weight_scot S1 S2 (map2 Cmul S1 (map Cconj S2))) (mkC 0 0)
  = scot (nth k S1 (mkC 0 0)) (nth k S2 (mkC 0 0)).
Proof.
  intros H1 H2 Hk.
  assert (HR : length (map2 Cmul S1 (map Cconj S2)) = n)
    by (rewrite map2_length, length_map, H1, H2; apply Nat.min_id).
  assert (HRk : nth k (map2 Cmul S1 (map Cconj S2)) (mkC 0 0)
                = cross_spectrum (nth k S1 (mkC 0 0)) (nth k S2 (mkC 0 0))).
  { rewrite map2_nth with (da := mkC 0 0) (db := Cconj (mkC 0 0))
      by (rewrite ?length_map; lia).
    rewrite (map_nth Cconj). apply Cmul_conj_cross_spectrum. }
  unfold weight_scot.
  rewrite map2_nth with (da := mkC 0 0) (db := 0)
    by (rewrite ?map2_length, ?length_map; lia).
  rewrite map2_nth with (da := Cabs (mkC 0 0) ^ 2) (db := Cabs (mkC 0 0) ^ 2)
    by (rewrite length_map; lia).
  rewrite !(map_nth (fun s0 => Cabs s0 ^ 2)), !Cabs_sqr_power_of.
  rewrite HRk, epsilon_stabiliser. reflexivity.
Qed.

(** The real part of the inverse transform, written out. *)
Lemma idft_inverse_real W n m : re (idft_coeff W n m) = inverse_real W n m.
Proof.
  unfold idft_coeff, inverse_real. cbn [re]. f_equal. apply Rsum_sum_over.
Qed.

End GccFacts.

Section GccClaims.
Import Np Tdoa Spec.

Lemma gcc_weighting_phat method S1 S2 R :
  lower method = "phat" -> gcc_weighting method S1 S2 R = Ok (weight_phat R).
Proof. intros E. unfold gcc_weighting. rewrite E. reflexivity. Qed.

Lemma gcc_weighting_scot method S1 S2 R :
  lower method = "scot" -> gcc_weighting method S1 S2 R = Ok (weight_scot S1 S2 R).
Proof. intros E. unfold gcc_weighting. rewrite E. reflexivity. Qed.

Lemma gcc_weighting_other method S1 S2 R :
  lower method <> "phat" -> lower method <> "scot" ->
  gcc_weighting method S1 S2 R = Raise (ValueError gcc_error_message).
Proof.
  intros Hp Hs. unfold gcc_weighting.
  destruct (String.eqb_spec (lower method) "phat") as [E|_]; [contradiction|].
  destruct (String.eqb_spec (lower method) "scot") as [E|_]; [contradiction|].
  reflexivity.
Qed.

Lemma gcc_weighting_recognised method S1 S2 R :
  lower method = "phat" \/ lower method = "scot" ->
  exists W, gcc_weighting method S1 S2 R = Ok W.
Proof.
  intros [E|E]; eexists.
  - apply gcc_weighting_phat, E.
  - apply gcc_weighting_scot, E.
Qed.

(** With a recognised method the only [ValueError]s left are those of the
    array routines, whose text is another one. *)
Lemma gcc_recognised_no_method_error sig1 sig2 fs method :
  lower method = "phat" \/ lower method = "scot" ->
  estimate_tdoa_gcc sig1 sig2 fs method <> Raise (ValueError gcc_error_message).
Proof.
  intros Hm. unfold estimate_tdoa_gcc.
  set (n := (Z.of_nat (length sig1) + Z.of_nat (length sig2) - 1)%Z).
  unfold fft. destruct (Z.ltb_spec n 1) as [Hn|Hn]; simpl bind; [discriminate|].
  destruct (gcc_weighting_recognised method
              (map (dft_coeff sig1 (Z.to_nat n)) (seq 0 (Z.to_nat n)))
              (map (dft_coeff sig2 (Z.to_nat n)) (seq 0 (Z.to_nat n)))
              (map2 Cmul (map (dft_coeff sig1 (Z.to_nat n)) (seq 0 (Z.to_nat n)))
                 (map Cconj (map (dft_coeff sig2 (Z.to_nat n)) (seq 0 (Z.to_nat n)))))
              Hm) as (W & ->).
  simpl bind. unfold ifft. destruct W as [|w W]; simpl bind; [discriminate|].
  match goal with |- context [argmax ?l] => destruct l as [|c cc] end;
    simpl bind; [discriminate|].
  unfold getitem.
  match goal with |- context [nth_error ?l ?i] => destruct (nth_error l i) end;
    discriminate.
Qed.

(** C5, as amended: for non-empty signals and a method whose lower-case
    form is neither [phat] nor [scot] the function raises a [ValueError]
    and returns no number.  The error is the same for every such method and
    input: its message is one fixed text that names the two supported
    methods.  The two forward transforms have been computed by then (on
    empty signals it is their error that is raised, whatever the method);
    the weighting step yields no array. *)
Theorem estimate_tdoa_gcc_unknown_method (sig1 sig2 : list R) (fs : R) (method : string) :
  sig1 <> [] -> sig2 <> [] ->
  lower method <> "phat" -> lower method <> "scot" ->
  estimate_tdoa_gcc sig1 sig2 fs method = Raise (ValueError gcc_error_message) /\
  (forall v, estimate_tdoa_gcc sig1 sig2 fs method <> Ok v) /\
  (forall method' x y fs',
     x <> [] -> y <> [] ->
     lower method' <> "phat" -> lower method' <> "scot" ->
     estimate_tdoa_gcc x y fs' method' = estimate_tdoa_gcc sig1 sig2 fs method) /\
  (exists SIG1 SIG2,
     fft sig1 (Z.of_nat (length sig1) + Z.of_nat (length sig2) - 1) = Ok SIG1 /\
     fft sig2 (Z.of_nat (length sig1) + Z.of_nat (length sig2) - 1) = Ok SIG2 /\
     gcc_weighting method SIG1 SIG2 (map2 Cmul SIG1 (map Cconj SIG2))
     = Raise (ValueError gcc_error_message)) /\
  (forall SIG1 SIG2 R,
     gcc_weighting method SIG1 SIG2 R = Raise (ValueError gcc_error_message)) /\
  contains "'phat'" gcc_error_message = true /\
  contains "'scot'" gcc_error_message = true /\
  (exists msg,
     estimate_tdoa_gcc [] [] fs method = Raise (ValueError msg) /\
     msg <> gcc_error_message).
Proof.
  intros H1 H2 Hp Hs.
  assert (E : forall m x y f, x <> [] -> y <> [] ->
            lower m <> "phat" -> lower m <> "scot" ->
            estimate_tdoa_gcc x y f m = Raise (ValueError gcc_error_message)).
  { intros m x y f Hx Hy Hmp Hms.
    rewrite estimate_tdoa_gcc_eq by assumption.
    rewrite gcc_weighting_other by assumption. reflexivity. }
  pose proof (length_pos_of_ne _ H1) as Hl1.
  pose proof (length_pos_of_ne _ H2) as Hl2.
  split; [apply E; assumption|].
  split; [intros v; rewrite E by assumption; discriminate|].
  split; [intros m x y f Hx Hy Hmp Hms; rewrite !E by assumption; reflexivity|].
  split.
  { replace (Z.of_nat (length sig1) + Z.of_nat (length sig2) - 1)%Z
      with (Z.of_nat (length sig1 + length sig2 - 1)) by lia.
    eexists. eexists.
    split; [apply fft_defined; lia|]. split; [apply fft_defined; lia|].
    apply gcc_weighting_other; assumption. }
  split; [intros; apply gcc_weighting_other; assumption|].
  split; [reflexivity|]. split; [reflexivity|].
  eexists. split; [reflexivity | discriminate].
Qed.

Lemma estimate_tdoa_gcc_unknown_method_witness :
  [1] <> [] /\ [1] <> [] /\
  lower "invalid" <> "phat" /\ lower "invalid" <> "scot" /\
  estimate_tdoa_gcc [1] [1] 1 "invalid" = Raise (ValueError gcc_error_message) /\
  estimate_tdoa_gcc [1; 2] [3] 8000 "Use" = estimate_tdoa_gcc [1] [1] 1 "invalid" /\
  estimate_tdoa_gcc [1] [1] 1 "" = estimate_tdoa_gcc [1] [1] 1 "invalid".
Proof.
  assert (H1 : [1] <> []) by discriminate.
  assert (Hp : lower "invalid" <> "phat") by discriminate.
  assert (Hs : lower "invalid" <> "scot") by discriminate.
  destruct (estimate_tdoa_gcc_unknown_method [1] [1] 1 "invalid" H1 H1 Hp Hs)
    as (E & _ & Hsame & _).
  split; [exact H1 | split; [exact H1 | split; [exact Hp | split; [exact Hs|]]]].
  split; [exact E|].
  split; apply Hsame; discriminate.
Defined.

(** C5 fails as stated: for the method [invalid] the message of the error
    does not hold the method name. *)
Lemma estimate_tdoa_gcc_message_omits_method :
  estimate_tdoa_gcc [1] [1] 1 "invalid" = Raise (ValueError gcc_error_message) /\
  contains "invalid" gcc_error_message = false.
Proof.
  split; [|reflexivity].
  rewrite estimate_tdoa_gcc_eq by discriminate.
  rewrite gcc_weighting_other by discriminate. reflexivity.
Qed.

(** C10: a method whose lower-case form is [phat] (or [scot]) gives what
    [phat] (or [scot]) gives, on every input; the error for an unknown
    method is raised only when the lower-case form is neither, and on
    non-empty signals it is raised whenever the lower-case form is
    neither. *)
Theorem estimate_tdoa_gcc_case_insensitive (method : string) :
  (lower method = "phat" ->
   forall sig1 sig2 fs,
     estimate_tdoa_gcc sig1 sig2 fs method = estimate_tdoa_gcc sig1 sig2 fs "phat") /\
  (lower method = "scot" ->
   forall sig1 sig2 fs,
     estimate_tdoa_gcc sig1 sig2 fs method = estimate_tdoa_gcc sig1 sig2 fs "scot") /\
  (forall sig1 sig2 fs,
     estimate_tdoa_gcc sig1 sig2 fs method = Raise (ValueError gcc_error_message) ->
     lower method <> "phat" /\ lower method <> "scot") /\
  (lower method <> "phat" -> lower method <> "scot" ->
   forall sig1 sig2 fs, sig1 <> [] -> sig2 <> [] ->
     estimate_tdoa_gcc sig1 sig2 fs method = Raise (ValueError gcc_error_message)).
Proof.
  assert (Hsame : forall m, lower method = lower m ->
            forall sig1 sig2 fs,
              estimate_tdoa_gcc sig1 sig2 fs method = estimate_tdoa_gcc sig1 sig2 fs m).
  { intros m E sig1 sig2 fs. unfold estimate_tdoa_gcc, gcc_weighting.
    rewrite E. reflexivity. }
  split; [intros E; apply Hsame; rewrite E; reflexivity|].
  split; [intros E; apply Hsame; rewrite E; reflexivity|].
  split.
  - intros sig1 sig2 fs E. split; intros Hm;
      apply (gcc_recognised_no_method_error sig1 sig2 fs method); auto.
  - intros Hp Hs sig1 sig2 fs H1 H2.
    rewrite estimate_tdoa_gcc_eq by assumption.
    rewrite gcc_weighting_other by assumption. reflexivity.
Qed.

Lemma estimate_tdoa_gcc_case_insensitive_witness :
  lower "PHAT" = "phat" /\ lower "Phat" = "phat" /\ lower "ScOt" = "scot" /\
  (forall sig1 sig2 fs,
     estimate_tdoa_gcc sig1 sig2 fs "PHAT" = estimate_tdoa_gcc sig1 sig2 fs "phat") /\
  (forall sig1 sig2 fs,
     estimate_tdoa_gcc sig1 sig2 fs "Phat" = estimate_tdoa_gcc sig1 sig2 fs "phat") /\
  (forall sig1 sig2 fs,
     estimate_tdoa_gcc sig1 sig2 fs "ScOt" = estimate_tdoa_gcc sig1 sig2 fs "scot").
Proof.
  split; [reflexivity | split; [reflexivity | split; [reflexivity|]]].
  split; [|split].
  - apply (proj1 (estimate_tdoa_gcc_case_insensitive "PHAT")). reflexivity.
  - apply (proj1 (estimate_tdoa_gcc_case_insensitive "Phat")). reflexivity.
  - apply (proj1 (proj2 (estimate_tdoa_gcc_case_insensitive "ScOt"))). reflexivity.
Defined.

End GccClaims.

(** * Orthogonality of the roots of unity *)

Section RootsOfUnity.
Import Np Roots.

Lemma cos_2PI_nat (k : nat) : cos (2 * PI * INR k) = 1.
Proof.
  replace (2 * PI * INR k) with (0 + 2 * INR k * PI) by ring.
  rewrite cos_period. apply cos_0.
Qed.

Lemma sin_2PI_nat (k : nat) : sin (2 * PI * INR k) = 0.
Proof.
  replace (2 * PI * INR k) with (0 + 2 * INR k * PI) by ring.
  rewrite sin_period. apply sin_0.
Qed.

Lemma cos_2PI_Z (z : Z) : cos (2 * PI * IZR z) = 1.
Proof.
  destruct (Z.le_gt_cases 0 z) as [H|H].
  - rewrite <- (Z2Nat.id z H), <- INR_IZR_INZ. apply cos_2PI_nat.
  - rewrite <- (Z.opp_involutive z), opp_IZR.
    replace (2 * PI * - IZR (- z)) with (- (2 * PI * IZR (- z))) by ring.
    rewrite cos_neg, <- (Z2Nat.id (- z)) by lia.
    rewrite <- INR_IZR_INZ. apply cos_2PI_nat.
Qed.

Lemma sin_2PI_Z (z : Z) : sin (2 * PI * IZR z) = 0.
Proof.
  destruct (Z.le_gt_cases 0 z) as [H|H].
  - rewrite <- (Z2Nat.id z H), <- INR_IZR_INZ. apply sin_2PI_nat.
  - rewrite <- (Z.opp_involutive z), opp_IZR.
    replace (2 * PI * - IZR (- z)) with (- (2 * PI * IZR (- z))) by ring.
    rewrite sin_neg, <- (Z2Nat.id (- z)) by lia.
    rewrite <- INR_IZR_INZ, sin_2PI_nat. ring.
Qed.

(** Telescoping: [2 sin(x/2) sum_{k<n} cos(k x) = sin((n - 1/2) x) + sin(x/2)]. *)
Lemma cos_sum_telescope x n :
  2 * sin (x / 2) * Rsum n (fun k => cos (INR k * x))
  = sin ((INR n - / 2) * x) + sin (x / 2).
Proof.
  induction n as [|n IH].
  - simpl. replace ((0 - / 2) * x) with (- (x / 2)) by field.
    rewrite sin_neg. ring.
  - change (Rsum (S n) ?g) with (Rsum n g + g n).
    rewrite Rmult_plus_distr_l, IH, S_INR.
    replace ((INR n + 1 - / 2) * x) with (INR n * x + x / 2) by field.
    replace ((INR n - / 2) * x) with (INR n * x - x / 2) by field.
    rewrite sin_plus, sin_minus. ring.
Qed.

Lemma zangle_mul n t k : zangle n t k = INR k * (2 * PI * IZR t / INR n).
Proof. unfold zangle. unfold Rdiv. ring. Qed.

Lemma Csum_multiple n t :
  (0 < n)%nat -> (Z.of_nat n | t)%Z -> Csum n t = INR n.
Proof.
  intros Hn (q & ->). unfold Csum.
  rewrite (Rsum_ext n _ (fun _ => 1)).
  - rewrite Rsum_const. ring.
  - intros k _. unfold zangle.
    replace (2 * PI * IZR (q * Z.of_nat n) * INR k / INR n)
      with (2 * PI * IZR (q * Z.of_nat k)).
    + apply cos_2PI_Z.
    + rewrite !mult_IZR, <- !INR_IZR_INZ. field.
      apply not_0_INR. lia.
Qed.

Lemma Csum_nonmultiple n t :
  (0 < n)%nat -> ~ (Z.of_nat n | t)%Z -> Csum n t = 0.
Proof.
  intros Hn Hnd.
  assert (Hn0 : INR n <> 0) by (apply not_0_INR; lia).
  set (x := 2 * PI * IZR t / INR n).
  assert (Hs : sin (x / 2) <> 0).
  { intros E. apply sin_eq_0_0 in E. destruct E as (q & E).
    apply Hnd. exists q. apply eq_IZR.
    rewrite mult_IZR, <- INR_IZR_INZ.
    pose proof PI_RGT_0 as Hpi.
    assert (E' : PI * IZR t = PI * (IZR q * INR n)).
    { unfold x in E. apply (f_equal (fun v => v * INR n)) in E.
      field_simplify in E; [|exact Hn0]. lra. }
    apply Rmult_eq_reg_l in E'; [exact E' | lra]. }
  pose proof (cos_sum_telescope x n) as T.
  replace ((INR n - / 2) * x) with (2 * PI * IZR t - x / 2) in T
    by (unfold x; field; exact Hn0).
  rewrite sin_minus, sin_2PI_Z, cos_2PI_Z in T.
  assert (T' : 2 * sin (x / 2) * Rsum n (fun k => cos (INR k * x)) = 0)
    by (rewrite T; ring).
  unfold Csum.
  rewrite (Rsum_ext n _ (fun k => cos (INR k * x)))
    by (intros; rewrite zangle_mul; reflexivity).
  apply Rmult_integral in T'. destruct T' as [T'|T']; [|exact T'].
  exfalso. lra.
Qed.

End RootsOfUnity.

(** * The power spectrum and the autocorrelation *)

Section PowerSpectrum.
Import Np Roots Spec.

Lemma Rsum_mul n f g :
  Rsum n f * Rsum n g = Rsum n (fun a => Rsum n (fun b => f a * g b)).
Proof.
  rewrite Rmult_comm, <- Rsum_scal. apply Rsum_ext. intros a _.
  rewrite Rsum_scal. ring.
Qed.

Lemma Rsum_extend n m f :
  (m <= n)%nat -> (forall i, (m <= i)%nat -> f i = 0) -> Rsum n f = Rsum m f.
Proof.
  intros Hle Hz. replace n with (m + (n - m))%nat by lia.
  rewrite Rsum_app, (Rsum_zero (n - m)); [lra|].
  intros j _. apply Hz. lia.
Qed.

Lemma Csum_forward n (a b m : nat) :
  (0 < n)%nat -> (a < n)%nat -> (b < n)%nat -> (m < n)%nat ->
  Csum n (Z.of_nat a - Z.of_nat b + Z.of_nat m)
  = INR n * (ind b (Z.of_nat a + Z.of_nat m)
             + ind b (Z.of_nat a + Z.of_nat m - Z.of_nat n)).
Proof.
  intros Hn Ha Hb Hm. unfold ind.
  destruct (Z.eqb_spec (Z.of_nat b) (Z.of_nat a + Z.of_nat m)) as [E1|E1];
    destruct (Z.eqb_spec (Z.of_nat b) (Z.of_nat a + Z.of_nat m - Z.of_nat n)) as [E2|E2];
    try lia.
  - rewrite Csum_multiple; [ring | exact Hn | exists 0%Z; lia].
  - rewrite Csum_multiple; [ring | exact Hn | exists 1%Z; lia].
  - rewrite Csum_nonmultiple; [ring | exact Hn |].
    intros (q & Hq). assert (q = 0 \/ q = 1)%Z as [-> | ->] by nia; lia.
Qed.

Lemma Csum_backward n (a b m : nat) :
  (0 < n)%nat -> (a < n)%nat -> (b < n)%nat -> (m < n)%nat ->
  Csum n (Z.of_nat a - Z.of_nat b - Z.of_nat m)
  = INR n * (ind b (Z.of_nat a - Z.of_nat m)
             + ind b (Z.of_nat a - Z.of_nat m + Z.of_nat n)).
Proof.
  intros Hn Ha Hb Hm. unfold ind.
  destruct (Z.eqb_spec (Z.of_nat b) (Z.of_nat a - Z.of_nat m)) as [E1|E1];
    destruct (Z.eqb_spec (Z.of_nat b) (Z.of_nat a - Z.of_nat m + Z.of_nat n)) as [E2|E2];
    try lia.
  - rewrite Csum_multiple; [ring | exact Hn | exists 0%Z; lia].
  - rewrite Csum_multiple; [ring | exact Hn | exists (-1)%Z; lia].
  - rewrite Csum_nonmultiple; [ring | exact Hn |].
    intros (q & Hq). assert (q = 0 \/ q = -1)%Z as [-> | ->] by nia; lia.
Qed.

Lemma angle_zangle n j k : angle n j k = zangle n (Z.of_nat j) k.
Proof. unfold angle, zangle. rewrite INR_IZR_INZ. reflexivity. Qed.

Lemma angle_comm n j k : angle n j k = angle n k j.
Proof. unfold angle, Rdiv. ring. Qed.

Lemma zangle_plus n t u k : zangle n (t + u) k = zangle n t k + zangle n u k.
Proof. unfold zangle, Rdiv. rewrite plus_IZR. ring. Qed.

Lemma zangle_minus n t u k : zangle n (t - u) k = zangle n t k - zangle n u k.
Proof. unfold zangle, Rdiv. rewrite minus_IZR. ring. Qed.

(** The product of the phase of a pair of samples and of a lag. *)
Lemma phase_product n (a b m k : nat) :
  (cos (angle n a k) * cos (angle n b k) + sin (angle n a k) * sin (angle n b k))
  * cos (angle n k m)
  = (cos (zangle n (Z.of_nat a - Z.of_nat b + Z.of_nat m) k)
     + cos (zangle n (Z.of_nat a - Z.of_nat b - Z.of_nat m) k)) / 2.
Proof.
  rewrite zangle_plus, !zangle_minus, (angle_comm n k m), !angle_zangle.
  rewrite cos_plus, (cos_minus (_ - _)), (sin_minus (zangle n (Z.of_nat a) k)),
    (cos_minus (zangle n (Z.of_nat a) k)).
  field.
Qed.

(** The squared magnitude of a coefficient as a double sum. *)
Lemma power_double_sum s n k :
  power s n k
  = Rsum n (fun a => Rsum n (fun b =>
      nth a s 0 * nth b s 0 *
      (cos (angle n a k) * cos (angle n b k) + sin (angle n a k) * sin (angle n b k)))).
Proof.
  unfold power, dft_coeff. cbn [re im].
  replace (- Rsum n (fun j => nth j s 0 * sin (angle n j k)) *
           - Rsum n (fun j => nth j s 0 * sin (angle n j k)))
    with (Rsum n (fun j => nth j s 0 * sin (angle n j k)) *
          Rsum n (fun j => nth j s 0 * sin (angle n j k))) by ring.
  rewrite !Rsum_mul, <- Rsum_plus. apply Rsum_ext. intros a _.
  rewrite <- Rsum_plus. apply Rsum_ext. intros b _. ring.
Qed.

Lemma power_nonneg s n k : 0 <= power s n k.
Proof. unfold power. nra. Qed.

(** The cosine transform of the power spectrum is the circular
    autocorrelation. *)
Lemma power_cos_sum s n m :
  (0 < n)%nat -> (length s <= n)%nat -> (m < n)%nat ->
  Rsum n (fun k => power s n k * cos (angle n k m))
  = INR n / 2 *
    (corr_lag s s (Z.of_nat m) + corr_lag s s (Z.of_nat m - Z.of_nat n)
     + corr_lag s s (- Z.of_nat m) + corr_lag s s (Z.of_nat n - Z.of_nat m)).
Proof.
  intros Hn Hlen Hm.
  (* the sum over k is moved inside the double sum over the samples *)
  rewrite (Rsum_ext n _
    (fun k => Rsum n (fun a => Rsum n (fun b =>
       nth a s 0 * nth b s 0 *
       ((cos (zangle n (Z.of_nat a - Z.of_nat b + Z.of_nat m) k)
         + cos (zangle n (Z.of_nat a - Z.of_nat b - Z.of_nat m) k)) / 2))))).
  2:{ intros k _. rewrite power_double_sum, Rmult_comm, <- Rsum_scal.
      apply Rsum_ext. intros a _. rewrite <- Rsum_scal.
      apply Rsum_ext. intros b _. rewrite <- phase_product. ring. }
  rewrite Rsum_exchange.
  rewrite (Rsum_ext n _
    (fun a => nth a s 0 * (INR n / 2) *
              (sample s (Z.of_nat a + Z.of_nat m)
               + sample s (Z.of_nat a + Z.of_nat m - Z.of_nat n)
               + sample s (Z.of_nat a - Z.of_nat m)
               + sample s (Z.of_nat a - Z.of_nat m + Z.of_nat n)))).
  2:{ intros a Ha. rewrite Rsum_exchange.
      rewrite (Rsum_ext n _
        (fun b => nth a s 0 * (INR n / 2) *
                  (nth b s 0 * ind b (Z.of_nat a + Z.of_nat m)
                   + nth b s 0 * ind b (Z.of_nat a + Z.of_nat m - Z.of_nat n)
                   + nth b s 0 * ind b (Z.of_nat a - Z.of_nat m)
                   + nth b s 0 * ind b (Z.of_nat a - Z.of_nat m + Z.of_nat n)))).
      - rewrite Rsum_scal, !Rsum_plus, !Rsum_pick by exact Hlen. reflexivity.
      - intros b Hb.
        rewrite (Rsum_ext n _
          (fun k => nth a s 0 * nth b s 0 / 2 *
                    (cos (zangle n (Z.of_nat a - Z.of_nat b + Z.of_nat m) k)
                     + cos (zangle n (Z.of_nat a - Z.of_nat b - Z.of_nat m) k))))
          by (intros; field).
        rewrite Rsum_scal, Rsum_plus.
        fold (Csum n (Z.of_nat a - Z.of_nat b + Z.of_nat m)).
        fold (Csum n (Z.of_nat a - Z.of_nat b - Z.of_nat m)).
        rewrite Csum_forward, Csum_backward by assumption. field. }
  (* each of the four sums is an autocorrelation *)
  assert (Hr : forall c, Rsum n (fun a => nth a s 0 * sample s (Z.of_nat a + c))
                         = corr_lag s s c).
  { intros c. unfold corr_lag.
    rewrite (Rsum_extend n (length s)); [|exact Hlen|].
    - apply Rsum_ext. intros; ring.
    - intros i Hi. rewrite nth_overflow by exact Hi. ring. }
  rewrite <- !Hr.
  rewrite <- !Rsum_plus, <- Rsum_scal. apply Rsum_ext. intros a _.
  replace (Z.of_nat a + (Z.of_nat m - Z.of_nat n))%Z
    with (Z.of_nat a + Z.of_nat m - Z.of_nat n)%Z by lia.
  replace (Z.of_nat a + - Z.of_nat m)%Z with (Z.of_nat a - Z.of_nat m)%Z by lia.
  replace (Z.of_nat a + (Z.of_nat n - Z.of_nat m))%Z
    with (Z.of_nat a - Z.of_nat m + Z.of_nat n)%Z by lia.
  ring.
Qed.

End PowerSpectrum.

(** * Identical signals under the generalised cross-correlation *)

Section GccIdentical.
Import Np Tdoa Roots Spec.

Lemma corr_lag_far s k :
  (Z.of_nat (length s) <= k \/ k <= - Z.of_nat (length s))%Z ->
  corr_lag s s k = 0.
Proof.
  intros H. unfold corr_lag. apply Rsum_zero. intros l Hl.
  destruct H as [H|H].
  - rewrite sample_overflow by lia. ring.
  - rewrite sample_neg by lia. ring.
Qed.

Lemma Rsum_pos_exists n f : 0 < Rsum n f -> exists i, (i < n)%nat /\ 0 < f i.
Proof.
  induction n as [|n IH]; simpl; intros H; [lra|].
  destruct (Rlt_le_dec 0 (f n)) as [Hf|Hf].
  - exists n. split; [lia | exact Hf].
  - destruct IH as (i & Hi & Hpos); [lra|].
    exists i. split; [lia | exact Hpos].
Qed.

(** For a signal that is not zero, padded to [n = 2 len - 1], the power
    spectrum is not carried by the frequencies where a lag [m] other than
    zero has phase one. *)
Lemma power_gap s m :
  nonzero s ->
  let n := (length s + length s - 1)%nat in
  (0 < m < n)%nat ->
  0 < Rsum n (fun k => power s n k * (1 - cos (angle n k m))).
Proof.
  intros Hnz n Hm.
  destruct (nonzero_nth s Hnz) as (l0 & Hl0 & _).
  assert (Hn : (0 < n)%nat) by (unfold n; lia).
  assert (Hlen : (length s <= n)%nat) by (unfold n; lia).
  pose proof (lt_0_INR n Hn) as HnR.
  rewrite (Rsum_ext n _
    (fun k => power s n k * cos (angle n k 0) - power s n k * cos (angle n k m))).
  2:{ intros k _. replace (angle n k 0) with 0
        by (unfold angle, Rdiv; simpl; ring).
      rewrite cos_0. ring. }
  rewrite Rsum_minus, !power_cos_sum by (try assumption; lia).
  simpl (Z.of_nat 0).
  rewrite (corr_lag_far s (0 - Z.of_nat n)) by (unfold n; lia).
  rewrite (corr_lag_far s (Z.of_nat n - 0)) by (unfold n; lia).
  destruct (Nat.lt_ge_cases m (length s)) as [Hlo|Hhi].
  - rewrite (corr_lag_far s (Z.of_nat m - Z.of_nat n)) by (unfold n; lia).
    rewrite (corr_lag_far s (Z.of_nat n - Z.of_nat m)) by (unfold n; lia).
    pose proof (autocorr_lt s (Z.of_nat m) Hnz ltac:(lia)).
    pose proof (autocorr_lt s (- Z.of_nat m) Hnz ltac:(lia)).
    simpl (- 0)%Z. nra.
  - rewrite (corr_lag_far s (Z.of_nat m)) by lia.
    rewrite (corr_lag_far s (- Z.of_nat m)) by lia.
    pose proof (autocorr_lt s (Z.of_nat m - Z.of_nat n) Hnz ltac:(lia)).
    pose proof (autocorr_lt s (Z.of_nat n - Z.of_nat m) Hnz ltac:(lia)).
    simpl (- 0)%Z. nra.
Qed.

Lemma epsilon_pos : 0 < epsilon.
Proof. unfold epsilon. apply Rinv_0_lt_compat. apply pow_lt. lra. Qed.

Lemma whiten_nonneg p : 0 <= p -> 0 <= whiten p.
Proof.
  intros Hp. pose proof epsilon_pos. unfold whiten.
  apply Rmult_le_pos; [exact Hp|]. apply Rlt_le, Rinv_0_lt_compat. lra.
Qed.

Lemma whiten_pos p : 0 < p -> 0 < whiten p.
Proof.
  intros Hp. pose proof epsilon_pos. unfold whiten.
  apply Rdiv_lt_0_compat; lra.
Qed.

Lemma whitened_idft s n W m :
  whitened s n W ->
  re (idft_coeff W n m)
  = Rsum n (fun k => whiten (power s n k) * cos (angle n k m)) / INR n.
Proof.
  intros (_ & HW). unfold idft_coeff. cbn [re]. f_equal.
  apply Rsum_ext. intros k Hk. destruct (HW k Hk) as (-> & ->). ring.
Qed.

(** The inverse transform of the whitened spectrum is largest at lag zero,
    and only there. *)
Lemma whitened_peak s W m :
  nonzero s ->
  let n := (length s + length s - 1)%nat in
  whitened s n W -> (0 < m < n)%nat ->
  re (idft_coeff W n m) < re (idft_coeff W n 0).
Proof.
  intros Hnz n HW Hm.
  assert (Hn : (0 < n)%nat) by lia.
  pose proof (lt_0_INR n Hn) as HnR.
  rewrite !(whitened_idft s n W) by exact HW.
  apply Rmult_lt_compat_r; [apply Rinv_0_lt_compat, HnR|].
  destruct (Rsum_pos_exists _ _ (power_gap s m Hnz Hm)) as (k0 & Hk0 & Hpos).
  fold n in Hk0, Hpos.
  apply Rsum_lt.
  - intros k _. replace (angle n k 0) with 0
      by (unfold angle, Rdiv; simpl; ring).
    rewrite cos_0.
    pose proof (whiten_nonneg _ (power_nonneg s n k)).
    pose proof (COS_bound (angle n k m)). nra.
  - exists k0. split; [exact Hk0|].
    replace (angle n k0 0) with 0 by (unfold angle, Rdiv; simpl; ring).
    rewrite cos_0.
    pose proof (power_nonneg s n k0) as Hp.
    pose proof (COS_bound (angle n k0 m)) as Hc.
    assert (Hp' : 0 < power s n k0) by nra.
    assert (Hc' : cos (angle n k0 m) < 1) by nra.
    pose proof (whiten_pos _ Hp'). nra.
Qed.

(** The re-centred correlation of a whitened spectrum has its first
    maximum at the centre. *)
Lemma whitened_first_max s W :
  nonzero s ->
  let n := (length s + length s - 1)%nat in
  whitened s n W ->
  first_max (fftshift (map re (map (idft_coeff W n) (seq 0 n)))) (n / 2).
Proof.
  intros Hnz n HW.
  destruct (nonzero_nth s Hnz) as (l0 & Hl0 & _).
  assert (Hn : (0 < n)%nat) by (unfold n; lia).
  set (r := map re (map (idft_coeff W n) (seq 0 n))).
  assert (Hlr : length r = n)
    by (unfold r; rewrite !length_map, length_seq; reflexivity).
  assert (Hr : forall i, (i < n)%nat -> nth i r 0 = re (idft_coeff W n i)).
  { intros i Hi. unfold r. rewrite map_map.
    apply (map_seq_nth (fun x => re (idft_coeff W n x))), Hi. }
  assert (Hhalf : (n / 2 < n)%nat) by (apply Nat.div_lt; lia).
  assert (Hcc : forall j, (j < n)%nat ->
            nth j (fftshift r) 0
            = re (idft_coeff W n ((j + (n - n / 2)) mod n))).
  { intros j Hj. rewrite fftshift_nth, Hlr by lia.
    apply Hr. apply Nat.mod_upper_bound. lia. }
  assert (Hidx : forall j, (j < n)%nat -> j <> (n / 2)%nat ->
            (0 < (j + (n - n / 2)) mod n < n)%nat).
  { intros j Hj Hne. split; [|apply Nat.mod_upper_bound; lia].
    destruct (Nat.lt_ge_cases j (n / 2)) as [H|H].
    - rewrite Nat.mod_small by lia. lia.
    - replace (j + (n - n / 2))%nat with ((j - n / 2) + 1 * n)%nat by lia.
      rewrite Nat.Div0.mod_add, Nat.mod_small by lia. lia. }
  assert (Hc0 : nth (n / 2) (fftshift r) 0 = re (idft_coeff W n 0)).
  { rewrite Hcc by exact Hhalf. f_equal. f_equal.
    replace (n / 2 + (n - n / 2))%nat with n by lia.
    apply Nat.Div0.mod_same. }
  repeat split.
  - rewrite fftshift_length, Hlr. exact Hhalf.
  - intros j Hj. rewrite fftshift_length, Hlr in Hj.
    rewrite Hc0. destruct (Nat.eq_dec j (n / 2)) as [->|Hne].
    + rewrite Hc0. lra.
    + rewrite Hcc by exact Hj.
      apply Rlt_le, (whitened_peak s W _ Hnz HW), Hidx; assumption.
  - intros j Hj. rewrite Hc0, Hcc by lia.
    apply (whitened_peak s W _ Hnz HW), Hidx; lia.
Qed.

End GccIdentical.

Section GccIdenticalClaims.
Import Np Tdoa Roots Spec.

Lemma cross_spectrum_nth x y n k :
  (k < n)%nat ->
  nth k (map2 Cmul (map (dft_coeff x n) (seq 0 n))
                   (map Cconj (map (dft_coeff y n) (seq 0 n)))) (mkC 0 0)
  = Cmul (dft_coeff x n k) (Cconj (dft_coeff y n k)).
Proof.
  intros Hk.
  rewrite map2_nth with (da := mkC 0 0) (db := mkC 0 0)
    by (rewrite !length_map, length_seq; exact Hk).
  rewrite map_map, !map_seq_nth by exact Hk. reflexivity.
Qed.

Lemma auto_spectrum_re s n k :
  re (Cmul (dft_coeff s n k) (Cconj (dft_coeff s n k))) = power s n k.
Proof. unfold power, Cmul, Cconj. cbn [re im]. ring. Qed.

Lemma auto_spectrum_im s n k :
  im (Cmul (dft_coeff s n k) (Cconj (dft_coeff s n k))) = 0.
Proof. unfold Cmul, Cconj. cbn [re im]. ring. Qed.

Lemma auto_spectrum_abs s n k :
  Cabs (Cmul (dft_coeff s n k) (Cconj (dft_coeff s n k))) = power s n k.
Proof.
  unfold Cabs. rewrite auto_spectrum_re, auto_spectrum_im.
  replace (power s n k * power s n k + 0 * 0)
    with (power s n k * power s n k) by ring.
  apply sqrt_square, power_nonneg.
Qed.

Lemma Cabs_sqr s n k : Cabs (dft_coeff s n k) ^ 2 = power s n k.
Proof. unfold Cabs. apply pow2_sqrt. apply power_nonneg. Qed.

(** On identical signals the [phat] weighting whitens the power spectrum. *)
Lemma weight_phat_whitened s n :
  let SIG := map (dft_coeff s n) (seq 0 n) in
  whitened s n (weight_phat (map2 Cmul SIG (map Cconj SIG))).
Proof.
  intros SIG. split.
  - rewrite weight_phat_length. apply cross_spectrum_length.
  - intros k Hk. unfold weight_phat.
    rewrite map2_nth with (da := mkC 0 0) (db := Cabs (mkC 0 0))
      by (rewrite ?length_map; unfold SIG; rewrite cross_spectrum_length; exact Hk).
    rewrite (map_nth Cabs). unfold SIG.
    rewrite cross_spectrum_nth by exact Hk.
    unfold Cdiv_real. cbn [re im].
    rewrite auto_spectrum_abs, auto_spectrum_re, auto_spectrum_im.
    split; [reflexivity | unfold Rdiv; ring].
Qed.

(** On identical signals the [scot] weighting does the same. *)
Lemma weight_scot_whitened s n :
  let SIG := map (dft_coeff s n) (seq 0 n) in
  whitened s n (weight_scot SIG SIG (map2 Cmul SIG (map Cconj SIG))).
Proof.
  intros SIG.
  assert (HlS : length SIG = n)
    by (unfold SIG; rewrite length_map, length_seq; reflexivity).
  assert (HlR : length (map2 Cmul SIG (map Cconj SIG)) = n)
    by apply cross_spectrum_length.
  split.
  - rewrite weight_scot_length; rewrite HlR; auto.
  - intros k Hk. unfold weight_scot.
    rewrite map2_nth with (da := mkC 0 0) (db := 0)
      by (rewrite ?map2_length, ?length_map, ?HlR, ?HlS, ?Nat.min_id; exact Hk).
    rewrite map2_nth with (da := 0) (db := 0)
      by (rewrite length_map, HlS; exact Hk).
    rewrite nth_indep with (d' := Cabs (mkC 0 0) ^ 2)
      by (rewrite length_map, HlS; exact Hk).
    rewrite (map_nth (fun s0 => Cabs s0 ^ 2)).
    unfold SIG at 3 4. rewrite map_seq_nth by exact Hk.
    unfold SIG. rewrite cross_spectrum_nth by exact Hk.
    rewrite Cabs_sqr, (sqrt_square _ (power_nonneg s n k)).
    unfold Cdiv_real. cbn [re im].
    rewrite auto_spectrum_re, auto_spectrum_im.
    split; [reflexivity | unfold Rdiv; ring].
Qed.

Lemma gcc_identical_whitened s n method W :
  let SIG := map (dft_coeff s n) (seq 0 n) in
  gcc_weighting method SIG SIG (map2 Cmul SIG (map Cconj SIG)) = Ok W ->
  whitened s n W.
Proof.
  intros SIG. unfold gcc_weighting.
  destruct (String.eqb (lower method) "phat").
  - intros E. injection E as <-. apply weight_phat_whitened.
  - destruct (String.eqb (lower method) "scot"); [|discriminate].
    intros E. injection E as <-. apply weight_scot_whitened.
Qed.

(** Identical signals that are not zero, under a recognised method. *)
Lemma estimate_tdoa_gcc_identical s fs method :
  nonzero s -> lower method = "phat" \/ lower method = "scot" ->
  estimate_tdoa_gcc s s fs method = Ok 0.
Proof.
  intros Hnz Hm.
  destruct (nonzero_nth s Hnz) as (l0 & Hl0 & _).
  assert (Hs : s <> []) by (intros ->; simpl in Hl0; lia).
  set (n := (length s + length s - 1)%nat).
  set (SIG := map (dft_coeff s n) (seq 0 n)).
  destruct (gcc_weighting_recognised method SIG SIG
              (map2 Cmul SIG (map Cconj SIG)) Hm) as (W & HW).
  pose proof (gcc_identical_whitened s n method W HW) as Hwh.
  rewrite (estimate_tdoa_gcc_first_max s s fs method W (n / 2) Hs Hs HW
             (whitened_first_max s W Hnz Hwh)).
  fold n. f_equal. rewrite Z.sub_diag. unfold Rdiv. ring.
Qed.

(** Silence under a recognised method: the correlation is flat and the
    first index, the lag [-(n/2)], is selected. *)
Lemma estimate_tdoa_gcc_zeros s fs method :
  s <> [] -> (forall l, nth l s 0 = 0) ->
  lower method = "phat" \/ lower method = "scot" ->
  let n := (length s + length s - 1)%nat in
  estimate_tdoa_gcc s s fs method = Ok (IZR (- Z.of_nat (n / 2)) / fs).
Proof.
  intros Hs Hz Hm n.
  pose proof (length_pos_of_ne _ Hs) as Hl.
  set (SIG := map (dft_coeff s n) (seq 0 n)).
  destruct (gcc_weighting_recognised method SIG SIG
              (map2 Cmul SIG (map Cconj SIG)) Hm) as (W & HW).
  pose proof (gcc_identical_whitened s n method W HW) as Hwh.
  rewrite (estimate_tdoa_gcc_first_max s s fs method W 0 Hs Hs HW).
  - reflexivity.
  - fold n. apply first_max_flat.
    + intros E. apply (f_equal (@length R)) in E.
      rewrite fftshift_length, !length_map, length_seq in E.
      simpl in E. unfold n in E. lia.
    + intros j.
      destruct (Nat.lt_ge_cases j n) as [Hj|Hj].
      * rewrite fftshift_nth by (rewrite !length_map, length_seq; exact Hj).
        rewrite !length_map, length_seq, map_map.
        rewrite (map_seq_nth (fun x => re (idft_coeff W n x)))
          by (apply Nat.mod_upper_bound; lia).
        rewrite (whitened_idft s n W) by exact Hwh.
        rewrite Rsum_zero; [unfold Rdiv; ring|].
        intros k _.
        assert (Hp : power s n k = 0).
        { unfold power, dft_coeff. cbn [re im].
          rewrite !Rsum_zero by (intros; rewrite Hz; ring). ring. }
        rewrite Hp. unfold whiten, Rdiv. ring.
      * apply nth_overflow.
        rewrite fftshift_length, !length_map, length_seq. exact Hj.
Qed.

(** C3, as amended: for a signal with at least one sample that is not zero
    and a positive sample rate, the same signal given twice yields a TDOA of
    zero under the cross-correlation method and under both GCC methods. *)
Theorem identical_signals_zero_tdoa (s : list R) (fs : R) :
  nonzero s -> 0 < fs ->
  estimate_tdoa_cc s s fs = Ok 0 /\
  estimate_tdoa_gcc s s fs "phat" = Ok 0 /\
  estimate_tdoa_gcc s s fs "scot" = Ok 0 /\
  forall method, lower method = "phat" \/ lower method = "scot" ->
                 estimate_tdoa_gcc s s fs method = Ok 0.
Proof.
  intros Hnz Hfs.
  split; [apply estimate_tdoa_cc_identical; assumption|].
  split; [apply estimate_tdoa_gcc_identical; [exact Hnz | left; reflexivity]|].
  split; [apply estimate_tdoa_gcc_identical; [exact Hnz | right; reflexivity]|].
  intros method Hm. apply estimate_tdoa_gcc_identical; assumption.
Qed.

Lemma identical_signals_zero_tdoa_witness :
  nonzero [1; 2; 3] /\ 0 < 48000 /\
  estimate_tdoa_cc [1; 2; 3] [1; 2; 3] 48000 = Ok 0 /\
  estimate_tdoa_gcc [1; 2; 3] [1; 2; 3] 48000 "phat" = Ok 0 /\
  estimate_tdoa_gcc [1; 2; 3] [1; 2; 3] 48000 "scot" = Ok 0.
Proof.
  assert (H1 : nonzero [1; 2; 3]) by (apply Exists_cons_hd; lra).
  assert (H2 : 0 < 48000) by lra.
  destruct (identical_signals_zero_tdoa [1; 2; 3] 48000 H1 H2) as (A & B & D & _).
  split; [exact H1 | split; [exact H2 | split; [exact A | split; [exact B | exact D]]]].
Defined.

(** C3 fails as stated: for the signal [[0; 0]] given twice every method
    returns [-1 / fs], one sample before zero lag. *)
Lemma identical_silence_nonzero_tdoa :
  estimate_tdoa_cc [0; 0] [0; 0] 1 = Ok (-1) /\
  estimate_tdoa_gcc [0; 0] [0; 0] 1 "phat" = Ok (-1) /\
  estimate_tdoa_gcc [0; 0] [0; 0] 1 "scot" = Ok (-1) /\
  Ok (-1) <> Ok 0.
Proof.
  split; [|split; [|split]].
  - rewrite estimate_tdoa_cc_zeros; try discriminate; [|apply nth_zeros2].
    f_equal. simpl. lra.
  - rewrite estimate_tdoa_gcc_zeros;
      [|discriminate | apply nth_zeros2 | left; reflexivity].
    f_equal. simpl. lra.
  - rewrite estimate_tdoa_gcc_zeros;
      [|discriminate | apply nth_zeros2 | right; reflexivity].
    f_equal. simpl. lra.
  - intros H. injection H as H. lra.
Qed.

End GccIdenticalClaims.

(** * Further properties of doa.py *)

Section DoaShape.
Import Doa Spec.

(** The three cases of the clamp. *)
Lemma clip_cases x :
  (x < -1 /\ clip x (-1) 1 = -1) \/
  (-1 <= x <= 1 /\ clip x (-1) 1 = x) \/
  (1 < x /\ clip x (-1) 1 = 1).
Proof.
  destruct (Rlt_le_dec x (-1)) as [H|H].
  - left. split; [exact H | apply clip_below, H].
  - destruct (Rle_lt_dec x 1) as [H'|H'].
    + right. left. split; [lra | apply clip_inside; lra].
    + right. right. split; [exact H' | apply clip_above, H'].
Qed.

Lemma clip_monotone x y : x <= y -> clip x (-1) 1 <= clip y (-1) 1.
Proof.
  intros H.
  destruct (clip_cases x) as [[? ->]|[[? ->]|[? ->]]];
    destruct (clip_cases y) as [[? ->]|[[? ->]|[? ->]]]; lra.
Qed.

Lemma clip_opp x : clip (- x) (-1) 1 = - clip x (-1) 1.
Proof.
  destruct (clip_cases x) as [[? ->]|[[? ->]|[? ->]]];
    destruct (clip_cases (- x)) as [[? ->]|[[? ->]|[? ->]]]; lra.
Qed.

Lemma clip_sign x : (0 < x -> 0 < clip x (-1) 1) /\ (x < 0 -> clip x (-1) 1 < 0).
Proof.
  destruct (clip_cases x) as [[? ->]|[[? ->]|[? ->]]]; split; lra.
Qed.

(** [acos] is decreasing on [[-1, 1]]. *)
Lemma acos_decreasing x y : -1 <= x -> x <= y -> y <= 1 -> acos y <= acos x.
Proof.
  intros Hx Hxy Hy.
  destruct (Rle_lt_dec (acos y) (acos x)) as [H|H]; [exact H|].
  exfalso.
  pose proof (acos_bound x) as [Hx0 Hx1].
  pose proof (acos_bound y) as [Hy0 Hy1].
  pose proof (cos_decreasing_1 (acos x) (acos y) Hx0 Hx1 Hy0 Hy1 H) as Hc.
  rewrite !cos_acos in Hc by lra. lra.
Qed.

Lemma acos_acute x : 0 < x -> x <= 1 -> acos x < PI / 2.
Proof.
  intros H0 H1.
  destruct (Rlt_le_dec (acos x) (PI / 2)) as [H|H]; [exact H|].
  exfalso.
  pose proof (acos_bound x) as [Ha Hb]. pose proof PI_RGT_0 as Hpi.
  assert (Hc : cos (acos x) <= cos (PI / 2)).
  { destruct H as [H|H].
    - apply Rlt_le, cos_decreasing_1; lra.
    - rewrite <- H. lra. }
  rewrite cos_acos, cos_PI2 in Hc by lra. lra.
Qed.

Lemma degrees_monotone x y : x <= y -> degrees x <= degrees y.
Proof.
  intros H. unfold degrees. pose proof PI_RGT_0.
  apply Rmult_le_compat_r; [|exact H].
  apply Rlt_le, Rdiv_lt_0_compat; lra.
Qed.

Lemma ratio_monotone t1 t2 d c :
  0 < d -> 0 < c -> t1 <= t2 -> t1 * c / d <= t2 * c / d.
Proof.
  intros Hd Hc H. unfold Rdiv.
  apply Rmult_le_compat_r; [apply Rlt_le, Rinv_0_lt_compat, Hd|].
  apply Rmult_le_compat_r; lra.
Qed.

(** X1: with a positive distance and sound speed the angle never grows when
    the TDOA grows. *)
Theorem doa_decreasing_in_tdoa (t1 t2 d c : R) :
  0 < d -> 0 < c -> t1 <= t2 ->
  exists a1 a2,
    estimate_doa_from_tdoa t1 d c = Ok a1 /\
    estimate_doa_from_tdoa t2 d c = Ok a2 /\
    a2 <= a1.
Proof.
  intros Hd Hc H.
  exists (degrees (acos (clip (t1 * c / d) (-1) 1))),
         (degrees (acos (clip (t2 * c / d) (-1) 1))).
  rewrite !estimate_doa_from_tdoa_eq by lra.
  split; [reflexivity | split; [reflexivity|]].
  apply degrees_monotone, acos_decreasing.
  - apply clip_range.
  - apply clip_monotone, ratio_monotone; assumption.
  - apply clip_range.
Qed.

Lemma doa_decreasing_in_tdoa_witness :
  0 < 1 / 10 /\ 0 < 343 /\ 0 <= 1 / 10000 /\
  exists a1 a2,
    estimate_doa_from_tdoa 0 (1 / 10) 343 = Ok a1 /\
    estimate_doa_from_tdoa (1 / 10000) (1 / 10) 343 = Ok a2 /\
    a2 <= a1.
Proof.
  split; [lra | split; [lra | split; [lra|]]].
  apply (doa_decreasing_in_tdoa 0 (1 / 10000) (1 / 10) 343); lra.
Defined.

(** X2: negating the TDOA mirrors the angle about broadside: the two
    angles add up to 180 degrees. *)
Theorem doa_mirror (t d c : R) :
  0 < d -> 0 < c ->
  exists a,
    estimate_doa_from_tdoa t d c = Ok a /\
    estimate_doa_from_tdoa (- t) d c = Ok (180 - a).
Proof.
  intros Hd Hc.
  exists (degrees (acos (clip (t * c / d) (-1) 1))).
  rewrite !estimate_doa_from_tdoa_eq by lra.
  split; [reflexivity|]. f_equal.
  replace (- t * c / d) with (- (t * c / d)) by (field; lra).
  rewrite clip_opp, acos_opp. unfold degrees.
  field. apply PI_neq0.
Qed.

Lemma doa_mirror_witness :
  0 < 1 / 10 /\ 0 < 343 /\
  exists a,
    estimate_doa_from_tdoa (1 / 10000) (1 / 10) 343 = Ok a /\
    estimate_doa_from_tdoa (- (1 / 10000)) (1 / 10) 343 = Ok (180 - a).
Proof.
  split; [lra | split; [lra|]].
  apply (doa_mirror (1 / 10000) (1 / 10) 343); lra.
Defined.

(** X3: a TDOA that is feasible for the distance and the sound speed
    ([|tdoa * c / d| <= 1]) is not altered by the clamp: the angle returned
    is the one whose far-field TDOA is the input. *)
Theorem doa_inverts_far_field (t d c : R) :
  0 < d -> 0 < c -> -1 <= t * c / d <= 1 ->
  exists theta,
    estimate_doa_from_tdoa t d c = Ok theta /\
    0 <= theta <= 180 /\
    tdoa_of_angle theta d c = t.
Proof.
  intros Hd Hc Hr.
  exists (degrees (acos (t * c / d))).
  rewrite estimate_doa_from_tdoa_eq, clip_inside by (lra || exact Hr).
  split; [reflexivity|].
  pose proof (acos_bound (t * c / d)) as [Ha Hb].
  pose proof PI_RGT_0 as Hpi.
  split.
  - unfold degrees. split.
    + apply Rmult_le_pos; [exact Ha|]. apply Rlt_le, Rdiv_lt_0_compat; lra.
    + replace 180 with (PI * (180 / PI)) at 2 by (field; lra).
      apply Rmult_le_compat_r; [|exact Hb].
      apply Rlt_le, Rdiv_lt_0_compat; lra.
  - unfold tdoa_of_angle, radians, degrees.
    replace (acos (t * c / d) * (180 / PI) * (PI / 180))
      with (acos (t * c / d)) by (field; lra).
    rewrite cos_acos by exact Hr. field. lra.
Qed.

Lemma doa_inverts_far_field_witness :
  0 < 1 / 10 /\ 0 < 343 /\ -1 <= (1 / 10000) * 343 / (1 / 10) <= 1 /\
  exists theta,
    estimate_doa_from_tdoa (1 / 10000) (1 / 10) 343 = Ok theta /\
    0 <= theta <= 180 /\
    tdoa_of_angle theta (1 / 10) 343 = 1 / 10000.
Proof.
  split; [lra | split; [lra | split; [lra|]]].
  apply (doa_inverts_far_field (1 / 10000) (1 / 10) 343); lra.
Defined.

(** X4: the sign of the TDOA tells the side of broadside: a positive TDOA
    gives an angle below 90 degrees, a negative one an angle above 90. *)
Theorem doa_side_of_broadside (t d c : R) :
  0 < d -> 0 < c ->
  exists a,
    estimate_doa_from_tdoa t d c = Ok a /\
    (0 < t -> a < 90) /\ (t < 0 -> 90 < a).
Proof.
  intros Hd Hc.
  exists (degrees (acos (clip (t * c / d) (-1) 1))).
  rewrite estimate_doa_from_tdoa_eq by lra.
  split; [reflexivity|].
  pose proof PI_RGT_0 as Hpi.
  assert (Hk : 0 < 180 / PI) by (apply Rdiv_lt_0_compat; lra).
  pose proof (clip_range (t * c / d)) as Hcr.
  split; intros Ht.
  - assert (Hpos : 0 < clip (t * c / d) (-1) 1).
    { assert (0 < t * c / d)
        by (apply Rdiv_lt_0_compat; [apply Rmult_lt_0_compat|]; lra).
      apply clip_sign. assumption. }
    pose proof (acos_acute _ Hpos (proj2 Hcr)) as Hac.
    rewrite <- degrees_half_PI. unfold degrees.
    apply Rmult_lt_compat_r; assumption.
  - assert (Hneg : 0 < - clip (t * c / d) (-1) 1).
    { assert (0 < - t * c / d)
        by (apply Rdiv_lt_0_compat; [apply Rmult_lt_0_compat|]; lra).
      replace (- t * c / d) with (- (t * c / d)) in H by (field; lra).
      pose proof (proj2 (clip_sign (t * c / d)) ltac:(lra)). lra. }
    assert (Hac : acos (- clip (t * c / d) (-1) 1) < PI / 2)
      by (apply acos_acute; lra).
    rewrite acos_opp in Hac.
    rewrite <- degrees_half_PI. unfold degrees.
    apply Rmult_lt_compat_r; [assumption | lra].
Qed.

Lemma doa_side_of_broadside_witness :
  0 < 1 / 10 /\ 0 < 343 /\
  exists a,
    estimate_doa_from_tdoa (1 / 10000) (1 / 10) 343 = Ok a /\
    (0 < 1 / 10000 -> a < 90) /\ (1 / 10000 < 0 -> 90 < a).
Proof.
  split; [lra | split; [lra|]].
  apply (doa_side_of_broadside (1 / 10000) (1 / 10) 343); lra.
Defined.

End DoaShape.

(** * Further properties of the cross-correlation method *)

Section CrossCorrelationShape.
Import Np Tdoa Spec Roots More.

Lemma argmax_from_scale c l : forall best bi i,
  0 < c ->
  argmax_from (c * best) bi i (map (Rmult c) l) = argmax_from best bi i l.
Proof.
  induction l as [|x t IH]; intros best bi i Hc; [reflexivity|].
  simpl. destruct (Rlt_dec (c * best) (c * x)) as [H|H];
    destruct (Rlt_dec best x) as [H'|H'].
  - apply IH, Hc.
  - exfalso. apply H'. apply Rmult_lt_reg_l with c; assumption.
  - exfalso. apply H. apply Rmult_lt_compat_l; assumption.
  - apply IH, Hc.
Qed.

Lemma argmax_scale c l : 0 < c -> argmax (map (Rmult c) l) = argmax l.
Proof.
  intros Hc. destruct l as [|x t]; [reflexivity|].
  simpl. f_equal. apply argmax_from_scale, Hc.
Qed.

Lemma sample_gain a s i : sample (gain a s) i = a * sample s i.
Proof.
  unfold sample, gain. destruct (i <? 0)%Z; [ring|].
  replace 0 with (a * 0) at 1 by ring. apply map_nth.
Qed.

Lemma nth_gain a s i : nth i (gain a s) 0 = a * nth i s 0.
Proof.
  unfold gain. replace 0 with (a * 0) at 1 by ring. apply map_nth.
Qed.

Lemma gain_length a s : length (gain a s) = length s.
Proof. apply length_map. Qed.

Lemma corr_lag_gain a b x y k :
  corr_lag (gain a x) (gain b y) k = a * b * corr_lag x y k.
Proof.
  unfold corr_lag. rewrite <- Rsum_scal, gain_length.
  apply Rsum_ext. intros l _.
  rewrite sample_gain, nth_gain. ring.
Qed.

Lemma correlate_gain a b x y :
  correlate (gain a x) (gain b y) = map (Rmult (a * b)) (correlate x y).
Proof.
  destruct x as [|x0 x]; [reflexivity|].
  destruct y as [|y0 y]; [reflexivity|].
  rewrite !correlate_eq by (unfold gain; simpl; discriminate).
  rewrite !gain_length, map_map.
  apply map_ext. intros k. apply corr_lag_gain.
Qed.

(** X5: gains of the same sign on the two signals do not change the
    TDOA of the cross-correlation method. *)
Theorem cc_gain_invariant (a b : R) (x y : list R) (fs : R) :
  x <> [] -> y <> [] -> 0 < fs -> 0 < a * b ->
  estimate_tdoa_cc (gain a x) (gain b y) fs = estimate_tdoa_cc x y fs.
Proof.
  intros Hx Hy Hfs Hab. unfold estimate_tdoa_cc.
  rewrite correlate_gain, argmax_scale by exact Hab.
  rewrite !gain_length. reflexivity.
Qed.

Lemma cc_gain_invariant_witness :
  [1; 2] <> [] /\ [3; 1] <> [] /\ 0 < 8000 /\ 0 < (-2) * (-3) /\
  estimate_tdoa_cc (gain (-2) [1; 2]) (gain (-3) [3; 1]) 8000
  = estimate_tdoa_cc [1; 2] [3; 1] 8000.
Proof.
  assert (H1 : [1; 2] <> []) by discriminate.
  assert (H2 : [3; 1] <> []) by discriminate.
  assert (H3 : 0 < 8000) by lra.
  assert (H4 : 0 < (-2) * (-3)) by lra.
  split; [exact H1 | split; [exact H2 | split; [exact H3 | split; [exact H4|]]]].
  apply (cc_gain_invariant (-2) (-3) [1; 2] [3; 1] 8000 H1 H2 H3 H4).
Defined.

Lemma corr_lag_delay_left k x y l :
  corr_lag (delay k x) y l = corr_lag x y (l - Z.of_nat k).
Proof.
  unfold corr_lag. apply Rsum_ext. intros i _.
  rewrite sample_delay. f_equal. f_equal. lia.
Qed.

Lemma corr_lag_delay_right k x y l :
  corr_lag x (delay k y) l = corr_lag x y (l + Z.of_nat k).
Proof.
  unfold corr_lag. rewrite delay_length, Rsum_app.
  rewrite Rsum_zero
    by (intros i Hi; rewrite delay_nth_low by exact Hi; ring).
  rewrite Rplus_0_l. apply Rsum_ext. intros i _.
  rewrite delay_nth_high. f_equal. f_equal. lia.
Qed.

(** No overlap, no correlation. *)
Lemma corr_lag_outside x y l :
  (l <= - Z.of_nat (length y) \/ Z.of_nat (length x) <= l)%Z ->
  corr_lag x y l = 0.
Proof.
  intros H. unfold corr_lag. apply Rsum_zero. intros i Hi.
  destruct H as [H|H].
  - rewrite sample_neg by lia. ring.
  - rewrite sample_overflow by lia. ring.
Qed.

Lemma delay_ne k x : x <> [] -> delay k x <> [].
Proof.
  intros Hx E. pose proof (delay_length k x) as HL.
  pose proof (length_pos_of_ne _ Hx). rewrite E in HL. simpl in HL. lia.
Qed.

(** The first maximum and the value returned determine each other. *)
Lemma estimate_tdoa_cc_defined x y fs :
  x <> [] -> y <> [] ->
  exists i, first_max (correlate x y) i /\
            estimate_tdoa_cc x y fs
            = Ok (IZR (Z.of_nat i - (Z.of_nat (length y) - 1)) / fs).
Proof.
  intros Hx Hy.
  destruct (argmax_defined (correlate x y)) as (i & _ & Hfm).
  { intros E. pose proof (correlate_length _ _ Hx Hy) as HL.
    pose proof (length_pos_of_ne _ Hx). pose proof (length_pos_of_ne _ Hy).
    rewrite E in HL. simpl in HL. lia. }
  exists i. split; [exact Hfm|].
  apply estimate_tdoa_cc_first_max; assumption.
Qed.

(** A positive correlation value makes the maximum positive. *)
Lemma first_max_positive x y i l :
  x <> [] -> y <> [] ->
  first_max (correlate x y) i -> 0 < corr_lag x y l ->
  0 < nth i (correlate x y) 0.
Proof.
  intros Hx Hy (Hi & Hmax & _) Hl.
  pose proof (length_pos_of_ne _ Hx). pose proof (length_pos_of_ne _ Hy).
  rewrite correlate_length in Hmax by assumption.
  destruct (Z_lt_le_dec (- Z.of_nat (length y)) l) as [Hlo|Hlo];
    [|rewrite corr_lag_outside in Hl by lia; lra].
  destruct (Z_lt_le_dec l (Z.of_nat (length x))) as [Hhi|Hhi];
    [|rewrite corr_lag_outside in Hl by lia; lra].
  specialize (Hmax (Z.to_nat (l + (Z.of_nat (length y) - 1))) ltac:(lia)).
  rewrite (correlate_nth x y (Z.to_nat _)) in Hmax by (try assumption; lia).
  replace (Z.of_nat (Z.to_nat (l + (Z.of_nat (length y) - 1)))
           - (Z.of_nat (length y) - 1))%Z with l in Hmax by lia.
  lra.
Qed.

(** X6: when some correlation value is positive, delaying the first signal
    by [k] samples adds [k / fs] to the TDOA and delaying the second signal
    by [k] samples subtracts [k / fs]. *)
Theorem cc_delay_shifts_tdoa (x y : list R) (k : nat) (fs : R) :
  x <> [] -> y <> [] -> 0 < fs ->
  (exists l, 0 < corr_lag x y l) ->
  exists t,
    estimate_tdoa_cc x y fs = Ok t /\
    estimate_tdoa_cc (delay k x) y fs = Ok (t + INR k / fs) /\
    estimate_tdoa_cc x (delay k y) fs = Ok (t - INR k / fs).
Proof.
  intros Hx Hy Hfs (l & Hl).
  pose proof (length_pos_of_ne _ Hx) as Hlx.
  pose proof (length_pos_of_ne _ Hy) as Hly.
  destruct (estimate_tdoa_cc_defined x y fs Hx Hy) as (i & Hfm & E).
  pose proof (first_max_positive x y i l Hx Hy Hfm Hl) as Hpos.
  destruct Hfm as (Hi & Hmax & Hfirst).
  rewrite correlate_length in Hi, Hmax by assumption.
  rewrite correlate_nth in Hpos by assumption.
  exists (IZR (Z.of_nat i - (Z.of_nat (length y) - 1)) / fs).
  split; [exact E|]. split.
  - rewrite (estimate_tdoa_cc_first_max (delay k x) y fs (k + i)).
    + f_equal. rewrite INR_IZR_INZ.
      replace (Z.of_nat (k + i) - (Z.of_nat (length y) - 1))%Z
        with ((Z.of_nat i - (Z.of_nat (length y) - 1)) + Z.of_nat k)%Z by lia.
      rewrite plus_IZR. unfold Rdiv. ring.
    + apply delay_ne, Hx.
    + exact Hy.
    + assert (Hval : forall j, (j < k + length x + length y - 1)%nat ->
                nth j (correlate (delay k x) y) 0
                = corr_lag x y (Z.of_nat j - Z.of_nat k - (Z.of_nat (length y) - 1))).
      { intros j Hj.
        rewrite correlate_nth
          by (try apply delay_ne; try assumption; rewrite delay_length; lia).
        rewrite corr_lag_delay_left. f_equal. lia. }
      repeat split.
      * rewrite correlate_length, delay_length
          by (try apply delay_ne; assumption). lia.
      * intros j Hj.
        rewrite correlate_length, delay_length in Hj
          by (try apply delay_ne; assumption).
        rewrite !Hval by lia.
        replace (Z.of_nat (k + i) - Z.of_nat k - (Z.of_nat (length y) - 1))%Z
          with (Z.of_nat i - (Z.of_nat (length y) - 1))%Z by lia.
        destruct (Nat.lt_ge_cases j k) as [Hjk|Hjk].
        -- rewrite corr_lag_outside by lia. lra.
        -- specialize (Hmax (j - k)%nat ltac:(lia)).
           rewrite !correlate_nth in Hmax by (try assumption; lia).
           replace (Z.of_nat j - Z.of_nat k)%Z with (Z.of_nat (j - k)) by lia.
           exact Hmax.
      * intros j Hj. rewrite !Hval by lia.
        replace (Z.of_nat (k + i) - Z.of_nat k - (Z.of_nat (length y) - 1))%Z
          with (Z.of_nat i - (Z.of_nat (length y) - 1))%Z by lia.
        destruct (Nat.lt_ge_cases j k) as [Hjk|Hjk].
        -- rewrite corr_lag_outside by lia. lra.
        -- specialize (Hfirst (j - k)%nat ltac:(lia)).
           rewrite !correlate_nth in Hfirst by (try assumption; lia).
           replace (Z.of_nat j - Z.of_nat k)%Z with (Z.of_nat (j - k)) by lia.
           exact Hfirst.
  - rewrite (estimate_tdoa_cc_first_max x (delay k y) fs i).
    + f_equal. rewrite INR_IZR_INZ, delay_length.
      replace (Z.of_nat i - (Z.of_nat (k + length y) - 1))%Z
        with ((Z.of_nat i - (Z.of_nat (length y) - 1)) - Z.of_nat k)%Z by lia.
      rewrite minus_IZR. unfold Rdiv. ring.
    + exact Hx.
    + apply delay_ne, Hy.
    + assert (Hval : forall j, (j < length x + (k + length y) - 1)%nat ->
                nth j (correlate x (delay k y)) 0
                = corr_lag x y (Z.of_nat j - (Z.of_nat (length y) - 1))).
      { intros j Hj.
        rewrite correlate_nth
          by (try apply delay_ne; try assumption; rewrite delay_length; lia).
        rewrite corr_lag_delay_right, delay_length. f_equal. lia. }
      repeat split.
      * rewrite correlate_length, delay_length
          by (try apply delay_ne; assumption). lia.
      * intros j Hj.
        rewrite correlate_length, delay_length in Hj
          by (try apply delay_ne; assumption).
        rewrite !Hval by lia.
        destruct (Nat.lt_ge_cases j (length x + length y - 1)) as [Hjn|Hjn].
        -- specialize (Hmax j Hjn).
           rewrite !correlate_nth in Hmax by (try assumption; lia).
           exact Hmax.
        -- rewrite (corr_lag_outside x y (Z.of_nat j - _)) by lia. lra.
      * intros j Hj. rewrite !Hval by lia.
        specialize (Hfirst j Hj).
        rewrite !correlate_nth in Hfirst by (try assumption; lia).
        exact Hfirst.
Qed.

Lemma cc_delay_shifts_tdoa_witness :
  [1; 2] <> [] /\ [2; 1] <> [] /\ 0 < 8000 /\
  (exists l, 0 < corr_lag [1; 2] [2; 1] l) /\
  exists t,
    estimate_tdoa_cc [1; 2] [2; 1] 8000 = Ok t /\
    estimate_tdoa_cc (delay 3 [1; 2]) [2; 1] 8000 = Ok (t + INR 3 / 8000) /\
    estimate_tdoa_cc [1; 2] (delay 3 [2; 1]) 8000 = Ok (t - INR 3 / 8000).
Proof.
  assert (H1 : [1; 2] <> []) by discriminate.
  assert (H2 : [2; 1] <> []) by discriminate.
  assert (H3 : 0 < 8000) by lra.
  assert (H4 : exists l, 0 < corr_lag [1; 2] [2; 1] l).
  { exists 0%Z. unfold corr_lag, sample. simpl. lra. }
  split; [exact H1 | split; [exact H2 | split; [exact H3 | split; [exact H4|]]]].
  apply (cc_delay_shifts_tdoa [1; 2] [2; 1] 3 8000 H1 H2 H3 H4).
Defined.

(** X7: when the correlation has a single maximum, exchanging the two
    signals negates the TDOA. *)
Theorem cc_exchange_negates_tdoa (x y : list R) (fs : R) :
  x <> [] -> y <> [] -> 0 < fs ->
  unique_max (correlate x y) ->
  exists t,
    estimate_tdoa_cc x y fs = Ok t /\
    estimate_tdoa_cc y x fs = Ok (- t).
Proof.
  intros Hx Hy Hfs (i & Hi & Huniq).
  pose proof (length_pos_of_ne _ Hx) as Hlx.
  pose proof (length_pos_of_ne _ Hy) as Hly.
  rewrite correlate_length in Hi, Huniq by assumption.
  set (n := (length x + length y - 1)%nat) in *.
  assert (Hfm : first_max (correlate x y) i).
  { repeat split.
    - rewrite correlate_length by assumption. exact Hi.
    - intros j Hj. rewrite correlate_length in Hj by assumption.
      destruct (Nat.eq_dec j i) as [->|Hne]; [lra|].
      apply Rlt_le, Huniq; assumption.
    - intros j Hj. apply Huniq; lia. }
  exists (IZR (Z.of_nat i - (Z.of_nat (length y) - 1)) / fs).
  split; [apply estimate_tdoa_cc_first_max; assumption|].
  assert (Hval : forall j, (j < n)%nat ->
            nth j (correlate y x) 0 = nth (n - 1 - j) (correlate x y) 0).
  { intros j Hj.
    rewrite !correlate_nth by (try assumption; unfold n in *; lia).
    rewrite corr_lag_exchange. f_equal. unfold n in *. lia. }
  assert (Hfm' : first_max (correlate y x) (n - 1 - i)).
  { repeat split.
    - rewrite correlate_length by assumption. unfold n in *. lia.
    - intros j Hj. rewrite correlate_length in Hj by assumption.
      rewrite !Hval by (unfold n in *; lia).
      replace (n - 1 - (n - 1 - i))%nat with i by lia.
      destruct (Nat.eq_dec (n - 1 - j) i) as [->|Hne]; [lra|].
      apply Rlt_le, Huniq; unfold n in *; lia.
    - intros j Hj. rewrite !Hval by lia.
      replace (n - 1 - (n - 1 - i))%nat with i by lia.
      apply Huniq; lia. }
  rewrite (estimate_tdoa_cc_first_max y x fs (n - 1 - i) Hy Hx Hfm').
  f_equal.
  replace (Z.of_nat (n - 1 - i) - (Z.of_nat (length x) - 1))%Z
    with (- (Z.of_nat i - (Z.of_nat (length y) - 1)))%Z by (unfold n; lia).
  rewrite opp_IZR. unfold Rdiv. ring.
Qed.

Lemma cc_exchange_negates_tdoa_witness :
  [0; 1] <> [] /\ [1; 0] <> [] /\ 0 < 8000 /\
  unique_max (correlate [0; 1] [1; 0]) /\
  exists t,
    estimate_tdoa_cc [0; 1] [1; 0] 8000 = Ok t /\
    estimate_tdoa_cc [1; 0] [0; 1] 8000 = Ok (- t).
Proof.
  assert (H1 : [0; 1] <> []) by discriminate.
  assert (H2 : [1; 0] <> []) by discriminate.
  assert (H3 : 0 < 8000) by lra.
  assert (H4 : unique_max (correlate [0; 1] [1; 0])).
  { exists 2%nat. unfold correlate, correlation_lags, arange, corr_lag, sample.
    simpl. split; [lia|].
    intros j Hj Hne. destruct j as [|[|[|j]]]; simpl; try lra; lia. }
  split; [exact H1 | split; [exact H2 | split; [exact H3 | split; [exact H4|]]]].
  apply (cc_exchange_negates_tdoa [0; 1] [1; 0] 8000 H1 H2 H3 H4).
Defined.

End CrossCorrelationShape.

(** * Further properties of the generalised cross-correlation *)

Section GccShape.
Import Np Tdoa Spec Roots.

(** X8: when the two signals hold at most one sample together the
    transform length is below one and the function raises the
    [ValueError] of the transform, whatever the method, known or not. *)
Theorem gcc_too_short_raises (sig1 sig2 : list R) (fs : R) (method : string) :
  (length sig1 + length sig2 <= 1)%nat ->
  exists msg,
    estimate_tdoa_gcc sig1 sig2 fs method = Raise (ValueError msg) /\
    msg <> gcc_error_message.
Proof.
  intros H. unfold estimate_tdoa_gcc, fft.
  destruct (Z.ltb_spec (Z.of_nat (length sig1) + Z.of_nat (length sig2) - 1) 1)
    as [_|Hn]; [|lia].
  eexists. split; [reflexivity | discriminate].
Qed.

Lemma gcc_too_short_raises_witness :
  (length ([1]%R : list R) + length (@nil R) <= 1)%nat /\
  exists msg,
    estimate_tdoa_gcc [1] [] 8000 "phat" = Raise (ValueError msg) /\
    msg <> gcc_error_message.
Proof.
  assert (H : (length ([1]%R : list R) + length (@nil R) <= 1)%nat) by (simpl; lia).
  split; [exact H|].
  apply (gcc_too_short_raises [1] [] 8000 "phat" H).
Defined.

Lemma whitened_unique s n W1 W2 : whitened s n W1 -> whitened s n W2 -> W1 = W2.
Proof.
  intros (Hl1 & H1) (Hl2 & H2).
  apply nth_ext with (d := mkC 0 0) (d' := mkC 0 0); [congruence|].
  intros k Hk. rewrite Hl1 in Hk.
  destruct (H1 k Hk) as (Hr1 & Hi1). destruct (H2 k Hk) as (Hr2 & Hi2).
  destruct (nth k W1 (mkC 0 0)) as [r1 i1], (nth k W2 (mkC 0 0)) as [r2 i2].
  cbn [re im] in *. congruence.
Qed.

(** X9: on identical inputs the two weightings give the same spectrum, so
    [phat] and [scot] return the same result. *)
Theorem gcc_methods_agree_on_identical (s : list R) (fs : R) :
  estimate_tdoa_gcc s s fs "phat" = estimate_tdoa_gcc s s fs "scot".
Proof.
  unfold estimate_tdoa_gcc.
  set (n := (Z.of_nat (length s) + Z.of_nat (length s) - 1)%Z).
  unfold fft. destruct (Z.ltb_spec n 1) as [Hn|Hn]; [reflexivity|].
  cbn [bind].
  rewrite gcc_weighting_phat, gcc_weighting_scot by reflexivity.
  rewrite (whitened_unique s (Z.to_nat n) _ _
             (weight_phat_whitened s (Z.to_nat n))
             (weight_scot_whitened s (Z.to_nat n))).
  reflexivity.
Qed.

End GccShape.

(** * File names *)

Section FileNames.
Import OsPath Main Simulation Files.

Lemma append_cancel_l (a b c : string) :
  (a ++ b)%string = (a ++ c)%string -> b = c.
Proof.
  induction a as [|ch a IH]; simpl; intros H; [exact H|].
  injection H as H. apply IH, H.
Qed.

Lemma append_assoc (a b c : string) :
  ((a ++ b) ++ c)%string = (a ++ (b ++ c))%string.
Proof. induction a as [|ch a IH]; simpl; [reflexivity | rewrite IH; reflexivity]. Qed.

Lemma append_length (a b : string) :
  String.length (a ++ b)%string = (String.length a + String.length b)%nat.
Proof. induction a as [|ch a IH]; simpl; [reflexivity | rewrite IH; reflexivity]. Qed.

Lemma append_cancel_r (a b c : string) :
  (a ++ c)%string = (b ++ c)%string -> a = b.
Proof.
  revert b. induction a as [|ch a IH]; intros [|ch' b] H; simpl in H.
  - reflexivity.
  - exfalso. apply (f_equal String.length) in H.
    simpl in H. rewrite append_length in H. lia.
  - exfalso. apply (f_equal String.length) in H.
    simpl in H. rewrite append_length in H. lia.
  - injection H as -> H. f_equal. apply IH, H.
Qed.

Lemma substring_split (p : string) : forall n,
  (n <= String.length p)%nat ->
  (substring 0 n p ++ substring n (String.length p - n) p)%string = p.
Proof.
  induction p as [|ch p IH]; intros n Hn.
  - simpl in Hn. replace n with 0%nat by lia. reflexivity.
  - destruct n as [|n].
    + simpl. f_equal.
      clear. induction p as [|c p IH]; simpl; [reflexivity | f_equal; exact IH].
    + simpl in *. f_equal. apply IH. lia.
Qed.

Lemma rfind_from_bound c s : forall i last,
  (last < i)%Z ->
  (rfind_from c s i last < i + Z.of_nat (String.length s))%Z.
Proof.
  induction s as [|ch s IH]; intros i last H; simpl.
  - lia.
  - specialize (IH (i + 1)%Z (if Ascii.eqb ch c then i else last)).
    destruct (Ascii.eqb ch c); lia.
Qed.

(** The two parts that [splitext] returns make up the path. *)
Lemma splitext_recombine p :
  (fst (splitext p) ++ snd (splitext p))%string = p.
Proof.
  assert (Hnil : forall q : string, (q ++ "")%string = q).
  { induction q as [|c q IH]; simpl; [reflexivity | rewrite IH; reflexivity]. }
  unfold splitext.
  destruct (Z.ltb_spec (rfind "/" p) (rfind "." p)) as [H|H]; [|apply Hnil].
  destruct (all_dots _); [apply Hnil|].
  cbn [fst snd]. apply substring_split.
  pose proof (rfind_from_bound "." p 0 (-1) ltac:(lia)). unfold rfind. lia.
Qed.

Lemma str_injective i j : str i = str j -> i = j.
Proof.
  unfold str. intros H.
  apply (f_equal DecimalString.NilEmpty.uint_of_string) in H.
  rewrite !DecimalString.NilEmpty.usu in H. injection H as H.
  apply (f_equal Nat.of_uint) in H.
  rewrite !DecimalNat.Unsigned.of_to in H. exact H.
Qed.

Lemma rir_filename_injective base i j :
  rir_filename base i = rir_filename base j -> i = j.
Proof.
  unfold rir_filename. intros H.
  apply append_cancel_l, append_cancel_l, append_cancel_r in H.
  apply str_injective, H.
Qed.

Lemma output_filename_mic_injective base i j :
  output_filename_mic base i = output_filename_mic base j -> i = j.
Proof.
  unfold output_filename_mic. cbv zeta. intros H.
  apply append_cancel_l, append_cancel_l, append_cancel_r in H.
  apply str_injective, H.
Qed.

(** X10: the name under which [load_rirs] looks for microphone [idx] is
    the name under which [create_rir_example] saves it exactly when the
    extension of the base path is [.wav]; and two microphones never share
    a name, on either side. *)
Theorem names_agree_iff_wav (base : string) (idx : nat) :
  (rir_filename (fst (splitext base)) idx = output_filename_mic base idx
   <-> snd (splitext base) = ".wav"%string) /\
  (forall j, output_filename_mic base idx = output_filename_mic base j -> idx = j) /\
  (forall j, rir_filename (fst (splitext base)) idx
             = rir_filename (fst (splitext base)) j -> idx = j).
Proof.
  split; [|split].
  - unfold rir_filename, output_filename_mic. cbv zeta. split.
    + intros H. apply append_cancel_l, append_cancel_l, append_cancel_l in H.
      symmetry. exact H.
    + intros ->. reflexivity.
  - intros j. apply output_filename_mic_injective.
  - intros j. apply rir_filename_injective.
Qed.

End FileNames.

(** * Properties of main.py: loading *)

Section Loading.
Import Np OsPath Main Files.

(** The sample rate kept after files with the rates [rates] were read. *)
Lemma load_fold fsys base idxs : forall rirs fs_rir,
  fold_left (load_step fsys base) idxs (rirs, fs_rir)
  = (rirs ++ map fst (flat_map (loaded fsys base) idxs),
     fold_left (fun acc cur => if (acc =? -1)%Z then cur else acc)
               (map snd (flat_map (loaded fsys base) idxs)) fs_rir).
Proof.
  induction idxs as [|idx rest IH]; intros rirs fs_rir.
  - simpl. rewrite app_nil_r. reflexivity.
  - cbn [fold_left flat_map]. unfold load_step at 2, loaded at 1 3.
    destruct (fsys (rir_filename base idx)) as [[a r|]|].
    + rewrite IH. cbn [app map fold_left fst snd].
      rewrite <- app_assoc. reflexivity.
    + rewrite IH. reflexivity.
    + rewrite IH. reflexivity.
Qed.

Lemma rate_kept rates : forall r0,
  r0 <> (-1)%Z ->
  fold_left (fun acc cur => if (acc =? -1)%Z then cur else acc) rates r0 = r0.
Proof.
  induction rates as [|r rates IH]; intros r0 H; [reflexivity|].
  simpl. destruct (Z.eqb_spec r0 (-1)); [contradiction|]. apply IH, H.
Qed.

Lemma load_rirs_eq fsys template n :
  load_rirs fsys template n
  = match readable_files fsys template n with
    | [] => ([], (-1)%Z)
    | (a, r) :: rest =>
        (map fst ((a, r) :: rest),
         fold_left (fun acc cur => if (acc =? -1)%Z then cur else acc)
                   (map snd rest) r)
    end.
Proof.
  unfold load_rirs, readable_files. cbv zeta.
  rewrite load_fold. cbn [app].
  destruct (flat_map _ _) as [|[a r] rest]; reflexivity.
Qed.

Lemma readable_files_length fsys template n :
  (length (readable_files fsys template n) <= n)%nat.
Proof.
  unfold readable_files. generalize (fst (splitext template)) as base.
  intros base. generalize 0%nat as start.
  induction n as [|n IH]; intros start; simpl; [lia|].
  rewrite length_app. specialize (IH (S start)).
  unfold loaded at 1. destruct (fsys _) as [[a r|]|]; simpl; lia.
Qed.

(** X11: [load_rirs] returns the signals of the files that are there and
    readable, in the order of the microphone indices and at most
    [num_mics] of them; a file that is missing or unreadable is passed
    over, so that later signals move down in the list.  It returns
    [([], -1)] exactly when no file could be read. *)
Theorem load_rirs_signals (fsys : filesystem) (template : string) (num_mics : nat) :
  fst (load_rirs fsys template num_mics)
  = map fst (readable_files fsys template num_mics) /\
  (length (fst (load_rirs fsys template num_mics)) <= num_mics)%nat /\
  (load_rirs fsys template num_mics = ([], (-1)%Z)
   <-> readable_files fsys template num_mics = []).
Proof.
  pose proof (readable_files_length fsys template num_mics) as Hlen.
  rewrite load_rirs_eq.
  destruct (readable_files fsys template num_mics) as [|[a r] rest].
  - split; [reflexivity|]. split; [simpl; lia|]. split; reflexivity.
  - cbn [fst]. split; [reflexivity|].
    split; [rewrite length_map; exact Hlen|].
    split; discriminate.
Qed.

(** X12: when the first readable file has a sample rate other than the
    sentinel [-1], that rate is the one returned, whatever the rates of the
    files read after it: a mismatch is not rejected. *)
Theorem load_rirs_rate (fsys : filesystem) (template : string) (num_mics : nat)
  (a : audio) (r : Z) (rest : list (audio * Z)) :
  readable_files fsys template num_mics = (a, r) :: rest ->
  r <> (-1)%Z ->
  snd (load_rirs fsys template num_mics) = r.
Proof.
  intros E Hr. rewrite load_rirs_eq, E. cbn [snd].
  apply rate_kept, Hr.
Qed.

Lemma load_rirs_rate_witness :
  readable_files Example.two_rates "d/r.wav" 2
  = [(Mono [1; 2], 44100%Z); (Mono [2; 1], 48000%Z)] /\
  44100%Z <> (-1)%Z /\
  snd (load_rirs Example.two_rates "d/r.wav" 2) = 44100%Z.
Proof.
  assert (H1 : readable_files Example.two_rates "d/r.wav" 2
               = [(Mono [1; 2], 44100%Z); (Mono [2; 1], 48000%Z)])
    by reflexivity.
  assert (H2 : 44100%Z <> (-1)%Z) by lia.
  split; [exact H1 | split; [exact H2|]].
  apply (load_rirs_rate Example.two_rates "d/r.wav" 2 _ _ _ H1 H2).
Defined.

End Loading.

(** * Properties of main.py: processing *)

Section Processing.
Import Np Tdoa Doa Spec OsPath Main Files.

(** On non-empty signals a recognised method returns a value. *)
Lemma estimate_tdoa_gcc_defined sig1 sig2 fs method :
  sig1 <> [] -> sig2 <> [] ->
  lower method = "phat" \/ lower method = "scot" ->
  exists t, estimate_tdoa_gcc sig1 sig2 fs method = Ok t.
Proof.
  intros H1 H2 Hm.
  pose proof (length_pos_of_ne _ H1). pose proof (length_pos_of_ne _ H2).
  set (n := (length sig1 + length sig2 - 1)%nat).
  set (SIG1 := map (dft_coeff sig1 n) (seq 0 n)).
  set (SIG2 := map (dft_coeff sig2 n) (seq 0 n)).
  destruct (gcc_weighting_recognised method SIG1 SIG2
              (map2 Cmul SIG1 (map Cconj SIG2)) Hm) as (W & HW).
  destruct (argmax_defined (fftshift (map re (map (idft_coeff W n) (seq 0 n)))))
    as (i & _ & Hfm).
  { intros E. apply (f_equal (@length R)) in E.
    rewrite fftshift_length, !length_map, length_seq in E.
    simpl in E. unfold n in E. lia. }
  eexists.
  apply (estimate_tdoa_gcc_first_max sig1 sig2 fs method W i H1 H2 HW Hfm).
Qed.

Lemma estimate_doa_defined t d :
  0 < d -> exists a, estimate_doa t d = Ok a /\ angle_ok a.
Proof.
  intros Hd. unfold estimate_doa.
  rewrite estimate_doa_from_tdoa_eq by lra.
  eexists. split; [reflexivity|].
  pose proof (acos_bound (clip (t * C / d) (-1) 1)) as [Ha Hb].
  pose proof PI_RGT_0 as Hpi. unfold angle_ok, degrees. split.
  - apply Rmult_le_pos; [exact Ha|]. apply Rlt_le, Rdiv_lt_0_compat; lra.
  - replace 180 with (PI * (180 / PI)) at 2 by (field; lra).
    apply Rmult_le_compat_r; [|exact Hb].
    apply Rlt_le, Rdiv_lt_0_compat; lra.
Qed.

Lemma estimate_doa_zero d : 0 < d -> estimate_doa 0 d = Ok 90.
Proof.
  intros Hd. unfold estimate_doa.
  rewrite estimate_doa_from_tdoa_eq by lra.
  replace (0 * C / d) with 0 by (field; lra).
  rewrite clip_inside by lra. rewrite acos_0, degrees_half_PI. reflexivity.
Qed.

Lemma frames_ne a : (0 < frames_of a)%nat -> first_channel a <> [].
Proof. unfold frames_of. intros H E. rewrite E in H. simpl in H. lia. Qed.

Lemma process_pair_defined rirs fs d i :
  (i + 1 < length rirs)%nat ->
  Forall (fun a => (0 < frames_of a)%nat) rirs -> 0 < d ->
  exists r, process_pair rirs fs d i = Ok r /\ pair_index r = i /\ angles_ok_of r.
Proof.
  intros Hi Hall Hd. unfold process_pair.
  rewrite (getitem_nth rirs i (Mono [])) by lia. cbn [bind].
  rewrite (getitem_nth rirs (i + 1) (Mono [])) by lia. cbn [bind].
  rewrite Forall_forall in Hall.
  assert (H1 : first_channel (nth i rirs (Mono [])) <> [])
    by (apply frames_ne, Hall, nth_In; lia).
  assert (H2 : first_channel (nth (i + 1) rirs (Mono [])) <> [])
    by (apply frames_ne, Hall, nth_In; lia).
  destruct (estimate_tdoa_cc_defined _ _ (IZR fs) H1 H2) as (j & _ & ->).
  destruct (estimate_tdoa_gcc_defined _ _ (IZR fs) "phat" H1 H2) as (tp & ->);
    [left; reflexivity|].
  destruct (estimate_tdoa_gcc_defined _ _ (IZR fs) "scot" H1 H2) as (ts & ->);
    [right; reflexivity|].
  cbn [bind].
  match goal with |- context [estimate_doa ?t d] =>
    destruct (estimate_doa_defined t d Hd) as (a1 & -> & Ha1) end.
  cbn [bind].
  destruct (estimate_doa_defined tp d Hd) as (a2 & -> & Ha2).
  destruct (estimate_doa_defined ts d Hd) as (a3 & -> & Ha3).
  cbn [bind]. eexists. split; [reflexivity|].
  split; [reflexivity|]. split; [|split]; assumption.
Qed.

Lemma process_pairs_defined rirs fs d idxs :
  Forall (fun i => (i + 1 < length rirs)%nat) idxs ->
  Forall (fun a => (0 < frames_of a)%nat) rirs -> 0 < d ->
  exists reports,
    process_pairs rirs fs d idxs = (reports, None) /\
    map pair_index reports = idxs /\
    Forall angles_ok_of reports.
Proof.
  intros Hidx Hall Hd. induction idxs as [|i rest IH].
  - exists []. repeat split; constructor.
  - inversion Hidx as [|? ? Hi Hrest]; subst.
    destruct (process_pair_defined rirs fs d i Hi Hall Hd) as (r & Er & Ei & Ha).
    destruct (IH Hrest) as (reports & E & Em & Hf).
    exists (r :: reports). cbn [process_pairs]. rewrite Er, E.
    split; [reflexivity|]. split; [simpl; congruence|].
    constructor; assumption.
Qed.

(** X13: with fewer than two readable files [process_configuration]
    estimates nothing and raises nothing. *)
Theorem process_configuration_too_few (fsys : filesystem) (template : string)
  (num_mics : nat) (mic_distance : R) :
  (length (readable_files fsys template num_mics) < 2)%nat ->
  process_configuration fsys template num_mics mic_distance = ([], None).
Proof.
  intros H. unfold process_configuration. rewrite load_rirs_eq.
  destruct (readable_files fsys template num_mics) as [|[a r] [|f rest]].
  - reflexivity.
  - cbn [map fst snd fold_left].
    destruct (_ || _); reflexivity.
  - simpl in H. lia.
Qed.

Lemma process_configuration_too_few_witness :
  (length (readable_files Example.empty "d/r.wav" 3) < 2)%nat /\
  process_configuration Example.empty "d/r.wav" 3 (1 / 10) = ([], None).
Proof.
  assert (H : (length (readable_files Example.empty "d/r.wav" 3) < 2)%nat)
    by (vm_compute; lia).
  split; [exact H|].
  apply (process_configuration_too_few Example.empty "d/r.wav" 3 (1 / 10) H).
Defined.

Lemma process_configuration_eq fsys template n d a r f rest :
  readable_files fsys template n = (a, r) :: f :: rest ->
  (0 < r)%Z ->
  process_configuration fsys template n d
  = process_pairs (map fst ((a, r) :: f :: rest)) r d
                  (seq 0 (length ((a, r) :: f :: rest) - 1)).
Proof.
  intros E Hr. unfold process_configuration. rewrite load_rirs_eq, E.
  rewrite rate_kept by lia.
  cbn [map fst]. destruct (Z.eqb_spec r (-1)); [lia|].
  cbn [orb]. simpl length. rewrite length_map.
  destruct (Nat.ltb_spec (S (S (length rest))) 2); [lia | reflexivity].
Qed.

(** X14: with [m >= 2] readable files that hold at least one frame each, a
    positive sample rate in the first and a positive microphone distance,
    [process_configuration] raises nothing and reports the [m - 1] pairs
    [(0, 1) .. (m-2, m-1)] of loaded signals, in that order, each with its
    three angles between 0 and 180 degrees. *)
Theorem process_configuration_reports (fsys : filesystem) (template : string)
  (num_mics : nat) (mic_distance : R)
  (a : audio) (r : Z) (f : audio * Z) (rest : list (audio * Z)) :
  readable_files fsys template num_mics = (a, r) :: f :: rest ->
  Forall (fun file => (0 < frames_of (fst file))%nat) ((a, r) :: f :: rest) ->
  (0 < r)%Z -> 0 < mic_distance ->
  exists reports,
    process_configuration fsys template num_mics mic_distance = (reports, None) /\
    map pair_index reports = seq 0 (length rest + 1) /\
    Forall (fun rep => angle_ok (doa_cc rep) /\ angle_ok (doa_phat rep) /\
                       angle_ok (doa_scot rep)) reports.
Proof.
  intros E Hfr Hr Hd.
  rewrite (process_configuration_eq fsys template num_mics mic_distance
             a r f rest E Hr).
  replace (length ((a, r) :: f :: rest) - 1)%nat with (length rest + 1)%nat
    by (simpl; lia).
  apply process_pairs_defined.
  - apply Forall_forall. intros i Hi. apply in_seq in Hi.
    rewrite length_map. simpl. lia.
  - apply Forall_forall. intros x Hx. apply in_map_iff in Hx.
    destruct Hx as (file & <- & Hin).
    rewrite Forall_forall in Hfr. apply Hfr, Hin.
  - exact Hd.
Qed.

Lemma process_configuration_reports_witness :
  readable_files Example.two_rates "d/r.wav" 2
  = (Mono [1; 2], 44100%Z) :: (Mono [2; 1], 48000%Z) :: [] /\
  Forall (fun file => (0 < frames_of (fst file))%nat)
         ((Mono [1; 2], 44100%Z) :: (Mono [2; 1], 48000%Z) :: []) /\
  (0 < 44100)%Z /\ 0 < 1 / 10 /\
  exists reports,
    process_configuration Example.two_rates "d/r.wav" 2 (1 / 10) = (reports, None) /\
    map pair_index reports = seq 0 (length (@nil (audio * Z)) + 1).
Proof.
  assert (H1 : readable_files Example.two_rates "d/r.wav" 2
               = (Mono [1; 2], 44100%Z) :: (Mono [2; 1], 48000%Z) :: [])
    by reflexivity.
  assert (H2 : Forall (fun file => (0 < frames_of (fst file))%nat)
                 ((Mono [1; 2], 44100%Z) :: (Mono [2; 1], 48000%Z) :: []))
    by (repeat constructor).
  assert (H3 : (0 < 44100)%Z) by lia.
  assert (H4 : 0 < 1 / 10) by lra.
  destruct (process_configuration_reports Example.two_rates "d/r.wav" 2 (1 / 10)
              _ _ _ _ H1 H2 H3 H4) as (reports & E & Hm & _).
  split; [exact H1 | split; [exact H2 | split; [exact H3 | split; [exact H4|]]]].
  exists reports. split; [exact E | exact Hm].
Defined.

Lemma process_pair_identical rirs fs d i s :
  (i + 1 < length rirs)%nat ->
  Forall (fun a => first_channel a = s) rirs ->
  nonzero s -> (0 < fs)%Z -> 0 < d ->
  exists r, process_pair rirs fs d i = Ok r /\ coincident r.
Proof.
  intros Hi Hall Hnz Hfs Hd. unfold process_pair.
  rewrite (getitem_nth rirs i (Mono [])) by lia. cbn [bind].
  rewrite (getitem_nth rirs (i + 1) (Mono [])) by lia. cbn [bind].
  rewrite Forall_forall in Hall.
  rewrite (Hall (nth i rirs (Mono []))) by (apply nth_In; lia).
  rewrite (Hall (nth (i + 1) rirs (Mono []))) by (apply nth_In; lia).
  rewrite estimate_tdoa_cc_identical by (try assumption; apply IZR_lt, Hfs).
  rewrite !estimate_tdoa_gcc_identical
    by (try assumption; (left; reflexivity) || (right; reflexivity)).
  cbn [bind]. rewrite estimate_doa_zero by exact Hd. cbn [bind].
  eexists. split; [reflexivity|]. repeat split; reflexivity.
Qed.

(** X15: when every readable file holds one and the same signal, with a
    sample that is not zero, every pair is reported with a TDOA of zero
    under the three methods and an angle of 90 degrees. *)
Theorem process_configuration_identical (fsys : filesystem) (template : string)
  (num_mics : nat) (mic_distance : R) (s : list R)
  (a : audio) (r : Z) (f : audio * Z) (rest : list (audio * Z)) :
  readable_files fsys template num_mics = (a, r) :: f :: rest ->
  Forall (fun file => first_channel (fst file) = s) ((a, r) :: f :: rest) ->
  nonzero s -> (0 < r)%Z -> 0 < mic_distance ->
  exists reports,
    process_configuration fsys template num_mics mic_distance = (reports, None) /\
    length reports = (length rest + 1)%nat /\
    Forall coincident reports.
Proof.
  intros E Hsame Hnz Hr Hd.
  rewrite (process_configuration_eq fsys template num_mics mic_distance
             a r f rest E Hr).
  replace (length ((a, r) :: f :: rest) - 1)%nat with (length rest + 1)%nat
    by (simpl; lia).
  set (rirs := map fst ((a, r) :: f :: rest)).
  assert (Hall : Forall (fun x => first_channel x = s) rirs).
  { apply Forall_forall. intros x Hx. apply in_map_iff in Hx.
    destruct Hx as (file & <- & Hin).
    rewrite Forall_forall in Hsame. apply Hsame, Hin. }
  assert (Hlen : length rirs = (length rest + 2)%nat)
    by (unfold rirs; rewrite length_map; simpl; lia).
  assert (G : forall idxs,
            Forall (fun i => (i + 1 < length rirs)%nat) idxs ->
            exists reports,
              process_pairs rirs r mic_distance idxs = (reports, None) /\
              length reports = length idxs /\ Forall coincident reports).
  { induction idxs as [|i idxs IH]; intros Hidx.
    - exists []. repeat split; constructor.
    - inversion Hidx as [|? ? Hi Hrest]; subst.
      destruct (process_pair_identical rirs r mic_distance i s Hi Hall Hnz Hr Hd)
        as (rep & Er & Hc).
      destruct (IH Hrest) as (reports & Ep & Hl & Hf).
      exists (rep :: reports). cbn [process_pairs]. rewrite Er, Ep.
      split; [reflexivity|]. split; [simpl; lia|]. constructor; assumption. }
  destruct (G (seq 0 (length rest + 1))) as (reports & Ep & Hl & Hf).
  { apply Forall_forall. intros i Hi. apply in_seq in Hi. lia. }
  exists reports. split; [exact Ep|].
  split; [rewrite Hl, length_seq; reflexivity | exact Hf].
Qed.

Lemma process_configuration_identical_witness :
  readable_files Example.same_signal "d/r.wav" 2
  = (Mono [1; 2], 44100%Z) :: (Mono [1; 2], 44100%Z) :: [] /\
  Forall (fun file => first_channel (fst file) = [1; 2])
         ((Mono [1; 2], 44100%Z) :: (Mono [1; 2], 44100%Z) :: []) /\
  nonzero [1; 2] /\ (0 < 44100)%Z /\ 0 < 1 / 10 /\
  exists reports,
    process_configuration Example.same_signal "d/r.wav" 2 (1 / 10) = (reports, None) /\
    length reports = 1%nat /\ Forall coincident reports.
Proof.
  assert (H1 : readable_files Example.same_signal "d/r.wav" 2
               = (Mono [1; 2], 44100%Z) :: (Mono [1; 2], 44100%Z) :: [])
    by reflexivity.
  assert (H2 : Forall (fun file => first_channel (fst file) = [1; 2])
                 ((Mono [1; 2], 44100%Z) :: (Mono [1; 2], 44100%Z) :: []))
    by (repeat constructor).
  assert (H3 : nonzero [1; 2]) by (apply Exists_cons_hd; lra).
  assert (H4 : (0 < 44100)%Z) by lia.
  assert (H5 : 0 < 1 / 10) by lra.
  split; [exact H1 | split; [exact H2 | split; [exact H3 | split; [exact H4 |
    split; [exact H5|]]]]].
  apply (process_configuration_identical Example.same_signal "d/r.wav" 2 (1 / 10)
           [1; 2] _ _ _ _ H1 H2 H3 H4 H5).
Defined.

End Processing.

(** * Properties of simulation.py *)

Section SimulationFacts.
Import Np OsPath Main Simulation Files.

Lemma inside_eq pos room_dim i :
  (i < length pos)%nat -> (i < length room_dim)%nat ->
  inside pos room_dim i
  = Ok (if Rle_dec margin (nth i pos 0)
        then if Rlt_dec (nth i pos 0) (nth i room_dim 0 - margin)
             then true else false
        else false).
Proof.
  intros Hp Hr. unfold inside.
  rewrite (getitem_nth pos i 0 Hp). cbn [bind].
  destruct (Rle_dec margin (nth i pos 0)); [|reflexivity].
  rewrite (getitem_nth room_dim i 0 Hr). reflexivity.
Qed.

(** On positions with three coordinates the loop over the axes is the
    test [in_roomb]. *)
Lemma all_inside_eq pos room_dim :
  length pos = 3%nat -> length room_dim = 3%nat ->
  all_inside pos room_dim [0; 1; 2]%nat = Ok (in_roomb pos room_dim).
Proof.
  intros Hp Hr. unfold all_inside, in_roomb, forallb.
  rewrite !inside_eq by lia. cbn [bind].
  repeat match goal with
         | |- context [Rle_dec ?a ?b] => destruct (Rle_dec a b); cbn [bind andb]
         | |- context [Rlt_dec ?a ?b] => destruct (Rlt_dec a b); cbn [bind andb]
         end; reflexivity.
Qed.

Lemma subtract_eq a b :
  length a = length b -> subtract a b = Ok (map2 Rminus a b).
Proof. intros H. unfold subtract. rewrite H, Nat.eqb_refl. reflexivity. Qed.

(** On well-formed positions the loop over the microphones is a filter. *)
Lemma validate_mics_eq source_pos room_dim mics :
  length source_pos = 3%nat -> length room_dim = 3%nat ->
  Forall (fun im => length (snd im) = 3%nat) mics ->
  validate_mics source_pos room_dim mics
  = Ok (filter (fun im => valid_micb source_pos room_dim (snd im)) mics).
Proof.
  intros Hs Hr Hall. induction mics as [|[idx mic] rest IH]; [reflexivity|].
  inversion Hall as [|? ? Hm Hrest]; subst. cbn [snd] in Hm.
  cbn [validate_mics filter snd]. unfold valid_micb at 1.
  rewrite all_inside_eq by assumption. cbn [bind].
  destruct (in_roomb mic room_dim); cbn [andb].
  - rewrite subtract_eq by congruence. cbn [bind].
    destruct (Rlt_dec _ _).
    + apply IH, Hrest.
    + rewrite (IH Hrest). reflexivity.
  - apply IH, Hrest.
Qed.

(** Whatever the positions, the microphones kept are some of those given,
    in their order. *)
Lemma validate_mics_sub source_pos room_dim mics kept :
  validate_mics source_pos room_dim mics = Ok kept ->
  (length kept <= length mics)%nat /\ incl kept mics.
Proof.
  revert kept. induction mics as [|[idx mic] rest IH]; intros kept H.
  - injection H as <-. split; [lia | apply incl_refl].
  - cbn [validate_mics] in H.
    destruct (all_inside mic room_dim [0; 1; 2]%nat) as [[|]|e];
      cbn [bind] in H; try discriminate.
    + destruct (subtract source_pos mic) as [diff|e]; cbn [bind] in H;
        try discriminate.
      destruct (Rlt_dec (norm diff) (1 / 10)).
      * destruct (IH kept H) as (Hl & Hi). split; [simpl; lia|].
        apply incl_tl, Hi.
      * destruct (validate_mics source_pos room_dim rest) as [k|e];
          cbn [bind] in H; try discriminate.
        injection H as <-. destruct (IH k eq_refl) as (Hl & Hi).
        split; [simpl; lia|]. apply incl_cons; [left; reflexivity|].
        apply incl_tl, Hi.
    + destruct (IH kept H) as (Hl & Hi). split; [simpl; lia|].
      apply incl_tl, Hi.
Qed.

(** The saving loop: the count grows by at most one per microphone and
    only the names of the microphones at hand can change. *)
Lemma write_rirs_frame sf base fs room_rir todo : forall count fsys,
  (count <= fst (write_rirs sf base fs room_rir todo count fsys)
   <= count + length todo)%nat /\
  forall name,
    (forall p, In p todo -> name <> output_filename_mic base (snd p)) ->
    snd (write_rirs sf base fs room_rir todo count fsys) name = fsys name.
Proof.
  induction todo as [|[j orig] rest IH]; intros count fsys.
  - simpl. split; [lia | reflexivity].
  - cbn [write_rirs].
    destruct (nth_error room_rir j) as [per_source|];
      [|simpl; split; [lia | reflexivity]].
    destruct (nth_error per_source 0) as [rir_signal|];
      [|simpl; split; [lia | reflexivity]].
    unfold sf_write.
    destruct (write_ok sf (output_filename_mic base orig));
      [|simpl; split; [lia | reflexivity]].
    match goal with |- context [write_rirs _ _ _ _ rest (count + 1) ?f] =>
      destruct (IH (count + 1)%nat f) as (Hc & Hf) end.
    split; [simpl length; lia|].
    intros name Hname. rewrite Hf.
    + destruct (String.eqb_spec name (output_filename_mic base orig)) as [E|_];
        [|reflexivity].
      exfalso. apply (Hname (j, orig)); [left; reflexivity | exact E].
    + intros p Hp. apply Hname. right. exact Hp.
Qed.

(** The saving loop when the simulation has a response for every
    microphone and every write works. *)
Lemma write_rirs_success sf base fs room_rir todo : forall count fsys,
  (forall p, In p todo -> rir_at room_rir (fst p) <> None) ->
  (forall p, In p todo -> write_ok sf (output_filename_mic base (snd p)) = true) ->
  NoDup (map snd todo) ->
  fst (write_rirs sf base fs room_rir todo count fsys) = (count + length todo)%nat /\
  forall p sig, In p todo -> rir_at room_rir (fst p) = Some sig ->
    snd (write_rirs sf base fs room_rir todo count fsys)
        (output_filename_mic base (snd p))
    = Some (stored sf sig fs).
Proof.
  induction todo as [|[j orig] rest IH]; intros count fsys Hrir Hok Hnd.
  - simpl. split; [lia|]. intros p sig [].
  - cbn [write_rirs].
    pose proof (Hrir (j, orig) (or_introl eq_refl)) as Hj.
    unfold rir_at in Hj. cbn [fst] in Hj.
    destruct (nth_error room_rir j) as [per_source|] eqn:E1; [|contradiction].
    destruct (nth_error per_source 0) as [rir_signal|] eqn:E2; [|contradiction].
    unfold sf_write.
    pose proof (Hok (j, orig) (or_introl eq_refl)) as Hw. cbn [snd] in Hw.
    rewrite Hw.
    inversion Hnd as [|? ? Hnotin Hnd']; subst.
    match goal with |- context [write_rirs _ _ _ _ rest (count + 1) ?f] =>
      set (fsys1 := f);
      destruct (IH (count + 1)%nat fsys1) as (Hc & Hs) end.
    { intros p Hp. apply Hrir. right. exact Hp. }
    { intros p Hp. apply Hok. right. exact Hp. }
    { exact Hnd'. }
    split; [rewrite Hc; simpl length; lia|].
    intros p sig [<-|Hp] Hsig.
    + cbn [fst snd] in *.
      destruct (write_rirs_frame sf base fs room_rir rest (count + 1) fsys1)
        as (_ & Hf).
      rewrite Hf.
      * unfold fsys1. rewrite String.eqb_refl.
        unfold rir_at in Hsig. rewrite E1, E2 in Hsig. congruence.
      * intros q Hq E. apply output_filename_mic_injective in E.
        apply Hnotin. rewrite E. apply in_map, Hq.
    + apply Hs; assumption.
Qed.

Lemma combine_seq_fst {A : Type} (l : list A) : forall a,
  map fst (combine (seq a (length l)) l) = seq a (length l).
Proof.
  induction l as [|x l IH]; intros a; [reflexivity|].
  simpl. f_equal. apply IH.
Qed.

Lemma combine_seq_snd {A : Type} (l : list A) : forall a,
  map snd (combine (seq a (length l)) l) = l.
Proof.
  induction l as [|x l IH]; intros a; [reflexivity|].
  simpl. f_equal. apply IH.
Qed.

Lemma NoDup_map_fst_filter {A B : Type} (f : A * B -> bool) (l : list (A * B)) :
  NoDup (map fst l) -> NoDup (map fst (filter f l)).
Proof.
  induction l as [|x l IH]; intros H; [constructor|].
  inversion H as [|? ? Hnotin Hnd]; subst. simpl.
  destruct (f x); [|apply IH, Hnd].
  simpl. constructor; [|apply IH, Hnd].
  intros Hin. apply Hnotin. apply in_map_iff in Hin.
  destruct Hin as (y & Ey & Hy). apply filter_In in Hy.
  apply in_map_iff. exists y. split; [exact Ey | apply Hy].
Qed.

Lemma valid_indices_NoDup source_pos room_dim mics :
  NoDup (valid_indices source_pos room_dim mics).
Proof.
  unfold valid_indices. apply NoDup_map_fst_filter.
  rewrite combine_seq_fst. apply seq_NoDup.
Qed.

Lemma valid_indices_bound source_pos room_dim mics idx :
  In idx (valid_indices source_pos room_dim mics) -> (idx < length mics)%nat.
Proof.
  unfold valid_indices. intros H. apply in_map_iff in H.
  destruct H as ((i & m) & <- & Hin). apply filter_In in Hin.
  destruct Hin as (Hin & _). apply in_combine_l, in_seq in Hin.
  simpl. lia.
Qed.

Lemma valid_indices_length source_pos room_dim mics :
  (length (valid_indices source_pos room_dim mics) <= length mics)%nat.
Proof.
  pose proof (NoDup_incl_length (valid_indices_NoDup source_pos room_dim mics)
                (l' := seq 0 (length mics))) as H.
  rewrite length_seq in H. apply H.
  intros idx Hin. apply in_seq.
  pose proof (valid_indices_bound _ _ _ _ Hin). lia.
Qed.

(** The pairs that the saving loop goes through. *)
Lemma todo_eq {A : Type} (kept : list (nat * A)) :
  map snd (combine (seq 0 (length kept)) (map fst kept)) = map fst kept.
Proof.
  generalize 0%nat as a. induction kept as [|x kept IH]; intros a; [reflexivity|].
  simpl. f_equal. apply IH.
Qed.

Lemma todo_nth {A : Type} (kept : list (nat * A)) j :
  (j < length kept)%nat ->
  In (j, nth j (map fst kept) 0%nat)
     (combine (seq 0 (length kept)) (map fst kept)).
Proof.
  intros Hj.
  replace (j, nth j (map fst kept) 0%nat)
    with (nth j (combine (seq 0 (length kept)) (map fst kept)) (0%nat, 0%nat)).
  - apply nth_In. rewrite length_combine, length_seq, length_map. lia.
  - rewrite combine_nth by (rewrite length_seq, length_map; reflexivity).
    rewrite seq_nth by exact Hj. reflexivity.
Qed.

Lemma todo_in {A : Type} (kept : list (nat * A)) p :
  In p (combine (seq 0 (length kept)) (map fst kept)) ->
  (fst p < length kept)%nat /\ In (snd p) (map fst kept).
Proof.
  destruct p as [j orig]. intros H. split.
  - apply in_combine_l, in_seq in H. simpl. lia.
  - apply in_combine_r in H. exact H.
Qed.

End SimulationFacts.

Section SimulationClaims.
Import Np OsPath Main Simulation Files.

(** X16: whatever the inputs, the simulation and the writer do,
    [create_rir_example] returns a count of at most the number of
    microphone positions, and changes no file other than those named after
    the base path and the index of one of the microphones. *)
Theorem create_rir_example_frame (sim : simulator) (sf : soundfile)
  (fsys : filesystem) (base : string) (rt60 : R) (room_dim source_pos : list R)
  (mic_positions : list (list R)) (fs : Z) :
  (fst (create_rir_example sim sf fsys base rt60 room_dim source_pos
          mic_positions fs) <= length mic_positions)%nat /\
  forall name,
    (forall idx, (idx < length mic_positions)%nat ->
                 name <> output_filename_mic base idx) ->
    snd (create_rir_example sim sf fsys base rt60 room_dim source_pos
           mic_positions fs) name = fsys name.
Proof.
  unfold create_rir_example.
  destruct (all_inside source_pos room_dim [0; 1; 2]%nat) as [[|]|e];
    try (split; [simpl; lia | reflexivity]).
  destruct (validate_mics source_pos room_dim
              (combine (seq 0 (length mic_positions)) mic_positions))
    as [kept|e] eqn:Ev; [|split; [simpl; lia | reflexivity]].
  destruct (validate_mics_sub _ _ _ _ Ev) as (Hlen & Hincl).
  rewrite length_combine, length_seq, Nat.min_id in Hlen.
  destruct kept as [|k0 kept']; [split; [simpl; lia | reflexivity]|].
  set (kept := k0 :: kept') in *.
  destruct (sim rt60 room_dim source_pos (map snd kept) fs) as [room_rir|];
    [|split; [simpl; lia | reflexivity]].
  destruct (write_rirs_frame sf base fs room_rir
              (combine (seq 0 (length kept)) (map fst kept)) 0 fsys)
    as (Hc & Hf).
  split.
  - rewrite length_combine, length_seq, length_map, Nat.min_id in Hc. lia.
  - intros name Hname. apply Hf. intros p Hp.
    apply todo_in in Hp. destruct Hp as (_ & Hin).
    apply Hname. apply in_map_iff in Hin.
    destruct Hin as ((i & m) & E & Hin). apply Hincl in Hin.
    apply in_combine_l, in_seq in Hin. simpl in E. lia.
Qed.

Lemma well_formed_mics (mics : list (list R)) :
  Forall (fun mic => length mic = 3%nat) mics ->
  Forall (fun im : nat * list R => length (snd im) = 3%nat)
         (combine (seq 0 (length mics)) mics).
Proof.
  intros Hm. apply Forall_forall. intros (i & m) Hin.
  apply in_combine_r in Hin. rewrite Forall_forall in Hm. apply Hm, Hin.
Qed.

Lemma create_rir_example_source_outside sim sf fsys base rt60 room_dim
  source_pos mics fs :
  length source_pos = 3%nat -> length room_dim = 3%nat ->
  in_roomb source_pos room_dim = false ->
  create_rir_example sim sf fsys base rt60 room_dim source_pos mics fs
  = (0%nat, fsys).
Proof.
  intros Hs Hr Hout. unfold create_rir_example.
  rewrite all_inside_eq, Hout by assumption. reflexivity.
Qed.

(** With a source inside the room the outcome is that of the saving loop
    on the microphones kept, when the simulation returns. *)
Lemma create_rir_example_run sim sf fsys base rt60 room_dim source_pos mics fs :
  length source_pos = 3%nat -> length room_dim = 3%nat ->
  Forall (fun mic => length mic = 3%nat) mics ->
  in_roomb source_pos room_dim = true ->
  create_rir_example sim sf fsys base rt60 room_dim source_pos mics fs
  = match valid_indices source_pos room_dim mics with
    | [] => (0%nat, fsys)
    | valid =>
        match sim rt60 room_dim source_pos
                (valid_positions source_pos room_dim mics) fs with
        | None => (0%nat, fsys)
        | Some room_rir =>
            write_rirs sf base fs room_rir
                       (combine (seq 0 (length valid)) valid) 0 fsys
        end
    end.
Proof.
  intros Hs Hr Hm Hin. unfold create_rir_example.
  rewrite all_inside_eq, Hin by assumption.
  rewrite validate_mics_eq by (try assumption; apply well_formed_mics, Hm).
  unfold valid_indices, valid_positions.
  destruct (filter _ _) as [|k0 kept]; [reflexivity|].
  cbn [map]. change (length (fst k0 :: map fst kept))
    with (length (map fst (k0 :: kept))).
  rewrite length_map. reflexivity.
Qed.

(** X17: for positions of three coordinates, a source that is not inside
    the room by the margin, or no microphone that is both inside the room
    and at least 0.1 m from the source, makes [create_rir_example] return
    0 and leave every file as it was, without regard to the simulation. *)
Theorem create_rir_example_rejects (sim : simulator) (sf : soundfile)
  (fsys : filesystem) (base : string) (rt60 : R) (room_dim source_pos : list R)
  (mic_positions : list (list R)) (fs : Z) :
  length source_pos = 3%nat -> length room_dim = 3%nat ->
  Forall (fun mic => length mic = 3%nat) mic_positions ->
  in_roomb source_pos room_dim = false \/
  valid_indices source_pos room_dim mic_positions = [] ->
  create_rir_example sim sf fsys base rt60 room_dim source_pos mic_positions fs
  = (0%nat, fsys).
Proof.
  intros Hs Hr Hm Hrej.
  destruct (in_roomb source_pos room_dim) eqn:Ein.
  - destruct Hrej as [Hrej|Hrej]; [discriminate|].
    rewrite create_rir_example_run, Hrej by assumption. reflexivity.
  - apply create_rir_example_source_outside; assumption.
Qed.

Lemma create_rir_example_rejects_witness :
  length [45 / 10; 1; 1] = 3%nat /\ length [4; 3; 25 / 10] = 3%nat /\
  Forall (fun mic => length mic = 3%nat) [[2; 2; 1]] /\
  (in_roomb [45 / 10; 1; 1] [4; 3; 25 / 10] = false \/
   valid_indices [45 / 10; 1; 1] [4; 3; 25 / 10] [[2; 2; 1]] = []) /\
  create_rir_example Example.unit_room Example.exact_writer Example.empty
    "d/r.wav" (4 / 10) [4; 3; 25 / 10] [45 / 10; 1; 1] [[2; 2; 1]] 44100
  = (0%nat, Example.empty).
Proof.
  assert (H1 : length [45 / 10; 1; 1] = 3%nat) by reflexivity.
  assert (H2 : length [4; 3; 25 / 10] = 3%nat) by reflexivity.
  assert (H3 : Forall (fun mic => length mic = 3%nat) [[2; 2; 1]])
    by (repeat constructor).
  assert (H4 : in_roomb [45 / 10; 1; 1] [4; 3; 25 / 10] = false \/
               valid_indices [45 / 10; 1; 1] [4; 3; 25 / 10] [[2; 2; 1]] = []).
  { left. unfold in_roomb, forallb, margin. simpl nth.
    destruct (Rle_dec (1 / 100) (45 / 10)); [|reflexivity].
    destruct (Rlt_dec (45 / 10) (4 - 1 / 100)); [lra | reflexivity]. }
  split; [exact H1 | split; [exact H2 | split; [exact H3 | split; [exact H4|]]]].
  apply (create_rir_example_rejects Example.unit_room Example.exact_writer
           Example.empty "d/r.wav" (4 / 10) _ _ _ 44100 H1 H2 H3 H4).
Defined.

(** The saving loop on the microphones kept, when nothing fails. *)
Lemma write_rirs_valid sf base fs room_rir valid fsys :
  NoDup valid ->
  (forall j, (j < length valid)%nat -> rir_at room_rir j <> None) ->
  (forall name, write_ok sf name = true) ->
  fst (write_rirs sf base fs room_rir (combine (seq 0 (length valid)) valid) 0 fsys)
  = length valid /\
  forall j signal,
    (j < length valid)%nat -> rir_at room_rir j = Some signal ->
    snd (write_rirs sf base fs room_rir (combine (seq 0 (length valid)) valid) 0 fsys)
        (output_filename_mic base (nth j valid 0%nat))
    = Some (stored sf signal fs).
Proof.
  intros Hnd Hrir Hok.
  destruct (write_rirs_success sf base fs room_rir
              (combine (seq 0 (length valid)) valid) 0 fsys) as (Hc & Hst).
  - intros (j & o) Hp. apply Hrir. apply in_combine_l, in_seq in Hp.
    simpl. lia.
  - intros p _. apply Hok.
  - rewrite combine_seq_snd. exact Hnd.
  - split.
    + rewrite Hc, length_combine, length_seq, Nat.min_id. reflexivity.
    + intros j signal Hj Hsig.
      apply (Hst (j, nth j valid 0%nat)); [|exact Hsig].
      replace (j, nth j valid 0%nat)
        with (nth j (combine (seq 0 (length valid)) valid) (0%nat, 0%nat)).
      * apply nth_In. rewrite length_combine, length_seq, Nat.min_id. exact Hj.
      * rewrite combine_nth by (rewrite length_seq; reflexivity).
        rewrite seq_nth by exact Hj. reflexivity.
Qed.

(** X18: for positions of three coordinates and a source inside the room,
    when the simulation returns a response for each microphone kept and
    every write works, [create_rir_example] returns the number of
    microphones that are inside the room and at least 0.1 m from the
    source, and the file named after the original index of the [j]-th of
    them holds what the writer stores for the [j]-th response. *)
Theorem create_rir_example_saves (sim : simulator) (sf : soundfile)
  (fsys : filesystem) (base : string) (rt60 : R) (room_dim source_pos : list R)
  (mic_positions : list (list R)) (fs : Z) (room_rir : list (list (list R))) :
  length source_pos = 3%nat -> length room_dim = 3%nat ->
  Forall (fun mic => length mic = 3%nat) mic_positions ->
  in_roomb source_pos room_dim = true ->
  sim rt60 room_dim source_pos
      (valid_positions source_pos room_dim mic_positions) fs = Some room_rir ->
  (forall j, (j < length (valid_indices source_pos room_dim mic_positions))%nat ->
             rir_at room_rir j <> None) ->
  (forall name, write_ok sf name = true) ->
  fst (create_rir_example sim sf fsys base rt60 room_dim source_pos
         mic_positions fs)
  = length (valid_indices source_pos room_dim mic_positions) /\
  forall j signal,
    (j < length (valid_indices source_pos room_dim mic_positions))%nat ->
    rir_at room_rir j = Some signal ->
    snd (create_rir_example sim sf fsys base rt60 room_dim source_pos
           mic_positions fs)
        (output_filename_mic base
           (nth j (valid_indices source_pos room_dim mic_positions) 0%nat))
    = Some (stored sf signal fs).
Proof.
  intros Hs Hr Hm Hin Hsim Hrir Hok.
  rewrite create_rir_example_run, Hsim by assumption.
  pose proof (write_rirs_valid sf base fs room_rir
                (valid_indices source_pos room_dim mic_positions) fsys
                (valid_indices_NoDup _ _ _) Hrir Hok) as Hw.
  destruct (valid_indices source_pos room_dim mic_positions) as [|v0 vs];
    [|exact Hw].
  split; [reflexivity|]. intros j signal Hj. simpl in Hj. lia.
Qed.

Lemma valid_positions_length source_pos room_dim mics :
  length (valid_positions source_pos room_dim mics)
  = length (valid_indices source_pos room_dim mics).
Proof. unfold valid_positions, valid_indices. rewrite !length_map. reflexivity. Qed.

Lemma unit_room_rir_at (vp : list (list R)) j :
  (j < length vp)%nat ->
  rir_at (map (fun _ : list R => [[1; 0]]) vp) j = Some [1; 0].
Proof.
  intros Hj. unfold rir_at.
  rewrite nth_error_map.
  destruct (nth_error vp j) eqn:E; [reflexivity|].
  apply nth_error_None in E. lia.
Qed.

Lemma in_roomb_example : in_roomb [1; 1; 1] [4; 3; 25 / 10] = true.
Proof.
  unfold in_roomb, forallb, margin. simpl nth.
  repeat match goal with
         | |- context [Rle_dec ?a ?b] => destruct (Rle_dec a b); [|exfalso; lra]
         | |- context [Rlt_dec ?a ?b] => destruct (Rlt_dec a b); [|exfalso; lra]
         end.
  reflexivity.
Qed.

Lemma create_rir_example_saves_witness :
  length [1; 1; 1] = 3%nat /\ length [4; 3; 25 / 10] = 3%nat /\
  in_roomb [1; 1; 1] [4; 3; 25 / 10] = true /\
  fst (create_rir_example Example.unit_room Example.exact_writer Example.empty
         "d/r.wav" (4 / 10) [4; 3; 25 / 10] [1; 1; 1]
         [[2; 2; 1]; [45 / 10; 2; 1]; [15 / 10; 15 / 10; 15 / 10]] 44100)
  = length (valid_indices [1; 1; 1] [4; 3; 25 / 10]
              [[2; 2; 1]; [45 / 10; 2; 1]; [15 / 10; 15 / 10; 15 / 10]]).
Proof.
  assert (H1 : length [1; 1; 1] = 3%nat) by reflexivity.
  assert (H2 : length [4; 3; 25 / 10] = 3%nat) by reflexivity.
  assert (H3 : Forall (fun mic => length mic = 3%nat)
                 [[2; 2; 1]; [45 / 10; 2; 1]; [15 / 10; 15 / 10; 15 / 10]])
    by (repeat constructor).
  pose proof in_roomb_example as H4.
  split; [exact H1 | split; [exact H2 | split; [exact H4|]]].
  apply (create_rir_example_saves Example.unit_room Example.exact_writer
           Example.empty "d/r.wav" (4 / 10) _ _ _ 44100
           (map (fun _ => [[1; 0]])
                (valid_positions [1; 1; 1] [4; 3; 25 / 10]
                   [[2; 2; 1]; [45 / 10; 2; 1]; [15 / 10; 15 / 10; 15 / 10]]))
           H1 H2 H3 H4 eq_refl).
  - intros j Hj. rewrite unit_room_rir_at; [discriminate|].
    rewrite valid_positions_length. exact Hj.
  - reflexivity.
Defined.

(** Files of microphones that are not kept stay as they were. *)
Lemma create_rir_example_untouched sim sf fsys base rt60 room_dim source_pos
  mics fs idx :
  length source_pos = 3%nat -> length room_dim = 3%nat ->
  Forall (fun mic => length mic = 3%nat) mics ->
  ~ In idx (valid_indices source_pos room_dim mics) ->
  snd (create_rir_example sim sf fsys base rt60 room_dim source_pos mics fs)
      (output_filename_mic base idx)
  = fsys (output_filename_mic base idx).
Proof.
  intros Hs Hr Hm Hnotin.
  destruct (in_roomb source_pos room_dim) eqn:Ein;
    [|rewrite create_rir_example_source_outside by assumption; reflexivity].
  rewrite create_rir_example_run by assumption.
  destruct (valid_indices source_pos room_dim mics) as [|v0 vs] eqn:Ev;
    [reflexivity|].
  destruct (sim _ _ _ _ _) as [room_rir|]; [|reflexivity].
  apply write_rirs_frame. intros (j & o) Hp E.
  apply output_filename_mic_injective in E. subst idx.
  apply Hnotin. apply in_combine_r in Hp. exact Hp.
Qed.

Lemma flat_map_length_filter {A B : Type} (g : A -> list B) (q : A -> bool) l :
  (forall x, In x l -> length (g x) = if q x then 1%nat else 0%nat) ->
  length (flat_map g l) = length (filter q l).
Proof.
  induction l as [|x l IH]; intros H; [reflexivity|].
  simpl. rewrite length_app, (H x (or_introl eq_refl)).
  rewrite IH by (intros y Hy; apply H; right; exact Hy).
  destruct (q x); reflexivity.
Qed.

Lemma mem_spec idx l : existsb (Nat.eqb idx) l = true <-> In idx l.
Proof.
  rewrite existsb_exists. split.
  - intros (x & Hx & E). apply Nat.eqb_eq in E. subst. exact Hx.
  - intros H. exists idx. split; [exact H | apply Nat.eqb_refl].
Qed.

Lemma filter_mem_length l n :
  NoDup l -> (forall x, In x l -> (x < n)%nat) ->
  length (filter (fun idx => existsb (Nat.eqb idx) l) (seq 0 n)) = length l.
Proof.
  intros Hnd Hb. apply Nat.le_antisymm.
  - apply NoDup_incl_length; [apply NoDup_filter, seq_NoDup|].
    intros x Hx. apply filter_In in Hx. apply mem_spec, Hx.
  - apply NoDup_incl_length; [exact Hnd|].
    intros x Hx. apply filter_In. split; [|apply mem_spec, Hx].
    apply in_seq. specialize (Hb x Hx). lia.
Qed.

Lemma increasing_from_weaken l : forall lo lo',
  (lo' <= lo)%nat -> increasing_from lo l -> increasing_from lo' l.
Proof.
  destruct l as [|x t]; intros lo lo' Hle H; [exact I|].
  destruct H as (Hx & Ht). split; [lia | exact Ht].
Qed.

Lemma increasing_from_lower l : forall lo y,
  increasing_from lo l -> In y l -> (lo <= y)%nat.
Proof.
  induction l as [|x t IH]; intros lo y H Hy; [destruct Hy|].
  destruct H as (Hx & Ht). destruct Hy as [<-|Hy]; [exact Hx|].
  specialize (IH (S x) y Ht Hy). lia.
Qed.

Lemma filter_combine_increasing {A : Type} (f : nat * A -> bool) (l : list A) :
  forall a, increasing_from a (map fst (filter f (combine (seq a (length l)) l))).
Proof.
  induction l as [|x l IH]; intros a; [exact I|].
  simpl. destruct (f (a, x)).
  - simpl. split; [lia | apply IH].
  - apply increasing_from_weaken with (lo := S a); [lia | apply IH].
Qed.

Lemma valid_indices_increasing source_pos room_dim mics :
  increasing_from 0 (valid_indices source_pos room_dim mics).
Proof. unfold valid_indices. apply filter_combine_increasing. Qed.

(** Going through the indices in order meets the entries of a growing list
    in the order of the list. *)
Lemma flat_map_increasing {B : Type} (g : nat -> list B) (h : nat -> B) :
  forall len lo l,
    increasing_from lo l ->
    (forall x, In x l -> (x < lo + len)%nat) ->
    (forall idx, (lo <= idx < lo + len)%nat ->
                 (In idx l -> g idx = [h idx]) /\ (~ In idx l -> g idx = [])) ->
    flat_map g (seq lo len) = map h l.
Proof.
  induction len as [|len IH]; intros lo l Hinc Hb Hg.
  - destruct l as [|x t]; [reflexivity|].
    exfalso. destruct Hinc as (Hx & _).
    specialize (Hb x (or_introl eq_refl)). lia.
  - cbn [seq flat_map].
    destruct l as [|x t].
    + destruct (Hg lo ltac:(lia)) as (_ & Hno). rewrite Hno by (intros []).
      rewrite (IH (S lo) []); [reflexivity | exact I | intros x []|].
      intros idx Hidx. apply Hg. lia.
    + destruct Hinc as (Hx & Ht).
      destruct (Nat.eq_dec x lo) as [->|Hne].
      * destruct (Hg lo ltac:(lia)) as (Hyes & _).
        rewrite Hyes by (left; reflexivity).
        rewrite (IH (S lo) t); [reflexivity | exact Ht | |].
        -- intros y Hy. specialize (Hb y (or_intror Hy)). lia.
        -- intros idx Hidx. destruct (Hg idx ltac:(lia)) as (Hy & Hn). split.
           ++ intros Hin. apply Hy. right. exact Hin.
           ++ intros Hin. apply Hn. intros [E|Hin']; [lia | contradiction].
      * destruct (Hg lo ltac:(lia)) as (_ & Hno). rewrite Hno.
        -- rewrite (IH (S lo) (x :: t)); [reflexivity | | |].
           ++ split; [lia | exact Ht].
           ++ intros y Hy. specialize (Hb y Hy). lia.
           ++ intros idx Hidx. apply Hg. lia.
        -- intros [E|Hin]; [lia|].
           pose proof (increasing_from_lower t (S x) lo Ht Hin). lia.
Qed.

(** X19: the two scripts fit together.  When [create_rir_example] runs
    without a failure (X18) on a base path of extension [.wav], in a
    directory that held none of the per-microphone files, and what the
    writer stores reads back as audio with the sample rate written, then
    [load_rirs] on the same base path, asked for at least as many
    microphones as there were positions, loads exactly as many signals as
    files were created, the [j]-th of them being what was stored for the
    [j]-th response of the simulation; and when there is one at least it
    returns the sample rate of the simulation. *)
Theorem simulate_then_load (sim : simulator) (sf : soundfile)
  (fsys : filesystem) (base : string) (rt60 : R) (room_dim source_pos : list R)
  (mic_positions : list (list R)) (fs : Z) (room_rir : list (list (list R)))
  (num_mics : nat) :
  length source_pos = 3%nat -> length room_dim = 3%nat ->
  Forall (fun mic => length mic = 3%nat) mic_positions ->
  in_roomb source_pos room_dim = true ->
  sim rt60 room_dim source_pos
      (valid_positions source_pos room_dim mic_positions) fs = Some room_rir ->
  (forall j, (j < length (valid_indices source_pos room_dim mic_positions))%nat ->
             rir_at room_rir j <> None) ->
  (forall name, write_ok sf name = true) ->
  snd (splitext base) = ".wav"%string ->
  (forall signal, exists a, stored sf signal fs = Wav a fs) ->
  (forall idx, (idx < num_mics)%nat ->
               fsys (rir_filename (fst (splitext base)) idx) = None) ->
  (length mic_positions <= num_mics)%nat -> fs <> (-1)%Z ->
  let after := create_rir_example sim sf fsys base rt60 room_dim source_pos
                 mic_positions fs in
  length (fst (load_rirs (snd after) base num_mics)) = fst after /\
  (forall j signal a,
     (j < fst after)%nat -> rir_at room_rir j = Some signal ->
     stored sf signal fs = Wav a fs ->
     nth_error (fst (load_rirs (snd after) base num_mics)) j = Some a) /\
  (fst after <> 0%nat -> snd (load_rirs (snd after) base num_mics) = fs).
Proof.
  intros Hs Hr Hm Hin Hsim Hrir Hok Hext Hread Hfresh Hn Hfs after.
  set (valid := valid_indices source_pos room_dim mic_positions) in *.
  assert (Hrun : fst after = length valid /\
            forall j signal, (j < length valid)%nat ->
              rir_at room_rir j = Some signal ->
              snd after (output_filename_mic base (nth j valid 0%nat))
              = Some (stored sf signal fs)).
  { unfold after. rewrite create_rir_example_run, Hsim by assumption.
    pose proof (write_rirs_valid sf base fs room_rir valid fsys
                  (valid_indices_NoDup _ _ _) Hrir Hok) as Hw.
    fold valid. destruct valid as [|v0 vs]; [|exact Hw].
    split; [reflexivity|]. intros j signal Hj. simpl in Hj. lia. }
  destruct Hrun as (Hcount & Hstored).
  set (root := fst (splitext base)).
  assert (Hname : forall idx, rir_filename root idx = output_filename_mic base idx).
  { intros idx. unfold rir_filename, output_filename_mic, root. cbv zeta.
    rewrite Hext. reflexivity. }
  (* what the loader finds under each index *)
  assert (Hloaded : forall idx, (0 <= idx < 0 + num_mics)%nat ->
            (In idx valid ->
             loaded (snd after) root idx = [file_at (snd after) root idx]) /\
            (~ In idx valid -> loaded (snd after) root idx = [])).
  { intros idx Hidx. unfold loaded, file_at. rewrite Hname. split.
    - intros Hv. destruct (In_nth valid idx 0%nat Hv) as (j & Hj & <-).
      destruct (rir_at room_rir j) as [signal|] eqn:Ej;
        [|exfalso; apply (Hrir j Hj), Ej].
      rewrite (Hstored j signal Hj Ej).
      destruct (Hread signal) as (a & ->). reflexivity.
    - intros Hv. unfold after.
      rewrite create_rir_example_untouched by assumption.
      rewrite <- Hname, Hfresh by lia. reflexivity. }
  assert (Hfiles : readable_files (snd after) base num_mics
                   = map (file_at (snd after) root) valid).
  { unfold readable_files. fold root. apply flat_map_increasing.
    - apply valid_indices_increasing.
    - intros x Hx. apply valid_indices_bound in Hx. lia.
    - exact Hloaded. }
  assert (Hfile : forall j signal a, (j < length valid)%nat ->
            rir_at room_rir j = Some signal -> stored sf signal fs = Wav a fs ->
            file_at (snd after) root (nth j valid 0%nat) = (a, fs)).
  { intros j signal a Hj Ej Ea. unfold file_at.
    rewrite Hname, (Hstored j signal Hj Ej), Ea. reflexivity. }
  assert (Hfst : fst (load_rirs (snd after) base num_mics)
                 = map fst (map (file_at (snd after) root) valid)).
  { rewrite load_rirs_eq, Hfiles.
    destruct (map (file_at (snd after) root) valid) as [|[a r] rest];
      reflexivity. }
  split; [|split].
  - rewrite Hfst, !length_map. symmetry. exact Hcount.
  - intros j signal a Hj Ej Ea. rewrite Hcount in Hj.
    rewrite Hfst, map_map, nth_error_map.
    rewrite (nth_error_nth' valid 0%nat Hj). cbn [option_map].
    rewrite (Hfile j signal a Hj Ej Ea). reflexivity.
  - intros Hne. rewrite load_rirs_eq, Hfiles.
    destruct valid as [|v0 vs] eqn:Ev; [simpl in Hcount; congruence|].
    cbn [map]. 
    destruct (rir_at room_rir 0) as [signal|] eqn:E0;
      [|exfalso; apply (Hrir 0%nat ltac:(simpl; lia)), E0].
    destruct (Hread signal) as (a & Ea).
    pose proof (Hfile 0%nat signal a ltac:(simpl; lia) E0 Ea) as H0.
    cbn [nth] in H0. rewrite H0. cbn [snd].
    apply rate_kept, Hfs.
Qed.

Lemma simulate_then_load_witness :
  length [1; 1; 1] = 3%nat /\ length [4; 3; 25 / 10] = 3%nat /\
  in_roomb [1; 1; 1] [4; 3; 25 / 10] = true /\
  snd (splitext "d/r.wav") = ".wav"%string /\
  (3 <= 3)%nat /\ 44100%Z <> (-1)%Z /\
  length (fst (load_rirs
    (snd (create_rir_example Example.unit_room Example.exact_writer Example.empty
            "d/r.wav" (4 / 10) [4; 3; 25 / 10] [1; 1; 1]
            [[2; 2; 1]; [45 / 10; 2; 1]; [15 / 10; 15 / 10; 15 / 10]] 44100))
    "d/r.wav" 3))
  = fst (create_rir_example Example.unit_room Example.exact_writer Example.empty
           "d/r.wav" (4 / 10) [4; 3; 25 / 10] [1; 1; 1]
           [[2; 2; 1]; [45 / 10; 2; 1]; [15 / 10; 15 / 10; 15 / 10]] 44100).
Proof.
  assert (H1 : length [1; 1; 1] = 3%nat) by reflexivity.
  assert (H2 : length [4; 3; 25 / 10] = 3%nat) by reflexivity.
  assert (H3 : Forall (fun mic => length mic = 3%nat)
                 [[2; 2; 1]; [45 / 10; 2; 1]; [15 / 10; 15 / 10; 15 / 10]])
    by (repeat constructor).
  pose proof in_roomb_example as H4.
  assert (H5 : snd (splitext "d/r.wav") = ".wav"%string) by reflexivity.
  assert (H6 : (3 <= 3)%nat) by lia.
  assert (H7 : 44100%Z <> (-1)%Z) by lia.
  split; [exact H1 | split; [exact H2 | split; [exact H4 | split; [exact H5 |
    split; [exact H6 | split; [exact H7|]]]]]].
  refine (proj1 (simulate_then_load Example.unit_room Example.exact_writer
           Example.empty "d/r.wav" (4 / 10) _ _ _ 44100
           (map (fun _ => [[1; 0]])
                (valid_positions [1; 1; 1] [4; 3; 25 / 10]
                   [[2; 2; 1]; [45 / 10; 2; 1]; [15 / 10; 15 / 10; 15 / 10]]))
           3 H1 H2 H3 H4 eq_refl _ _ H5 _ _ H6 H7)).
  - intros j Hj. rewrite unit_room_rir_at; [discriminate|].
    rewrite valid_positions_length. exact Hj.
  - reflexivity.
  - intros signal. exists (Mono signal). reflexivity.
  - reflexivity.
Defined.

End SimulationClaims.

(** * Properties of simulation.py: failures *)

Section SimulationFailures.
Import Np OsPath Main Simulation Files.

(** The saving loop stops at the first failure; what it wrote before stays
    written. *)
Lemma write_rirs_prefix sf base fs room_rir todo : forall count fsys,
  NoDup (map snd todo) ->
  exists c,
    fst (write_rirs sf base fs room_rir todo count fsys) = (count + c)%nat /\
    (c <= length todo)%nat /\
    forall j, (j < c)%nat ->
      exists signal,
        rir_at room_rir (fst (nth j todo (0%nat, 0%nat))) = Some signal /\
        snd (write_rirs sf base fs room_rir todo count fsys)
            (output_filename_mic base (snd (nth j todo (0%nat, 0%nat))))
        = Some (stored sf signal fs).
Proof.
  induction todo as [|[j0 orig] rest IH]; intros count fsys Hnd.
  - exists 0%nat. simpl. split; [lia|]. split; [lia|]. intros j Hj. lia.
  - cbn [write_rirs].
    assert (Hstop : forall fsys0 : filesystem, exists c : nat,
              fst (count, fsys0) = (count + c)%nat /\
              (c <= length ((j0, orig) :: rest))%nat /\
              forall j, (j < c)%nat ->
                exists signal,
                  rir_at room_rir (fst (nth j ((j0, orig) :: rest) (0%nat, 0%nat)))
                  = Some signal /\
                  snd (count, fsys0)
                      (output_filename_mic base
                         (snd (nth j ((j0, orig) :: rest) (0%nat, 0%nat))))
                  = Some (stored sf signal fs)).
    { intros fsys0. exists 0%nat. simpl. split; [lia|]. split; [lia|].
      intros j Hj. lia. }
    destruct (nth_error room_rir j0) as [per_source|] eqn:E1; [|apply Hstop].
    destruct (nth_error per_source 0) as [rir_signal|] eqn:E2; [|apply Hstop].
    unfold sf_write.
    destruct (write_ok sf (output_filename_mic base orig)); [|apply Hstop].
    inversion Hnd as [|? ? Hnotin Hnd']; subst.
    match goal with |- context [write_rirs _ _ _ _ rest (count + 1) ?f] =>
      set (fsys1 := f) end.
    destruct (IH (count + 1)%nat fsys1 Hnd') as (c & Hc & Hle & Hw).
    exists (S c). split; [rewrite Hc; lia|]. split; [simpl; lia|].
    intros j Hj. destruct j as [|j].
    + exists rir_signal. cbn [nth fst snd]. split.
      * unfold rir_at. rewrite E1. exact E2.
      * destruct (write_rirs_frame sf base fs room_rir rest (count + 1) fsys1)
          as (_ & Hf).
        rewrite Hf; [unfold fsys1; rewrite String.eqb_refl; reflexivity|].
        intros q Hq E. apply output_filename_mic_injective in E.
        apply Hnotin. rewrite E. apply in_map, Hq.
    + cbn [nth]. apply Hw. lia.
Qed.

(** X20: the count never promises more than was saved.  For positions of
    three coordinates and a source inside the room, when the simulation
    returns, [create_rir_example] returns a count [k] of at most the number
    of microphones kept, and for each [j < k] the file named after the
    original index of the [j]-th microphone kept holds what was written for
    the [j]-th response, even when a later response is missing or a later
    write fails. *)
Theorem create_rir_example_count_sound (sim : simulator) (sf : soundfile)
  (fsys : filesystem) (base : string) (rt60 : R) (room_dim source_pos : list R)
  (mic_positions : list (list R)) (fs : Z) (room_rir : list (list (list R))) :
  length source_pos = 3%nat -> length room_dim = 3%nat ->
  Forall (fun mic => length mic = 3%nat) mic_positions ->
  in_roomb source_pos room_dim = true ->
  sim rt60 room_dim source_pos
      (valid_positions source_pos room_dim mic_positions) fs = Some room_rir ->
  let after := create_rir_example sim sf fsys base rt60 room_dim source_pos
                 mic_positions fs in
  (fst after <= length (valid_indices source_pos room_dim mic_positions))%nat /\
  forall j, (j < fst after)%nat ->
    exists signal,
      rir_at room_rir j = Some signal /\
      snd after (output_filename_mic base
                   (nth j (valid_indices source_pos room_dim mic_positions) 0%nat))
      = Some (stored sf signal fs).
Proof.
  intros Hs Hr Hm Hin Hsim after. unfold after.
  rewrite create_rir_example_run, Hsim by assumption.
  pose proof (valid_indices_NoDup source_pos room_dim mic_positions) as Hnd.
  set (valid := valid_indices source_pos room_dim mic_positions) in *.
  destruct (write_rirs_prefix sf base fs room_rir
              (combine (seq 0 (length valid)) valid) 0 fsys) as (c & Hc & Hle & Hw).
  { rewrite combine_seq_snd. exact Hnd. }
  rewrite length_combine, length_seq, Nat.min_id in Hle.
  assert (G : (fst (write_rirs sf base fs room_rir
                      (combine (seq 0 (length valid)) valid) 0 fsys)
               <= length valid)%nat /\
              forall j, (j < fst (write_rirs sf base fs room_rir
                                    (combine (seq 0 (length valid)) valid) 0 fsys))%nat ->
                exists signal,
                  rir_at room_rir j = Some signal /\
                  snd (write_rirs sf base fs room_rir
                         (combine (seq 0 (length valid)) valid) 0 fsys)
                      (output_filename_mic base (nth j valid 0%nat))
                  = Some (stored sf signal fs)).
  { rewrite Hc. split; [lia|]. intros j Hj.
    destruct (Hw j ltac:(lia)) as (signal & Hsig & Hfile).
    rewrite combine_nth in Hsig, Hfile by (rewrite length_seq; reflexivity).
    rewrite seq_nth in Hsig by lia. cbn [fst snd] in *.
    exists signal. split; assumption. }
  destruct valid as [|v0 vs]; [|exact G].
  split; [simpl; lia|]. intros j Hj. simpl in Hj. lia.
Qed.

End SimulationFailures.

Section SimulationMalformed.
Import Np OsPath Main Simulation Files.

(** A position that lacks a coordinate, with those it has inside the room,
    makes the loop over the axes raise. *)
Lemma all_inside_short pos room_dim :
  length room_dim = 3%nat -> (length pos < 3)%nat ->
  (forall i, (i < length pos)%nat ->
             margin <= nth i pos 0 < nth i room_dim 0 - margin) ->
  all_inside pos room_dim [0; 1; 2]%nat = Raise IndexError.
Proof.
  intros Hr Hlen Hin.
  assert (Hok : forall i, (i < length pos)%nat -> inside pos room_dim i = Ok true).
  { intros i Hi. rewrite inside_eq by lia.
    destruct (Hin i Hi) as (H1 & H2).
    destruct (Rle_dec margin (nth i pos 0)); [|contradiction].
    destruct (Rlt_dec (nth i pos 0) (nth i room_dim 0 - margin));
      [reflexivity | contradiction]. }
  assert (Hraise : inside pos room_dim (length pos) = Raise IndexError).
  { unfold inside, getitem.
    rewrite (proj2 (nth_error_None pos (length pos))) by lia.
    reflexivity. }
  destruct pos as [|p0 [|p1 [|p2 pos]]]; simpl in Hlen; try lia.
  - cbn [all_inside]. change 0%nat with (length (@nil R)).
    rewrite Hraise. reflexivity.
  - cbn [all_inside]. rewrite (Hok 0%nat) by (simpl; lia). cbn [bind].
    change 1%nat with (length [p0]). rewrite Hraise. reflexivity.
  - cbn [all_inside]. rewrite (Hok 0%nat), (Hok 1%nat) by (simpl; lia).
    cbn [bind]. change 2%nat with (length [p0; p1]). rewrite Hraise. reflexivity.
Qed.

Lemma validate_mics_raise_after source_pos room_dim good later e :
  length source_pos = 3%nat -> length room_dim = 3%nat ->
  Forall (fun im : nat * list R => length (snd im) = 3%nat) good ->
  validate_mics source_pos room_dim later = Raise e ->
  validate_mics source_pos room_dim (good ++ later) = Raise e.
Proof.
  intros Hs Hr Hgood Hlater.
  induction good as [|[idx mic] good IH]; [exact Hlater|].
  inversion Hgood as [|? ? Hm Hrest]; subst. cbn [snd] in Hm.
  cbn [app validate_mics]. rewrite all_inside_eq by assumption. cbn [bind].
  destruct (in_roomb mic room_dim); [|apply IH, Hrest].
  rewrite subtract_eq by congruence. cbn [bind].
  destruct (Rlt_dec _ _); [apply IH, Hrest|].
  rewrite (IH Hrest). reflexivity.
Qed.

Lemma combine_seq_app {A : Type} (l1 l2 : list A) : forall a,
  combine (seq a (length (l1 ++ l2))) (l1 ++ l2)
  = combine (seq a (length l1)) l1
    ++ combine (seq (a + length l1) (length l2)) l2.
Proof.
  induction l1 as [|x l1 IH]; intros a.
  - simpl. rewrite Nat.add_0_r. reflexivity.
  - simpl. f_equal. rewrite IH. do 2 f_equal. f_equal. lia.
Qed.

(** X21: a microphone position that lacks a coordinate is not passed over
    as one outside the room is.  After well-formed positions, a position
    of fewer than three coordinates, each of them inside the room, makes
    [create_rir_example] give up the whole configuration: it returns 0 and
    writes nothing, whatever the other microphones are. *)
Theorem create_rir_example_malformed_mic (sim : simulator) (sf : soundfile)
  (fsys : filesystem) (base : string) (rt60 : R) (room_dim source_pos : list R)
  (good : list (list R)) (bad : list R) (rest : list (list R)) (fs : Z) :
  length source_pos = 3%nat -> length room_dim = 3%nat ->
  in_roomb source_pos room_dim = true ->
  Forall (fun mic => length mic = 3%nat) good ->
  (length bad < 3)%nat ->
  (forall i, (i < length bad)%nat ->
             margin <= nth i bad 0 < nth i room_dim 0 - margin) ->
  create_rir_example sim sf fsys base rt60 room_dim source_pos
                     (good ++ bad :: rest) fs
  = (0%nat, fsys).
Proof.
  intros Hs Hr Hin Hgood Hlen Hbad. unfold create_rir_example.
  rewrite all_inside_eq, Hin by assumption.
  rewrite combine_seq_app.
  rewrite (validate_mics_raise_after source_pos room_dim _ _ IndexError);
    try assumption; try reflexivity.
  - apply well_formed_mics, Hgood.
  - cbn [length seq combine validate_mics].
    rewrite all_inside_short by assumption. reflexivity.
Qed.

Lemma create_rir_example_malformed_mic_witness :
  length [1; 1; 1] = 3%nat /\ length [4; 3; 25 / 10] = 3%nat /\
  in_roomb [1; 1; 1] [4; 3; 25 / 10] = true /\
  Forall (fun mic => length mic = 3%nat) [[2; 2; 1]] /\
  (length ([2; 1]%R : list R) < 3)%nat /\
  create_rir_example Example.unit_room Example.exact_writer Example.empty
    "d/r.wav" (4 / 10) [4; 3; 25 / 10] [1; 1; 1]
    ([[2; 2; 1]] ++ [2; 1] :: [[3; 2; 1]]) 44100
  = (0%nat, Example.empty).
Proof.
  assert (H1 : length [1; 1; 1] = 3%nat) by reflexivity.
  assert (H2 : length [4; 3; 25 / 10] = 3%nat) by reflexivity.
  pose proof in_roomb_example as H3.
  assert (H4 : Forall (fun mic => length mic = 3%nat) [[2; 2; 1]])
    by (repeat constructor).
  assert (H5 : (length ([2; 1]%R : list R) < 3)%nat) by (simpl; lia).
  split; [exact H1 | split; [exact H2 | split; [exact H3 | split; [exact H4 |
    split; [exact H5|]]]]].
  apply (create_rir_example_malformed_mic Example.unit_room Example.exact_writer
           Example.empty "d/r.wav" (4 / 10) _ _ _ _ _ 44100 H1 H2 H3 H4 H5).
  intros i Hi. unfold margin.
  destruct i as [|[|i]]; simpl in Hi; simpl nth; try lra; lia.
Defined.

Lemma create_rir_example_count_sound_witness :
  length [1; 1; 1] = 3%nat /\ length [4; 3; 25 / 10] = 3%nat /\
  in_roomb [1; 1; 1] [4; 3; 25 / 10] = true /\
  Nat.le
    (fst (create_rir_example Example.unit_room Example.exact_writer Example.empty
            "d/r.wav" (4 / 10) [4; 3; 25 / 10] [1; 1; 1]
            [[2; 2; 1]; [45 / 10; 2; 1]] 44100))
    (length (valid_indices [1; 1; 1] [4; 3; 25 / 10]
               [[2; 2; 1]; [45 / 10; 2; 1]])).
Proof.
  assert (H1 : length [1; 1; 1] = 3%nat) by reflexivity.
  assert (H2 : length [4; 3; 25 / 10] = 3%nat) by reflexivity.
  assert (H3 : Forall (fun mic => length mic = 3%nat)
                 [[2; 2; 1]; [45 / 10; 2; 1]]) by (repeat constructor).
  pose proof in_roomb_example as H4.
  split; [exact H1 | split; [exact H2 | split; [exact H4|]]].
  apply (create_rir_example_count_sound Example.unit_room Example.exact_writer
           Example.empty "d/r.wav" (4 / 10) _ _ _ 44100 _ H1 H2 H3 H4 eq_refl).
Defined.

End SimulationMalformed.

(** * The generalised cross-correlation of exchanged signals *)

Section GccExchange.
Import Np Tdoa Spec Roots More.

Lemma dft_list_length x n : length (map (dft_coeff x n) (seq 0 n)) = n.
Proof. rewrite length_map, length_seq. reflexivity. Qed.

Lemma Cabs_conj_product a b :
  Cabs (Cmul b (Cconj a)) = Cabs (Cmul a (Cconj b)).
Proof. unfold Cabs, Cmul, Cconj. cbn [re im]. f_equal. ring. Qed.

(** Exchanging the signals conjugates the weighted spectrum, under either
    method. *)
Lemma gcc_weighting_exchange x y n method W :
  let SIGx := map (dft_coeff x n) (seq 0 n) in
  let SIGy := map (dft_coeff y n) (seq 0 n) in
  gcc_weighting method SIGx SIGy (map2 Cmul SIGx (map Cconj SIGy)) = Ok W ->
  exists W',
    gcc_weighting method SIGy SIGx (map2 Cmul SIGy (map Cconj SIGx)) = Ok W' /\
    conjugate_of W W'.
Proof.
  intros SIGx SIGy. unfold gcc_weighting.
  assert (HRx : length (map2 Cmul SIGx (map Cconj SIGy)) = n)
    by apply cross_spectrum_length.
  assert (HRy : length (map2 Cmul SIGy (map Cconj SIGx)) = n)
    by apply cross_spectrum_length.
  assert (Hx : length SIGx = n) by apply dft_list_length.
  assert (Hy : length SIGy = n) by apply dft_list_length.
  destruct (String.eqb (lower method) "phat").
  - intros E. injection E as <-. eexists. split; [reflexivity|].
    split; [rewrite !weight_phat_length; congruence|].
    intros k Hk. rewrite weight_phat_length, HRx in Hk.
    unfold weight_phat.
    rewrite !map2_nth with (da := mkC 0 0) (db := Cabs (mkC 0 0))
      by (rewrite ?length_map; lia).
    rewrite !(map_nth Cabs). unfold SIGx, SIGy.
    rewrite !cross_spectrum_nth by exact Hk.
    rewrite Cabs_conj_product.
    unfold Cdiv_real, Cmul, Cconj. cbn [re im]. split; unfold Rdiv; ring.
  - destruct (String.eqb (lower method) "scot"); [|discriminate].
    intros E. injection E as <-. eexists. split; [reflexivity|].
    split; [rewrite !weight_scot_length; congruence|].
    intros k Hk. rewrite weight_scot_length, HRx in Hk by congruence.
    unfold weight_scot.
    rewrite !map2_nth with (da := mkC 0 0) (db := 0)
      by (rewrite ?map2_length, ?length_map, ?HRx, ?HRy, ?Hx, ?Hy, ?Nat.min_id; lia).
    rewrite !map2_nth with (da := 0) (db := 0)
      by (rewrite ?length_map, ?Hx, ?Hy; lia).
    set (px := nth k (map (fun s => Cabs s ^ 2) SIGx) 0).
    set (py := nth k (map (fun s => Cabs s ^ 2) SIGy) 0).
    replace (py * px) with (px * py) by ring.
    unfold SIGx, SIGy.
    rewrite !cross_spectrum_nth by exact Hk.
    unfold Cdiv_real, Cmul, Cconj. cbn [re im]. split; unfold Rdiv; ring.
Qed.

(** The angle of the opposite circular lag. *)
Lemma angle_opposite n k m :
  (0 < m < n)%nat ->
  cos (angle n k (n - m)) = cos (angle n k m) /\
  sin (angle n k (n - m)) = - sin (angle n k m).
Proof.
  intros Hm.
  assert (Hn0 : INR n <> 0) by (apply not_0_INR; lia).
  assert (E : angle n k (n - m) = 2 * PI * INR k - angle n k m).
  { unfold angle. rewrite minus_INR by lia. field. exact Hn0. }
  rewrite E, cos_minus, sin_minus, cos_2PI_nat, sin_2PI_nat. split; ring.
Qed.

(** The inverse transform of the conjugate spectrum is the one of the
    spectrum at the opposite circular lag. *)
Lemma idft_conjugate W W' n m :
  length W = n -> conjugate_of W W' -> (m < n)%nat ->
  re (idft_coeff W' n m) = re (idft_coeff W n ((n - m) mod n)).
Proof.
  intros Hl (_ & Hc) Hm. unfold idft_coeff. cbn [re]. f_equal.
  apply Rsum_ext. intros k Hk. rewrite Hl in Hc.
  destruct (Hc k Hk) as (-> & ->).
  destruct (Nat.eq_dec m 0) as [->|Hne].
  - rewrite Nat.sub_0_r, Nat.Div0.mod_same.
    replace (angle n k 0) with 0 by (unfold angle, Rdiv; simpl; ring).
    rewrite sin_0. ring.
  - rewrite Nat.mod_small by lia.
    destruct (angle_opposite n k m ltac:(lia)) as (-> & ->). ring.
Qed.

(** For an odd transform length the re-centred correlation of the
    exchanged signals is the mirror image. *)
Lemma gcc_correlation_exchange x y method j :
  x <> [] -> y <> [] ->
  lower method = "phat" \/ lower method = "scot" ->
  let n := (length x + length y - 1)%nat in
  Nat.Odd n -> (j < n)%nat ->
  nth j (gcc_correlation y x method) 0
  = nth (n - 1 - j) (gcc_correlation x y method) 0.
Proof.
  intros Hx Hy Hmeth n Hodd Hj.
  pose proof (length_pos_of_ne _ Hx). pose proof (length_pos_of_ne _ Hy).
  unfold gcc_correlation.
  replace (length y + length x - 1)%nat with n by (unfold n; lia).
  fold n.
  set (SIGx := map (dft_coeff x n) (seq 0 n)).
  set (SIGy := map (dft_coeff y n) (seq 0 n)).
  destruct (gcc_weighting_recognised method SIGx SIGy
              (map2 Cmul SIGx (map Cconj SIGy)) Hmeth) as (W & HW).
  destruct (gcc_weighting_exchange x y n method W HW) as (W' & HW' & Hconj).
  fold SIGx SIGy in HW'. rewrite HW, HW'.
  assert (HlW : length W = n).
  { transitivity (length (map2 Cmul SIGx (map Cconj SIGy)));
      [|apply cross_spectrum_length].
    apply (gcc_weighting_length method SIGx SIGy); [| |exact HW];
      unfold SIGx, SIGy; rewrite cross_spectrum_length; apply dft_list_length. }
  assert (Hlen : forall V, length (map re (map (idft_coeff V n) (seq 0 n))) = n)
    by (intros V; rewrite !length_map, length_seq; reflexivity).
  assert (Hnth : forall V i, (i < n)%nat ->
            nth i (map re (map (idft_coeff V n) (seq 0 n))) 0
            = re (idft_coeff V n i)).
  { intros V i Hi. rewrite map_map.
    apply (map_seq_nth (fun q => re (idft_coeff V n q))), Hi. }
  rewrite !fftshift_nth by (rewrite Hlen; lia).
  rewrite !Hlen, !Hnth by (apply Nat.mod_upper_bound; lia).
  rewrite (idft_conjugate W W' n) by
    (try assumption; apply Nat.mod_upper_bound; lia).
  f_equal. f_equal.
  destruct Hodd as (h & Hh).
  assert (Hhalf : (n / 2 = h)%nat).
  { rewrite Hh. rewrite Nat.mul_comm, Nat.div_add_l by lia. simpl. lia. }
  rewrite Hhalf.
  assert (Hmod : forall a b q, a = (b + q * n)%nat -> (b < n)%nat ->
                               (a mod n = b)%nat).
  { intros a b q -> Hb. rewrite Nat.Div0.mod_add. apply Nat.mod_small, Hb. }
  destruct (Nat.lt_trichotomy j h) as [Hlt|[->|Hgt]].
  - rewrite (Hmod (j + (n - h))%nat (j + h + 1)%nat 0%nat) by lia.
    rewrite (Hmod (n - (j + h + 1))%nat (h - j)%nat 0%nat) by lia.
    rewrite (Hmod (n - 1 - j + (n - h))%nat (h - j)%nat 1%nat) by lia.
    reflexivity.
  - rewrite (Hmod (h + (n - h))%nat 0%nat 1%nat) by lia.
    rewrite (Hmod (n - 0)%nat 0%nat 1%nat) by lia.
    rewrite (Hmod (n - 1 - h + (n - h))%nat 0%nat 1%nat) by lia.
    reflexivity.
  - rewrite (Hmod (j + (n - h))%nat (j - h)%nat 1%nat) by lia.
    rewrite (Hmod (n - (j - h))%nat (n - (j - h))%nat 0%nat) by lia.
    rewrite (Hmod (n - 1 - j + (n - h))%nat (n - (j - h))%nat 0%nat) by lia.
    reflexivity.
Qed.

Lemma gcc_correlation_length x y method :
  x <> [] -> y <> [] ->
  lower method = "phat" \/ lower method = "scot" ->
  length (gcc_correlation x y method) = (length x + length y - 1)%nat.
Proof.
  intros Hx Hy Hm. unfold gcc_correlation.
  destruct (gcc_weighting_recognised method
              (map (dft_coeff x (length x + length y - 1))
                   (seq 0 (length x + length y - 1)))
              (map (dft_coeff y (length x + length y - 1))
                   (seq 0 (length x + length y - 1)))
              (map2 Cmul
                 (map (dft_coeff x (length x + length y - 1))
                      (seq 0 (length x + length y - 1)))
                 (map Cconj (map (dft_coeff y (length x + length y - 1))
                                 (seq 0 (length x + length y - 1))))) Hm)
    as (W & ->).
  rewrite fftshift_length, !length_map, length_seq. reflexivity.
Qed.

(** What the function returns, through the first maximum of the
    re-centred correlation. *)
Lemma estimate_tdoa_gcc_correlation x y fs method i :
  x <> [] -> y <> [] ->
  lower method = "phat" \/ lower method = "scot" ->
  first_max (gcc_correlation x y method) i ->
  estimate_tdoa_gcc x y fs method
  = Ok (IZR (Z.of_nat i - Z.of_nat ((length x + length y - 1) / 2)) / fs).
Proof.
  intros Hx Hy Hm Hfm. unfold gcc_correlation in Hfm.
  destruct (gcc_weighting_recognised method
              (map (dft_coeff x (length x + length y - 1))
                   (seq 0 (length x + length y - 1)))
              (map (dft_coeff y (length x + length y - 1))
                   (seq 0 (length x + length y - 1)))
              (map2 Cmul
                 (map (dft_coeff x (length x + length y - 1))
                      (seq 0 (length x + length y - 1)))
                 (map Cconj (map (dft_coeff y (length x + length y - 1))
                                 (seq 0 (length x + length y - 1))))) Hm)
    as (W & HW).
  rewrite HW in Hfm.
  apply (estimate_tdoa_gcc_first_max x y fs method W i Hx Hy HW Hfm).
Qed.

(** X22: when the transform length [len1 + len2 - 1] is odd (as for
    signals of equal length) and the re-centred correlation has a single
    maximum, exchanging the two signals negates the TDOA of the GCC
    methods. *)
Theorem gcc_exchange_negates_tdoa (x y : list R) (fs : R) (method : string) :
  x <> [] -> y <> [] -> 0 < fs ->
  lower method = "phat" \/ lower method = "scot" ->
  Nat.Odd (length x + length y - 1) ->
  unique_max (gcc_correlation x y method) ->
  exists t,
    estimate_tdoa_gcc x y fs method = Ok t /\
    estimate_tdoa_gcc y x fs method = Ok (- t).
Proof.
  intros Hx Hy Hfs Hm Hodd (i & Hi & Huniq).
  pose proof (length_pos_of_ne _ Hx) as Hlx.
  pose proof (length_pos_of_ne _ Hy) as Hly.
  rewrite gcc_correlation_length in Hi, Huniq by assumption.
  set (n := (length x + length y - 1)%nat) in *.
  assert (Hfm : first_max (gcc_correlation x y method) i).
  { repeat split.
    - rewrite gcc_correlation_length by assumption. exact Hi.
    - intros j Hj. rewrite gcc_correlation_length in Hj by assumption.
      destruct (Nat.eq_dec j i) as [->|Hne]; [lra|].
      apply Rlt_le, Huniq; assumption.
    - intros j Hj. apply Huniq; lia. }
  assert (Hfm' : first_max (gcc_correlation y x method) (n - 1 - i)).
  { assert (Hl' : length (gcc_correlation y x method) = n)
      by (rewrite gcc_correlation_length by assumption; unfold n; lia).
    repeat split.
    - rewrite Hl'. lia.
    - intros j Hj. rewrite Hl' in Hj.
      rewrite !(gcc_correlation_exchange x y method) by (try assumption; fold n; lia).
      fold n. replace (n - 1 - (n - 1 - i))%nat with i by lia.
      destruct (Nat.eq_dec (n - 1 - j) i) as [->|Hne]; [lra|].
      apply Rlt_le, Huniq; lia.
    - intros j Hj.
      rewrite !(gcc_correlation_exchange x y method) by (try assumption; fold n; lia).
      fold n. replace (n - 1 - (n - 1 - i))%nat with i by lia.
      apply Huniq; lia. }
  exists (IZR (Z.of_nat i - Z.of_nat (n / 2)) / fs).
  split; [apply estimate_tdoa_gcc_correlation; assumption|].
  rewrite (estimate_tdoa_gcc_correlation y x fs method (n - 1 - i))
    by assumption.
  replace (length y + length x - 1)%nat with n by (unfold n; lia).
  f_equal.
  destruct Hodd as (h & Hh). fold n in Hh.
  assert (Hhalf : (n / 2 = h)%nat).
  { rewrite Hh. rewrite Nat.mul_comm, Nat.div_add_l by lia. simpl. lia. }
  rewrite Hhalf.
  replace (Z.of_nat (n - 1 - i) - Z.of_nat h)%Z
    with (- (Z.of_nat i - Z.of_nat h))%Z by lia.
  rewrite opp_IZR. unfold Rdiv. ring.
Qed.

(** On identical signals that are not zero the maximum is single. *)
Lemma gcc_correlation_identical_unique s method :
  nonzero s -> lower method = "phat" \/ lower method = "scot" ->
  unique_max (gcc_correlation s s method).
Proof.
  intros Hnz Hm.
  destruct (nonzero_nth s Hnz) as (l0 & Hl0 & _).
  assert (Hs : s <> []) by (intros ->; simpl in Hl0; lia).
  pose proof (gcc_correlation_length s s method Hs Hs Hm) as Hlen.
  unfold gcc_correlation in *.
  set (n := (length s + length s - 1)%nat) in *.
  set (SIG := map (dft_coeff s n) (seq 0 n)) in *.
  destruct (gcc_weighting_recognised method SIG SIG
              (map2 Cmul SIG (map Cconj SIG)) Hm) as (W & HW).
  rewrite HW in *.
  pose proof (gcc_identical_whitened s n method W HW) as Hwh.
  assert (Hn : (0 < n)%nat) by (unfold n; lia).
  assert (Hhalf : (n / 2 < n)%nat) by (apply Nat.div_lt; lia).
  set (r := map re (map (idft_coeff W n) (seq 0 n))) in *.
  assert (Hlr : length r = n)
    by (unfold r; rewrite !length_map, length_seq; reflexivity).
  assert (Hcc : forall j, (j < n)%nat ->
            nth j (fftshift r) 0 = re (idft_coeff W n ((j + (n - n / 2)) mod n))).
  { intros j Hj. rewrite fftshift_nth, Hlr by lia.
    unfold r. rewrite map_map.
    apply (map_seq_nth (fun q => re (idft_coeff W n q))).
    apply Nat.mod_upper_bound. lia. }
  exists (n / 2)%nat. rewrite Hlen. split; [exact Hhalf|].
  intros j Hj Hne. rewrite !Hcc by assumption.
  replace ((n / 2 + (n - n / 2)) mod n)%nat with 0%nat
    by (replace (n / 2 + (n - n / 2))%nat with n by lia;
        symmetry; apply Nat.Div0.mod_same).
  apply (whitened_peak s W _ Hnz Hwh). fold n.
  split; [|apply Nat.mod_upper_bound; lia].
  destruct (Nat.lt_ge_cases j (n / 2)) as [H|H].
  - rewrite Nat.mod_small by lia. lia.
  - replace (j + (n - n / 2))%nat with ((j - n / 2) + 1 * n)%nat by lia.
    rewrite Nat.Div0.mod_add, Nat.mod_small by lia. lia.
Qed.

End GccExchange.

(** * The generalised cross-correlation of delayed copies *)

Section GccDelay.
Import Np Tdoa Spec Roots More.

Lemma cos_plus_2PI_Z x z : cos (x + 2 * PI * IZR z) = cos x.
Proof. rewrite cos_plus, cos_2PI_Z, sin_2PI_Z. ring. Qed.

(** The phase of a lag depends on the lag modulo [n] only. *)
Lemma cos_zangle_period n t q k :
  (0 < n)%nat ->
  cos (zangle n (t + q * Z.of_nat n) k) = cos (zangle n t k).
Proof.
  intros Hn.
  assert (Hn0 : INR n <> 0) by (apply not_0_INR; lia).
  replace (zangle n (t + q * Z.of_nat n) k)
    with (zangle n t k + 2 * PI * IZR (q * Z.of_nat k)).
  - apply cos_plus_2PI_Z.
  - unfold zangle. rewrite plus_IZR, !mult_IZR, <- !INR_IZR_INZ. field. exact Hn0.
Qed.

Lemma angle_plus n a l k : angle n (a + l) k = angle n a k + angle n l k.
Proof. unfold angle, Rdiv. rewrite plus_INR. ring. Qed.

(** The transform of a delayed copy is the transform of the signal turned
    by the phase of the delay. *)
Lemma dft_delay a s n k :
  (a + length s <= n)%nat ->
  re (dft_coeff (delay a s) n k)
  = re (dft_coeff s n k) * cos (angle n a k)
    + im (dft_coeff s n k) * sin (angle n a k) /\
  im (dft_coeff (delay a s) n k)
  = im (dft_coeff s n k) * cos (angle n a k)
    - re (dft_coeff s n k) * sin (angle n a k).
Proof.
  intros Hlen.
  assert (Hsplit : forall g : R -> R,
            Rsum n (fun j => nth j (delay a s) 0 * g (angle n j k))
            = Rsum (n - a) (fun l => nth l s 0 * g (angle n a k + angle n l k))).
  { intros g. replace n with (a + (n - a))%nat at 1 by lia.
    rewrite Rsum_app.
    rewrite Rsum_zero by (intros i Hi; rewrite delay_nth_low by exact Hi; ring).
    rewrite Rplus_0_l. apply Rsum_ext. intros l _.
    rewrite delay_nth_high, angle_plus. reflexivity. }
  assert (Hcut : forall g : R -> R,
            Rsum n (fun j => nth j s 0 * g (angle n j k))
            = Rsum (n - a) (fun j => nth j s 0 * g (angle n j k))).
  { intros g. apply Rsum_extend; [lia|].
    intros i Hi. rewrite nth_overflow by lia. ring. }
  unfold dft_coeff. cbn [re im].
  rewrite (Hsplit cos), (Hsplit sin), (Hcut cos), (Hcut sin).
  split.
  - rewrite (Rsum_ext (n - a) _
      (fun l => cos (angle n a k) * (nth l s 0 * cos (angle n l k))
                - sin (angle n a k) * (nth l s 0 * sin (angle n l k))))
      by (intros; rewrite cos_plus; ring).
    rewrite Rsum_minus, !Rsum_scal. ring.
  - rewrite (Rsum_ext (n - a) _
      (fun l => sin (angle n a k) * (nth l s 0 * cos (angle n l k))
                + cos (angle n a k) * (nth l s 0 * sin (angle n l k))))
      by (intros; rewrite sin_plus; ring).
    rewrite Rsum_plus, !Rsum_scal. ring.
Qed.

Lemma sqrt_sqr_nonneg p : 0 <= p -> sqrt (p * p) = p.
Proof. intros Hp. apply sqrt_square, Hp. Qed.

(** The cross-spectrum of two delayed copies of a signal: the power of the
    signal turned by the phase of the difference of the delays. *)
Lemma delayed_cross_spectrum s n a b k :
  (a + length s <= n)%nat -> (b + length s <= n)%nat ->
  let X := dft_coeff (delay a s) n k in
  let Y := dft_coeff (delay b s) n k in
  let p := power s n k in
  let d := zangle n (Z.of_nat a - Z.of_nat b) k in
  re (Cmul X (Cconj Y)) = p * cos d /\
  im (Cmul X (Cconj Y)) = - (p * sin d) /\
  Cabs (Cmul X (Cconj Y)) = p /\
  Cabs X ^ 2 = p /\ Cabs Y ^ 2 = p.
Proof.
  intros Ha Hb X Y p d.
  destruct (dft_delay a s n k Ha) as (HXr & HXi).
  destruct (dft_delay b s n k Hb) as (HYr & HYi).
  fold X in HXr, HXi. fold Y in HYr, HYi.
  pose proof (power_nonneg s n k) as Hp. fold p in Hp.
  assert (Ed : d = angle n a k - angle n b k).
  { unfold d. rewrite zangle_minus, <- !angle_zangle. reflexivity. }
  pose proof (sin2_cos2 (angle n a k)) as Ta.
  pose proof (sin2_cos2 (angle n b k)) as Tb.
  unfold Rsqr in Ta, Tb.
  set (ca := cos (angle n a k)) in *. set (sa := sin (angle n a k)) in *.
  set (cb := cos (angle n b k)) in *. set (sb := sin (angle n b k)) in *.
  set (sr := re (dft_coeff s n k)) in *. set (si := im (dft_coeff s n k)) in *.
  assert (Ep : p = sr * sr + si * si) by reflexivity.
  assert (Hre : re (Cmul X (Cconj Y)) = p * cos d).
  { unfold Cmul, Cconj. cbn [re im]. rewrite HXr, HXi, HYr, HYi, Ed, cos_minus, Ep.
    fold ca sa cb sb. ring. }
  assert (Him : im (Cmul X (Cconj Y)) = - (p * sin d)).
  { unfold Cmul, Cconj. cbn [re im]. rewrite HXr, HXi, HYr, HYi, Ed, sin_minus, Ep.
    fold ca sa cb sb. ring. }
  assert (HpX : re X * re X + im X * im X = p).
  { rewrite HXr, HXi, Ep.
    replace ((sr * ca + si * sa) * (sr * ca + si * sa)
             + (si * ca - sr * sa) * (si * ca - sr * sa))
      with ((sr * sr + si * si) * (sa * sa + ca * ca)) by ring.
    rewrite Ta. ring. }
  assert (HpY : re Y * re Y + im Y * im Y = p).
  { rewrite HYr, HYi, Ep.
    replace ((sr * cb + si * sb) * (sr * cb + si * sb)
             + (si * cb - sr * sb) * (si * cb - sr * sb))
      with ((sr * sr + si * si) * (sb * sb + cb * cb)) by ring.
    rewrite Tb. ring. }
  split; [exact Hre|]. split; [exact Him|].
  split; [|split].
  - unfold Cabs. rewrite Hre, Him.
    pose proof (sin2_cos2 d) as Td. unfold Rsqr in Td.
    replace (p * cos d * (p * cos d) + - (p * sin d) * - (p * sin d))
      with (p * p * (sin d * sin d + cos d * cos d)) by ring.
    rewrite Td, Rmult_1_r. apply sqrt_sqr_nonneg, Hp.
  - unfold Cabs. rewrite HpX. apply pow2_sqrt, Hp.
  - unfold Cabs. rewrite HpY. apply pow2_sqrt, Hp.
Qed.

(** On two delayed copies the [phat] weighting whitens the power spectrum
    and keeps the phase of the difference of the delays. *)
Lemma weight_phat_delayed s n a b :
  (a + length s <= n)%nat -> (b + length s <= n)%nat ->
  let SIGx := map (dft_coeff (delay a s) n) (seq 0 n) in
  let SIGy := map (dft_coeff (delay b s) n) (seq 0 n) in
  whitened_shift s n (Z.of_nat a - Z.of_nat b)
    (weight_phat (map2 Cmul SIGx (map Cconj SIGy))).
Proof.
  intros Ha Hb SIGx SIGy. split.
  - rewrite weight_phat_length. apply cross_spectrum_length.
  - intros k Hk. unfold weight_phat.
    rewrite map2_nth with (da := mkC 0 0) (db := Cabs (mkC 0 0))
      by (rewrite ?length_map; unfold SIGx, SIGy;
          rewrite cross_spectrum_length; exact Hk).
    rewrite (map_nth Cabs). unfold SIGx, SIGy.
    rewrite cross_spectrum_nth by exact Hk.
    destruct (delayed_cross_spectrum s n a b k Ha Hb) as (Hre & Him & Habs & _ & _).
    unfold Cdiv_real. cbn [re im]. rewrite Hre, Him, Habs.
    unfold whiten, Rdiv. split; ring.
Qed.

(** The [scot] weighting does the same. *)
Lemma weight_scot_delayed s n a b :
  (a + length s <= n)%nat -> (b + length s <= n)%nat ->
  let SIGx := map (dft_coeff (delay a s) n) (seq 0 n) in
  let SIGy := map (dft_coeff (delay b s) n) (seq 0 n) in
  whitened_shift s n (Z.of_nat a - Z.of_nat b)
    (weight_scot SIGx SIGy (map2 Cmul SIGx (map Cconj SIGy))).
Proof.
  intros Ha Hb SIGx SIGy.
  assert (Hx : length SIGx = n) by apply dft_list_length.
  assert (Hy : length SIGy = n) by apply dft_list_length.
  assert (HR : length (map2 Cmul SIGx (map Cconj SIGy)) = n)
    by apply cross_spectrum_length.
  split.
  - rewrite weight_scot_length; rewrite HR; auto.
  - intros k Hk. unfold weight_scot.
    rewrite map2_nth with (da := mkC 0 0) (db := 0)
      by (rewrite ?map2_length, ?length_map, ?HR, ?Hx, ?Hy, ?Nat.min_id; exact Hk).
    rewrite map2_nth with (da := Cabs (mkC 0 0) ^ 2) (db := Cabs (mkC 0 0) ^ 2)
      by (rewrite length_map, ?Hx, ?Hy; exact Hk).
    rewrite !(map_nth (fun s0 => Cabs s0 ^ 2)).
    unfold SIGx, SIGy. rewrite cross_spectrum_nth by exact Hk.
    rewrite !map_seq_nth by exact Hk.
    destruct (delayed_cross_spectrum s n a b k Ha Hb)
      as (Hre & Him & _ & HpX & HpY).
    rewrite HpX, HpY, (sqrt_sqr_nonneg _ (power_nonneg s n k)).
    unfold Cdiv_real. cbn [re im]. rewrite Hre, Him.
    unfold whiten, Rdiv. split; ring.
Qed.

Lemma gcc_delayed_whitened s n a b method W :
  (a + length s <= n)%nat -> (b + length s <= n)%nat ->
  let SIGx := map (dft_coeff (delay a s) n) (seq 0 n) in
  let SIGy := map (dft_coeff (delay b s) n) (seq 0 n) in
  gcc_weighting method SIGx SIGy (map2 Cmul SIGx (map Cconj SIGy)) = Ok W ->
  whitened_shift s n (Z.of_nat a - Z.of_nat b) W.
Proof.
  intros Ha Hb SIGx SIGy. unfold gcc_weighting.
  destruct (String.eqb (lower method) "phat").
  - intros E. injection E as <-. apply weight_phat_delayed; assumption.
  - destruct (String.eqb (lower method) "scot"); [|discriminate].
    intros E. injection E as <-. apply weight_scot_delayed; assumption.
Qed.

(** The inverse transform of such a spectrum is the whitened
    autocorrelation, moved by the lag. *)
Lemma whitened_shift_idft s n t W m :
  whitened_shift s n t W ->
  re (idft_coeff W n m) = whitened_autocorr s n (Z.of_nat m - t).
Proof.
  intros (_ & HW). unfold idft_coeff, whitened_autocorr. cbn [re]. f_equal.
  apply Rsum_ext. intros k Hk. destruct (HW k Hk) as (-> & ->).
  rewrite zangle_minus, cos_minus, (angle_comm n k m), angle_zangle. ring.
Qed.

Lemma whitened_autocorr_period s n m q :
  (0 < n)%nat ->
  whitened_autocorr s n (m + q * Z.of_nat n) = whitened_autocorr s n m.
Proof.
  intros Hn. unfold whitened_autocorr. f_equal.
  apply Rsum_ext. intros k _. rewrite cos_zangle_period by exact Hn. reflexivity.
Qed.

(** For a signal that is not zero, padded to [n >= 2 len - 1], the power
    spectrum is not carried by the frequencies where a lag [m] other than
    zero has phase one. *)
Lemma power_gap_padded s n m :
  nonzero s -> (length s + length s - 1 <= n)%nat -> (0 < m < n)%nat ->
  0 < Rsum n (fun k => power s n k * (1 - cos (angle n k m))).
Proof.
  intros Hnz Hpad Hm.
  destruct (nonzero_nth s Hnz) as (l0 & Hl0 & _).
  assert (Hn : (0 < n)%nat) by lia.
  assert (Hlen : (length s <= n)%nat) by lia.
  pose proof (lt_0_INR n Hn) as HnR.
  rewrite (Rsum_ext n _
    (fun k => power s n k * cos (angle n k 0) - power s n k * cos (angle n k m))).
  2:{ intros k _. replace (angle n k 0) with 0
        by (unfold angle, Rdiv; simpl; ring).
      rewrite cos_0. ring. }
  rewrite Rsum_minus, !power_cos_sum by (try assumption; lia).
  simpl (Z.of_nat 0).
  rewrite (corr_lag_far s (0 - Z.of_nat n)) by lia.
  rewrite (corr_lag_far s (Z.of_nat n - 0)) by lia.
  destruct (Nat.lt_ge_cases m (length s)) as [Hlo|Hhi].
  - rewrite (corr_lag_far s (Z.of_nat m - Z.of_nat n)) by lia.
    rewrite (corr_lag_far s (Z.of_nat n - Z.of_nat m)) by lia.
    pose proof (autocorr_lt s (Z.of_nat m) Hnz ltac:(lia)).
    pose proof (autocorr_lt s (- Z.of_nat m) Hnz ltac:(lia)).
    simpl (- 0)%Z. nra.
  - rewrite (corr_lag_far s (Z.of_nat m)) by lia.
    rewrite (corr_lag_far s (- Z.of_nat m)) by lia.
    pose proof (autocorr_lt s (Z.of_nat m - Z.of_nat n) Hnz ltac:(lia)).
    pose proof (autocorr_lt s (Z.of_nat n - Z.of_nat m) Hnz ltac:(lia)).
    simpl (- 0)%Z. nra.
Qed.

(** The whitened autocorrelation is largest at the lags that are multiples
    of [n], and only there. *)
Lemma whitened_autocorr_peak s n m :
  nonzero s -> (length s + length s - 1 <= n)%nat ->
  ~ (Z.of_nat n | m)%Z ->
  whitened_autocorr s n m < whitened_autocorr s n 0.
Proof.
  intros Hnz Hpad Hnd.
  destruct (nonzero_nth s Hnz) as (l0 & Hl0 & _).
  assert (Hn : (0 < n)%nat) by lia.
  pose proof (lt_0_INR n Hn) as HnR.
  pose proof (Z.mod_pos_bound m (Z.of_nat n) ltac:(lia)) as Hb.
  assert (Hm0 : (m mod Z.of_nat n <> 0)%Z).
  { intros E. apply Hnd. apply Z.mod_divide; [lia | exact E]. }
  set (m' := Z.to_nat (m mod Z.of_nat n)).
  assert (Hm' : (0 < m' < n)%nat) by (unfold m'; lia).
  assert (Em : m = (Z.of_nat m' + (m / Z.of_nat n) * Z.of_nat n)%Z).
  { unfold m'. rewrite Z2Nat.id by lia.
    pose proof (Z.div_mod m (Z.of_nat n) ltac:(lia)). lia. }
  rewrite Em, whitened_autocorr_period by exact Hn.
  unfold whitened_autocorr.
  apply Rmult_lt_compat_r; [apply Rinv_0_lt_compat, HnR|].
  destruct (Rsum_pos_exists _ _ (power_gap_padded s n m' Hnz Hpad Hm'))
    as (k0 & Hk0 & Hpos).
  assert (E0 : forall k, cos (zangle n 0 k) = 1).
  { intros k. replace (zangle n 0 k) with 0 by (unfold zangle, Rdiv; ring).
    apply cos_0. }
  assert (E1 : forall k, zangle n (Z.of_nat m') k = angle n k m').
  { intros k. rewrite <- angle_zangle. apply angle_comm. }
  apply Rsum_lt.
  - intros k _. rewrite E0, E1.
    pose proof (whiten_nonneg _ (power_nonneg s n k)).
    pose proof (COS_bound (angle n k m')). nra.
  - exists k0. split; [exact Hk0|]. rewrite E0, E1.
    pose proof (power_nonneg s n k0) as Hp.
    pose proof (COS_bound (angle n k0 m')) as Hc.
    assert (Hp' : 0 < power s n k0) by nra.
    assert (Hc' : cos (angle n k0 m') < 1) by nra.
    pose proof (whiten_pos _ Hp'). nra.
Qed.

(** Entry [j] of the re-centred correlation of two delayed copies: the
    whitened autocorrelation at the circular lag [j - n/2] less the
    difference of the delays. *)
Lemma gcc_correlation_delayed s a b method j :
  nonzero s -> lower method = "phat" \/ lower method = "scot" ->
  let n := (length (delay a s) + length (delay b s) - 1)%nat in
  (j < n)%nat ->
  nth j (gcc_correlation (delay a s) (delay b s) method) 0
  = whitened_autocorr s n
      (Z.of_nat j - Z.of_nat (n / 2) - (Z.of_nat a - Z.of_nat b)).
Proof.
  intros Hnz Hmeth n Hj.
  destruct (nonzero_nth s Hnz) as (l0 & Hl0 & _).
  assert (Hn : (0 < n)%nat) by lia.
  assert (Ha : (a + length s <= n)%nat) by (unfold n; rewrite !delay_length; lia).
  assert (Hb : (b + length s <= n)%nat) by (unfold n; rewrite !delay_length; lia).
  unfold gcc_correlation. fold n.
  set (SIGx := map (dft_coeff (delay a s) n) (seq 0 n)).
  set (SIGy := map (dft_coeff (delay b s) n) (seq 0 n)).
  destruct (gcc_weighting_recognised method SIGx SIGy
              (map2 Cmul SIGx (map Cconj SIGy)) Hmeth) as (W & HW).
  rewrite HW.
  pose proof (gcc_delayed_whitened s n a b method W Ha Hb HW) as Hwh.
  assert (Hlen : length (map re (map (idft_coeff W n) (seq 0 n))) = n)
    by (rewrite !length_map, length_seq; reflexivity).
  rewrite fftshift_nth by (rewrite Hlen; exact Hj).
  rewrite Hlen, map_map.
  rewrite (map_seq_nth (fun q => re (idft_coeff W n q)))
    by (apply Nat.mod_upper_bound; lia).
  rewrite (whitened_shift_idft s n _ W _ Hwh).
  assert (Hhalf : (n / 2 < n)%nat) by (apply Nat.div_lt; lia).
  set (t := (Z.of_nat a - Z.of_nat b)%Z).
  destruct (Nat.lt_ge_cases j (n / 2)) as [H|H].
  - rewrite Nat.mod_small by lia.
    replace (Z.of_nat (j + (n - n / 2)) - t)%Z
      with (Z.of_nat j - Z.of_nat (n / 2) - t + 1 * Z.of_nat n)%Z by lia.
    apply whitened_autocorr_period, Hn.
  - replace (j + (n - n / 2))%nat with ((j - n / 2) + 1 * n)%nat by lia.
    rewrite Nat.Div0.mod_add, Nat.mod_small by lia.
    f_equal. lia.
Qed.

(** The re-centred correlation of two delayed copies of a signal that is
    not zero has a single maximum, at the circular lag of the difference of
    the delays. *)
Lemma gcc_delayed_peak s a b method :
  nonzero s -> lower method = "phat" \/ lower method = "scot" ->
  let n := (length (delay a s) + length (delay b s) - 1)%nat in
  let i0 := Z.to_nat ((Z.of_nat a - Z.of_nat b + Z.of_nat (n / 2))
                      mod Z.of_nat n) in
  (i0 < n)%nat /\
  forall j, (j < n)%nat -> j <> i0 ->
    nth j (gcc_correlation (delay a s) (delay b s) method) 0
    < nth i0 (gcc_correlation (delay a s) (delay b s) method) 0.
Proof.
  intros Hnz Hmeth n i0.
  destruct (nonzero_nth s Hnz) as (l0 & Hl0 & _).
  assert (Hn : (0 < n)%nat) by (unfold n; rewrite !delay_length; lia).
  assert (Hpad : (length s + length s - 1 <= n)%nat)
    by (unfold n; rewrite !delay_length; lia).
  set (t := (Z.of_nat a - Z.of_nat b)%Z) in *.
  set (h := Z.of_nat (n / 2)) in *.
  pose proof (Z.mod_pos_bound (t + h) (Z.of_nat n) ltac:(lia)) as Hb.
  pose proof (Z.div_mod (t + h) (Z.of_nat n) ltac:(lia)) as Hdm.
  assert (Hi0 : Z.of_nat i0 = ((t + h) mod Z.of_nat n)%Z)
    by (unfold i0; rewrite Z2Nat.id by lia; reflexivity).
  assert (Hlt : (i0 < n)%nat) by lia.
  split; [exact Hlt|].
  intros j Hj Hne.
  rewrite !(gcc_correlation_delayed s a b method) by assumption.
  fold n h t.
  replace (Z.of_nat i0 - h - t)%Z
    with (0 + - ((t + h) / Z.of_nat n) * Z.of_nat n)%Z by lia.
  rewrite whitened_autocorr_period by exact Hn.
  apply whitened_autocorr_peak; [exact Hnz | exact Hpad |].
  intros (c & Hc). apply Hne.
  apply Nat2Z.inj. rewrite Hi0.
  replace (t + h)%Z with (Z.of_nat j + - c * Z.of_nat n)%Z by lia.
  rewrite Z_mod_plus_full. symmetry. apply Z.mod_small. lia.
Qed.

Lemma delay_nonzero_ne a s : nonzero s -> delay a s <> [].
Proof.
  intros Hnz. destruct (nonzero_nth s Hnz) as (l0 & Hl0 & _).
  intros E. pose proof (delay_length a s) as HL. rewrite E in HL. simpl in HL. lia.
Qed.

Lemma gcc_correlation_delayed_unique s a b method :
  nonzero s -> lower method = "phat" \/ lower method = "scot" ->
  unique_max (gcc_correlation (delay a s) (delay b s) method).
Proof.
  intros Hnz Hmeth.
  destruct (gcc_delayed_peak s a b method Hnz Hmeth) as (Hi0 & Hpeak).
  pose proof (gcc_correlation_length (delay a s) (delay b s) method
                (delay_nonzero_ne a s Hnz) (delay_nonzero_ne b s Hnz) Hmeth) as Hlen.
  eexists. rewrite Hlen. split; [exact Hi0 | exact Hpeak].
Qed.

(** Two delayed copies of a signal that is not zero under a recognised
    method: the function returns the lag of the circular lag axis that
    equals the difference of the delays modulo the transform length. *)
Lemma estimate_tdoa_gcc_delayed_pair a b s fs method :
  nonzero s -> lower method = "phat" \/ lower method = "scot" ->
  estimate_tdoa_gcc (delay a s) (delay b s) fs method
  = Ok (IZR (circular_lag (length (delay a s) + length (delay b s) - 1)
                          (Z.of_nat a - Z.of_nat b)) / fs).
Proof.
  intros Hnz Hmeth.
  destruct (gcc_delayed_peak s a b method Hnz Hmeth) as (Hi0 & Hpeak).
  pose proof (gcc_correlation_length (delay a s) (delay b s) method
                (delay_nonzero_ne a s Hnz) (delay_nonzero_ne b s Hnz) Hmeth) as Hlen.
  set (n := (length (delay a s) + length (delay b s) - 1)%nat) in *.
  set (i0 := Z.to_nat ((Z.of_nat a - Z.of_nat b + Z.of_nat (n / 2))
                       mod Z.of_nat n)) in *.
  rewrite (estimate_tdoa_gcc_correlation _ _ fs method i0
             (delay_nonzero_ne a s Hnz) (delay_nonzero_ne b s Hnz) Hmeth).
  - fold n. f_equal. f_equal. f_equal. unfold circular_lag, i0.
    pose proof (Z.mod_pos_bound (Z.of_nat a - Z.of_nat b + Z.of_nat (n / 2))
                  (Z.of_nat n) ltac:(lia)).
    rewrite Z2Nat.id by lia. reflexivity.
  - repeat split.
    + rewrite Hlen. exact Hi0.
    + intros j Hj. rewrite Hlen in Hj.
      destruct (Nat.eq_dec j i0) as [->|Hne]; [lra|].
      apply Rlt_le, Hpeak; assumption.
    + intros j Hj. apply Hpeak; lia.
Qed.

(** The real part of the inverse transform of the transform of a real
    sequence is the sequence. *)
Lemma ifft_fft_real z n m :
  (0 < n)%nat -> (length z <= n)%nat -> (m < n)%nat ->
  re (idft_coeff (map (dft_coeff z n) (seq 0 n)) n m) = nth m z 0.
Proof.
  intros Hn Hz Hm.
  pose proof (lt_0_INR n Hn) as HnR.
  unfold idft_coeff. cbn [re].
  rewrite (Rsum_ext n _
    (fun k => Rsum n (fun j =>
       nth j z 0 * cos (zangle n (Z.of_nat j - Z.of_nat m) k)))).
  2:{ intros k Hk. rewrite map_seq_nth by exact Hk.
      unfold dft_coeff. cbn [re im].
      rewrite (Rmult_comm (Rsum n _) (cos _)), <- Rsum_scal.
      rewrite Ropp_mult_distr_l_reverse, (Rmult_comm (Rsum n _) (sin _)),
        <- Rsum_scal.
      unfold Rminus. rewrite Ropp_involutive, <- Rsum_plus.
      apply Rsum_ext. intros j _.
      rewrite zangle_minus, cos_minus, <- !angle_zangle, (angle_comm n k m).
      ring. }
  rewrite Rsum_exchange.
  rewrite (Rsum_ext n _ (fun j => INR n * (nth j z 0 * ind j (Z.of_nat m)))).
  2:{ intros j Hj. rewrite Rsum_scal.
      fold (Csum n (Z.of_nat j - Z.of_nat m)). unfold ind.
      destruct (Z.eqb_spec (Z.of_nat j) (Z.of_nat m)) as [E|E].
      - rewrite Csum_multiple; [ring | exact Hn | exists 0%Z; lia].
      - rewrite Csum_nonmultiple; [ring | exact Hn |].
        intros (q & Hq). assert (q = 0)%Z by nia. lia. }
  rewrite Rsum_scal, Rsum_pick by exact Hz.
  rewrite sample_of_nat. field. lra.
Qed.

End GccDelay.

Section GccDelayClaims.
Import Np Tdoa Spec Roots More.

Lemma half_bounds (n : nat) : (2 * (n / 2) <= n < 2 * (n / 2) + 2)%nat.
Proof.
  pose proof (Nat.div_mod_eq n 2). pose proof (Nat.mod_upper_bound n 2). lia.
Qed.

Lemma nonzero_example : nonzero [1; 2].
Proof. apply Exists_cons_hd. lra. Qed.

(** C1: for non-empty signals, a positive sample rate and a recognised
    method, with [n = len1 + len2 - 1]: both signals are transformed at
    length [n]; entry [k] of the weighted cross-spectrum is
    [R / (|R| + 1e-10)] for [phat] and [R / (sqrt(|S1|^2 |S2|^2) + 1e-10)]
    for [scot], with [R = S1 conj(S2)] at index [k]; the real part of its
    inverse transform (the transform that gives back the real sequence of
    which it is given the forward transform) is re-centred so that entry
    [i] is the value at circular lag [i - n/2] (entry [n/2] is lag zero);
    and the function returns [(i - n/2) / fs] for the first index [i]
    holding the maximum, a lag between [-(n/2)] and [n - 1 - n/2]. *)
Theorem estimate_tdoa_gcc_spec (sig1 sig2 : list R) (fs : R) (method : string) :
  sig1 <> [] -> sig2 <> [] -> 0 < fs ->
  lower method = "phat" \/ lower method = "scot" ->
  let n := (length sig1 + length sig2 - 1)%nat in
  exists SIG1 SIG2 W spectrum,
    fft sig1 (Z.of_nat n) = Ok SIG1 /\ length SIG1 = n /\
    fft sig2 (Z.of_nat n) = Ok SIG2 /\ length SIG2 = n /\
    gcc_weighting method SIG1 SIG2 (map2 Cmul SIG1 (map Cconj SIG2)) = Ok W /\
    length W = n /\
    (forall k, (k < n)%nat ->
       nth k SIG1 (mkC 0 0) = transform sig1 n k /\
       nth k SIG2 (mkC 0 0) = transform sig2 n k /\
       (lower method = "phat" ->
        nth k W (mkC 0 0) = phat (transform sig1 n k) (transform sig2 n k)) /\
       (lower method = "scot" ->
        nth k W (mkC 0 0) = scot (transform sig1 n k) (transform sig2 n k))) /\
    ifft W = Ok spectrum /\ length spectrum = n /\
    (forall z, (length z <= n)%nat ->
       exists Z back,
         fft z (Z.of_nat n) = Ok Z /\ ifft Z = Ok back /\
         forall m, (m < n)%nat -> re (nth m back (mkC 0 0)) = nth m z 0) /\
    let r := map re spectrum in
    let cc := fftshift r in
    (forall m, (m < n)%nat -> nth m r 0 = inverse_real W n m) /\
    length cc = n /\
    (forall i, (i < n)%nat -> nth i cc 0 = nth ((i + (n - n / 2)) mod n) r 0) /\
    nth (n / 2) cc 0 = nth 0 r 0 /\
    exists i,
      first_max cc i /\
      estimate_tdoa_gcc sig1 sig2 fs method
      = Ok (IZR (Z.of_nat i - Z.of_nat (n / 2)) / fs) /\
      (- Z.of_nat (n / 2) <= Z.of_nat i - Z.of_nat (n / 2)
       <= Z.of_nat n - 1 - Z.of_nat (n / 2))%Z.
Proof.
  intros H1 H2 Hfs Hm n.
  pose proof (length_pos_of_ne _ H1) as Hl1.
  pose proof (length_pos_of_ne _ H2) as Hl2.
  assert (Hn : (0 < n)%nat) by (unfold n; lia).
  set (SIG1 := map (dft_coeff sig1 n) (seq 0 n)).
  set (SIG2 := map (dft_coeff sig2 n) (seq 0 n)).
  assert (HlS1 : length SIG1 = n)
    by (unfold SIG1; rewrite length_map, length_seq; reflexivity).
  assert (HlS2 : length SIG2 = n)
    by (unfold SIG2; rewrite length_map, length_seq; reflexivity).
  assert (HS1 : forall k, (k < n)%nat -> nth k SIG1 (mkC 0 0) = transform sig1 n k).
  { intros k Hk. unfold SIG1. rewrite map_seq_nth by exact Hk.
    apply dft_coeff_transform. }
  assert (HS2 : forall k, (k < n)%nat -> nth k SIG2 (mkC 0 0) = transform sig2 n k).
  { intros k Hk. unfold SIG2. rewrite map_seq_nth by exact Hk.
    apply dft_coeff_transform. }
  destruct (gcc_weighting_recognised method SIG1 SIG2
              (map2 Cmul SIG1 (map Cconj SIG2)) Hm) as (W & HW).
  assert (HlW : length W = n).
  { transitivity (length (map2 Cmul SIG1 (map Cconj SIG2)));
      [|apply cross_spectrum_length].
    apply (gcc_weighting_length method SIG1 SIG2); [| |exact HW];
      unfold SIG1, SIG2; rewrite cross_spectrum_length;
      rewrite length_map, length_seq; reflexivity. }
  assert (HWne : W <> []) by (intros ->; simpl in HlW; lia).
  exists SIG1, SIG2, W, (map (idft_coeff W n) (seq 0 n)).
  split; [apply fft_defined, Hn|].
  split; [exact HlS1|].
  split; [apply fft_defined, Hn|].
  split; [exact HlS2|].
  split; [exact HW|].
  split; [exact HlW|].
  split.
  { intros k Hk.
    split; [apply HS1, Hk|]. split; [apply HS2, Hk|].
    split; intros E.
    - rewrite (gcc_weighting_phat method SIG1 SIG2 _ E) in HW.
      injection HW as <-.
      rewrite (weight_phat_nth SIG1 SIG2 n k HlS1 HlS2 Hk), HS1, HS2 by exact Hk.
      reflexivity.
    - rewrite (gcc_weighting_scot method SIG1 SIG2 _ E) in HW.
      injection HW as <-.
      rewrite (weight_scot_nth SIG1 SIG2 n k HlS1 HlS2 Hk), HS1, HS2 by exact Hk.
      reflexivity. }
  split; [rewrite ifft_defined, HlW by exact HWne; reflexivity|].
  split; [rewrite length_map, length_seq; reflexivity|].
  split.
  { intros z Hz.
    exists (map (dft_coeff z n) (seq 0 n)),
           (map (idft_coeff (map (dft_coeff z n) (seq 0 n)) n) (seq 0 n)).
    split; [apply fft_defined, Hn|].
    split.
    - rewrite ifft_defined, dft_list_length; [reflexivity|].
      intros E. apply (f_equal (@length complex)) in E.
      rewrite dft_list_length in E. simpl in E. lia.
    - intros m Hm'. rewrite map_seq_nth by exact Hm'.
      apply ifft_fft_real; assumption. }
  intros r cc.
  assert (Hlr : length r = n)
    by (unfold r; rewrite !length_map, length_seq; reflexivity).
  assert (Hlc : length cc = n) by (unfold cc; rewrite fftshift_length; exact Hlr).
  split.
  { intros m Hm'. unfold r. rewrite map_map.
    rewrite (map_seq_nth (fun q => re (idft_coeff W n q))) by exact Hm'.
    apply idft_inverse_real. }
  split; [exact Hlc|].
  split.
  { intros i Hi. unfold cc. rewrite fftshift_nth by lia. rewrite Hlr. reflexivity. }
  split.
  { unfold cc. rewrite <- Hlr at 1. apply fftshift_centre.
    intros E. rewrite E in Hlr. simpl in Hlr. lia. }
  destruct (argmax_defined cc) as (i & _ & Hfm).
  { intros E. rewrite E in Hlc. simpl in Hlc. lia. }
  exists i. split; [exact Hfm|]. split.
  - apply (estimate_tdoa_gcc_first_max sig1 sig2 fs method W i H1 H2 HW Hfm).
  - destruct Hfm as (Hi & _). rewrite Hlc in Hi. lia.
Qed.

Lemma estimate_tdoa_gcc_spec_witness :
  [0; 1; 2] <> [] /\ [1; 2] <> [] /\ 0 < 8000 /\
  (lower "PHAT" = "phat" \/ lower "PHAT" = "scot") /\
  (exists i : nat,
     (i < 4)%nat /\
     estimate_tdoa_gcc [0; 1; 2] [1; 2] 8000 "PHAT"
     = Ok (IZR (Z.of_nat i - Z.of_nat (4 / 2)) / 8000)) /\
  estimate_tdoa_gcc [0; 1; 2] [1; 2] 8000 "PHAT" = Ok (1 / 8000).
Proof.
  assert (H1 : [0; 1; 2] <> []) by discriminate.
  assert (H2 : [1; 2] <> []) by discriminate.
  assert (H3 : 0 < 8000) by lra.
  assert (H4 : lower "PHAT" = "phat" \/ lower "PHAT" = "scot")
    by (left; reflexivity).
  destruct (estimate_tdoa_gcc_spec [0; 1; 2] [1; 2] 8000 "PHAT" H1 H2 H3 H4)
    as (S1 & S2 & W & sp & _ & _ & _ & _ & _ & _ & _ & _ & _ & _ & _ & Hlc & _ & _
        & i & Hfm & E & _).
  split; [exact H1 | split; [exact H2 | split; [exact H3 | split; [exact H4|]]]].
  split.
  - exists i. split; [|exact E].
    destruct Hfm as (Hi & _). rewrite Hlc in Hi. exact Hi.
  - pose proof (estimate_tdoa_gcc_delayed_pair 1 0 [1; 2] 8000 "PHAT"
                  nonzero_example H4) as Hd.
    change (delay 1 [1; 2]) with [0; 1; 2] in Hd.
    change (delay 0 [1; 2]) with [1; 2] in Hd.
    exact Hd.
Defined.

Lemma gcc_exchange_negates_tdoa_witness :
  [0; 0; 1; 2] <> [] /\ [1; 2] <> [] /\ 0 < 8000 /\
  (lower "phat" = "phat" \/ lower "phat" = "scot") /\
  Nat.Odd (length ([0; 0; 1; 2]%R : list R) + length ([1; 2]%R : list R) - 1) /\
  unique_max (gcc_correlation [0; 0; 1; 2] [1; 2] "phat") /\
  estimate_tdoa_gcc [0; 0; 1; 2] [1; 2] 8000 "phat" = Ok (2 / 8000) /\
  estimate_tdoa_gcc [1; 2] [0; 0; 1; 2] 8000 "phat" = Ok (- (2 / 8000)).
Proof.
  assert (H1 : [0; 0; 1; 2] <> []) by discriminate.
  assert (H1' : [1; 2] <> []) by discriminate.
  assert (H2 : 0 < 8000) by lra.
  assert (H3 : lower "phat" = "phat" \/ lower "phat" = "scot")
    by (left; reflexivity).
  assert (H4 : Nat.Odd (length ([0; 0; 1; 2]%R : list R)
                        + length ([1; 2]%R : list R) - 1))
    by (exists 2%nat; reflexivity).
  assert (H5 : unique_max (gcc_correlation [0; 0; 1; 2] [1; 2] "phat")).
  { apply (gcc_correlation_delayed_unique [1; 2] 2 0 "phat" nonzero_example H3). }
  destruct (gcc_exchange_negates_tdoa [0; 0; 1; 2] [1; 2] 8000 "phat"
              H1 H1' H2 H3 H4 H5) as (t & E1 & E2).
  pose proof (estimate_tdoa_gcc_delayed_pair 2 0 [1; 2] 8000 "phat"
                nonzero_example H3) as Hd.
  change (delay 2 [1; 2]) with [0; 0; 1; 2] in Hd.
  change (delay 0 [1; 2]) with [1; 2] in Hd.
  change (Ok (IZR _ / 8000)) with (@Ok R (2 / 8000)) in Hd.
  rewrite Hd in E1. injection E1 as <-.
  split; [exact H1 | split; [exact H1' | split; [exact H2 | split; [exact H3 |
    split; [exact H4 | split; [exact H5 | split; [exact Hd | exact E2]]]]]]].
Defined.

(** X23: for a signal with a sample that is not zero and a recognised
    method, a copy delayed by [k] samples with [k <= 2 len - 2] gives the
    TDOA [k / fs] as first signal and [- k / fs] as second one. *)
Theorem gcc_recovers_delay (s : list R) (k : nat) (fs : R) (method : string) :
  nonzero s -> 0 < fs ->
  lower method = "phat" \/ lower method = "scot" ->
  (k + 2 <= 2 * length s)%nat ->
  estimate_tdoa_gcc (delay k s) s fs method = Ok (INR k / fs) /\
  estimate_tdoa_gcc s (delay k s) fs method = Ok (- INR k / fs).
Proof.
  intros Hnz Hfs Hm Hk.
  pose proof (estimate_tdoa_gcc_delayed_pair k 0 s fs method Hnz Hm) as A.
  pose proof (estimate_tdoa_gcc_delayed_pair 0 k s fs method Hnz Hm) as B.
  change (delay 0 s) with s in A, B.
  rewrite delay_length in A, B.
  split.
  - rewrite A. f_equal. f_equal. rewrite INR_IZR_INZ. f_equal.
    unfold circular_lag.
    set (n := (k + length s + length s - 1)%nat).
    pose proof (half_bounds n). rewrite Z.mod_small by (unfold n in *; lia). lia.
  - rewrite B. f_equal. f_equal. rewrite INR_IZR_INZ, <- opp_IZR. f_equal.
    unfold circular_lag.
    set (n := (length s + (k + length s) - 1)%nat).
    pose proof (half_bounds n). rewrite Z.mod_small by (unfold n in *; lia). lia.
Qed.

Lemma gcc_recovers_delay_witness :
  nonzero [1; 2] /\ 0 < 8000 /\
  (lower "scot" = "phat" \/ lower "scot" = "scot") /\
  (2 + 2 <= 2 * length ([1; 2]%R : list R))%nat /\
  estimate_tdoa_gcc [0; 0; 1; 2] [1; 2] 8000 "scot" = Ok (INR 2 / 8000) /\
  estimate_tdoa_gcc [1; 2] [0; 0; 1; 2] 8000 "scot" = Ok (- INR 2 / 8000).
Proof.
  assert (H2 : 0 < 8000) by lra.
  assert (H3 : lower "scot" = "phat" \/ lower "scot" = "scot")
    by (right; reflexivity).
  assert (H4 : (2 + 2 <= 2 * length ([1; 2]%R : list R))%nat) by (simpl; lia).
  split; [exact nonzero_example | split; [exact H2 | split; [exact H3 |
    split; [exact H4|]]]].
  apply (gcc_recovers_delay [1; 2] 2 8000 "scot" nonzero_example H2 H3 H4).
Defined.

(** X24: a copy delayed by [k >= 2 len - 1] samples is beyond the circular
    lag axis: as first signal it gives the TDOA [-(2 len - 1) / fs],
    whatever [k] is, and not [k / fs]. *)
Theorem gcc_long_delay_wraps (s : list R) (k : nat) (fs : R) (method : string) :
  nonzero s -> 0 < fs ->
  lower method = "phat" \/ lower method = "scot" ->
  (2 * length s <= k + 1)%nat ->
  estimate_tdoa_gcc (delay k s) s fs method
  = Ok (- INR (2 * length s - 1) / fs) /\
  estimate_tdoa_gcc (delay k s) s fs method <> Ok (INR k / fs).
Proof.
  intros Hnz Hfs Hm Hk.
  destruct (nonzero_nth s Hnz) as (l0 & Hl0 & _).
  pose proof (estimate_tdoa_gcc_delayed_pair k 0 s fs method Hnz Hm) as A.
  change (delay 0 s) with s in A. rewrite delay_length in A.
  assert (E : estimate_tdoa_gcc (delay k s) s fs method
              = Ok (- INR (2 * length s - 1) / fs)).
  { rewrite A. f_equal. f_equal. rewrite INR_IZR_INZ, <- opp_IZR. f_equal.
    unfold circular_lag.
    set (n := (k + length s + length s - 1)%nat).
    pose proof (half_bounds n) as Hh.
    replace (Z.of_nat k - Z.of_nat 0 + Z.of_nat (n / 2))%Z
      with (Z.of_nat k + Z.of_nat (n / 2) - Z.of_nat n + 1 * Z.of_nat n)%Z by lia.
    rewrite Z_mod_plus_full, Z.mod_small by (unfold n in *; lia).
    unfold n. lia. }
  split; [exact E|].
  rewrite E.
  assert (Hpos : 0 < INR (2 * length s - 1)) by (apply lt_0_INR; lia).
  pose proof (pos_INR k) as Hk0.
  set (v := INR (2 * length s - 1)) in *.
  intros H. injection H as H.
  apply (f_equal (fun v => v * fs)) in H.
  unfold Rdiv in H. rewrite !Rmult_assoc, Rinv_l in H by lra. lra.
Qed.

Lemma gcc_long_delay_wraps_witness :
  nonzero [1] /\ 0 < 8000 /\
  (lower "phat" = "phat" \/ lower "phat" = "scot") /\
  (2 * length ([1]%R : list R) <= 1 + 1)%nat /\
  estimate_tdoa_gcc [0; 1] [1] 8000 "phat" = Ok (- INR 1 / 8000) /\
  estimate_tdoa_gcc [0; 1] [1] 8000 "phat" <> Ok (INR 1 / 8000).
Proof.
  assert (H1 : nonzero [1]) by (apply Exists_cons_hd; lra).
  assert (H2 : 0 < 8000) by lra.
  assert (H3 : lower "phat" = "phat" \/ lower "phat" = "scot")
    by (left; reflexivity).
  assert (H4 : (2 * length ([1]%R : list R) <= 1 + 1)%nat) by (simpl; lia).
  split; [exact H1 | split; [exact H2 | split; [exact H3 | split; [exact H4|]]]].
  apply (gcc_long_delay_wraps [1] 1 8000 "phat" H1 H2 H3 H4).
Defined.

(** The two weights of a cross-spectrum value are one: the magnitude of
    [S1 conj(S2)] is the root of the product of the two powers. *)
Lemma phat_scot_same S1 S2 : phat S1 S2 = scot S1 S2.
Proof.
  unfold phat, scot.
  assert (E : magnitude (cross_spectrum S1 S2) = sqrt (power_of S1 * power_of S2)).
  { unfold magnitude, cross_spectrum, power_of, Rsqr. cbn [re im].
    f_equal. ring. }
  rewrite E. reflexivity.
Qed.

Lemma weight_phat_scot S1 S2 n :
  length S1 = n -> length S2 = n ->
  weight_phat (map2 Cmul S1 (map Cconj S2))
  = weight_scot S1 S2 (map2 Cmul S1 (map Cconj S2)).
Proof.
  intros H1 H2.
  assert (HR : length (map2 Cmul S1 (map Cconj S2)) = n)
    by (rewrite map2_length, length_map, H1, H2; apply Nat.min_id).
  apply nth_ext with (d := mkC 0 0) (d' := mkC 0 0).
  - rewrite weight_phat_length, weight_scot_length; congruence.
  - intros k Hk. rewrite weight_phat_length, HR in Hk.
    rewrite (weight_phat_nth S1 S2 n k H1 H2 Hk),
            (weight_scot_nth S1 S2 n k H1 H2 Hk).
    apply phat_scot_same.
Qed.

(** X25: over the reals the two weightings give the same spectrum, so the
    correlation that is searched is the same array under [phat] and under
    [scot]; where it has a single maximum, the two methods return the same
    TDOA. *)
Theorem gcc_methods_coincide (x y : list R) (fs : R) :
  x <> [] -> y <> [] ->
  unique_max (gcc_correlation x y "phat") ->
  gcc_correlation x y "phat" = gcc_correlation x y "scot" /\
  estimate_tdoa_gcc x y fs "phat" = estimate_tdoa_gcc x y fs "scot".
Proof.
  intros Hx Hy _.
  set (n := (length x + length y - 1)%nat).
  assert (HW : weight_phat (map2 Cmul (map (dft_coeff x n) (seq 0 n))
                                  (map Cconj (map (dft_coeff y n) (seq 0 n))))
               = weight_scot (map (dft_coeff x n) (seq 0 n))
                   (map (dft_coeff y n) (seq 0 n))
                   (map2 Cmul (map (dft_coeff x n) (seq 0 n))
                      (map Cconj (map (dft_coeff y n) (seq 0 n)))))
    by (apply (weight_phat_scot _ _ n); apply dft_list_length).
  split.
  - unfold gcc_correlation. fold n.
    rewrite gcc_weighting_phat, gcc_weighting_scot by reflexivity.
    rewrite HW. reflexivity.
  - rewrite !estimate_tdoa_gcc_eq by assumption. fold n.
    rewrite gcc_weighting_phat, gcc_weighting_scot by reflexivity.
    rewrite HW. reflexivity.
Qed.

Lemma gcc_methods_coincide_witness :
  [0; 0; 1; 2] <> [] /\ [1; 2] <> [] /\
  unique_max (gcc_correlation [0; 0; 1; 2] [1; 2] "phat") /\
  gcc_correlation [0; 0; 1; 2] [1; 2] "phat"
  = gcc_correlation [0; 0; 1; 2] [1; 2] "scot" /\
  estimate_tdoa_gcc [0; 0; 1; 2] [1; 2] 8000 "phat"
  = estimate_tdoa_gcc [0; 0; 1; 2] [1; 2] 8000 "scot".
Proof.
  assert (H1 : [0; 0; 1; 2] <> []) by discriminate.
  assert (H2 : [1; 2] <> []) by discriminate.
  assert (H3 : unique_max (gcc_correlation [0; 0; 1; 2] [1; 2] "phat")).
  { apply (gcc_correlation_delayed_unique [1; 2] 2 0 "phat" nonzero_example).
    left. reflexivity. }
  split; [exact H1 | split; [exact H2 | split; [exact H3|]]].
  apply (gcc_methods_coincide [0; 0; 1; 2] [1; 2] 8000 H1 H2 H3).
Defined.

End GccDelayClaims.
